(** * CCG lexicons: a shallow embedding of [nltk/ccg/lexicon.py]

    The first part follows the Python module top to bottom: the regular
    expressions, the [CCGLexicon] container, the bracket matcher, the
    category parser and the line-oriented builder [fromstring].  The
    second part introduces the vocabulary of the statements, the third
    proves them, and the last proves further properties of the module.

    Conventions.
    - A Python [str] is a [string] whose characters are code points below
      256; the character classes of [re] and of [str.strip] and
      [str.splitlines] are written out for that range.
    - Exceptions are results: every function that can raise returns an
      [outcome].  Recursion that Python runs on ever shorter strings is
      run on a fuel counter; the functions without [_fuel] in their name
      supply a fuel that is proved sufficient, so [OutOfFuel] never
      escapes them, and any larger fuel gives the same result.
    - [CCGVar()] draws a fresh identity from a counter, which is the only
      state threaded through the parser and the builder.
    - Methods of [CCGLexicon] return their value together with the object
      as the call leaves it, since reading a [defaultdict] can store a
      key. *)

From Stdlib Require Import Strings.String Strings.Ascii NArith Lia.
From stdpp Require Import gmap strings list fin_maps.

(** ** Characters and the string methods used by the module *)

Module Py.

Definition code (c : ascii) : N := N_of_ascii c.

Definition between (lo hi : N) (c : ascii) : bool :=
  ((lo <=? code c) && (code c <=? hi))%N.

(** "[A-Za-z]" *)
Definition is_alpha (c : ascii) : bool :=
  between 65 90 c || between 97 122 c.

(** "[A-Za-z,]" *)
Definition is_subscr (c : ascii) : bool :=
  is_alpha c || Ascii.eqb c ",".

(** "\s" under [re.UNICODE], which is also what [str.strip] removes. *)
Definition is_space (c : ascii) : bool :=
  between 9 13 c || between 28 32 c || (code c =? 133)%N || (code c =? 160)%N.

(** "[\w_]" under [re.UNICODE]. *)
Definition is_word (c : ascii) : bool :=
  between 48 57 c || between 65 90 c || Ascii.eqb c "_" || between 97 122 c
  || (code c =? 170)%N || between 178 179 c || (code c =? 181)%N
  || between 185 186 c || between 188 190 c || between 192 214 c
  || between 216 246 c || between 248 255 c.

(** The line boundaries of [str.splitlines]. *)
Definition is_linebreak (c : ascii) : bool :=
  between 10 13 c || between 28 30 c || (code c =? 133)%N.

Definition LF : ascii := "010".
Definition CR : ascii := "013".

(** "." without [re.DOTALL] *)
Definition is_dot (c : ascii) : bool := negb (Ascii.eqb c LF).

(** [s.startswith(prefix)] *)
Definition startswith (s pre : string) : bool := String.prefix pre s.

(** [s[1:]] *)
Definition tail (s : string) : string :=
  match s with
  | EmptyString => EmptyString
  | String _ s' => s'
  end.

(** [s[0:1]]; on a non-empty string this is [s[0]]. *)
Definition head (s : string) : string :=
  match s with
  | EmptyString => EmptyString
  | String c _ => String c EmptyString
  end.

(** [s[:-1]] *)
Fixpoint init (s : string) : string :=
  match s with
  | EmptyString => EmptyString
  | String c s' =>
      match s' with
      | EmptyString => EmptyString
      | String _ _ => String c (init s')
      end
  end.

(** [s[1:-1]] *)
Definition slice_1_m1 (s : string) : string := init (tail s).

(** [s[n:]] *)
Fixpoint drop (n : nat) (s : string) : string :=
  match n, s with
  | O, _ => s
  | S n', String _ s' => drop n' s'
  | S _, EmptyString => EmptyString
  end.

(** [s[:n]] *)
Fixpoint take (n : nat) (s : string) : string :=
  match n, s with
  | S n', String c s' => String c (take n' s')
  | _, _ => EmptyString
  end.

(** Every character of [s] satisfies [p]. *)
Fixpoint all (p : ascii -> bool) (s : string) : bool :=
  match s with
  | EmptyString => true
  | String c s' => p c && all p s'
  end.

(** The longest prefix whose characters satisfy [p], and what follows. *)
Fixpoint span (p : ascii -> bool) (s : string) : string * string :=
  match s with
  | EmptyString => (EmptyString, EmptyString)
  | String c s' =>
      if p c then let '(a, b) := span p s' in (String c a, b)
      else (EmptyString, s)
  end.

Fixpoint lstrip (s : string) : string :=
  match s with
  | EmptyString => EmptyString
  | String c s' => if is_space c then lstrip s' else s
  end.

Fixpoint rstrip (s : string) : string :=
  match s with
  | EmptyString => EmptyString
  | String c s' =>
      let r := rstrip s' in
      if String.eqb r EmptyString && is_space c then EmptyString
      else String c r
  end.

(** [s.strip()] *)
Definition strip (s : string) : string := rstrip (lstrip s).

(** [s.split(sep)] for a one-character separator: never the empty list. *)
Fixpoint split (sep : ascii) (s : string) : list string :=
  match s with
  | EmptyString => [EmptyString]
  | String c s' =>
      if Ascii.eqb c sep then EmptyString :: split sep s'
      else match split sep s' with
           | h :: t => String c h :: t
           | [] => [String c EmptyString]
           end
  end.

(** [s.splitlines()]: a [\r\n] pair is one boundary and a final boundary
    opens no further line. *)
Fixpoint splitlines (s : string) : list string :=
  match s with
  | EmptyString => []
  | String c s' =>
      if is_linebreak c then
        match s' with
        | String c' s'' =>
            if Ascii.eqb c CR && Ascii.eqb c' LF
            then EmptyString :: splitlines s''
            else EmptyString :: splitlines s'
        | EmptyString => [EmptyString]
        end
      else match splitlines s' with
           | h :: t => String c h :: t
           | [] => [String c EmptyString]
           end
  end.

End Py.

(** ** The regular expressions

    Each pattern is written as the function [pattern.match(s)] computes,
    [None] when there is no match and the tuple of groups otherwise.  The
    character classes that follow one another in these patterns are
    disjoint, so a greedy run is always the longest one; the one place
    where the engine has to give characters back is the "\s*(.+)" tail of
    [LEX_RE], which is written with that backtracking. *)

Module Re.
Import Py.

(** The group "(\[[A-Za-z,]+\])?" at the head of [s]: the bracket group,
    [None] if it did not take part in the match, and the rest of [s]. *)
Definition opt_subscript (s : string) : option string * string :=
  match s with
  | String c s' =>
      if Ascii.eqb c "[" then
        let '(body, after) := span is_subscr s' in
        match body, after with
        | String _ _, String c' rest =>
            if Ascii.eqb c' "]" then (Some ("[" +:+ body +:+ "]"), rest)
            else (None, s)
        | _, _ => (None, s)
        end
      else (None, s)
  | EmptyString => (None, s)
  end.

(** PRIM_RE = "([A-Za-z]+)(\[[A-Za-z,]+\])?" *)
Definition PRIM_RE_match (s : string) : option (string * option string) :=
  match span is_alpha s with
  | (EmptyString, _) => None
  | (name, rest) => Some (name, fst (opt_subscript rest))
  end.

(** NEXTPRIM_RE: group 1 is "[A-Za-z]+(?:\[[A-Za-z,]+\])?", the text that
    PRIM_RE matches, and group 2 is ".*", the rest of the line. *)
Definition NEXTPRIM_RE_match (s : string) : option (string * string) :=
  match span is_alpha s with
  | (EmptyString, _) => None
  | (name, rest) =>
      let '(sub, rest') := opt_subscript rest in
      Some (name +:+ default EmptyString sub, fst (span is_dot rest'))
  end.

(** "[.,]?" *)
Definition opt_modifier (s : string) : string * string :=
  match s with
  | String c s' =>
      if Ascii.eqb c "." || Ascii.eqb c "," then (String c EmptyString, s')
      else (EmptyString, s)
  | EmptyString => (EmptyString, s)
  end.

(** APP_RE: the groups are "[\\/]", "[.,]?", "[.,]?" and ".*". *)
Definition APP_RE_match (s : string)
  : option (string * string * string * string) :=
  match s with
  | String c s' =>
      if Ascii.eqb c "\" || Ascii.eqb c "/" then
        let '(m1, s1) := opt_modifier s' in
        let '(m2, s2) := opt_modifier s1 in
        Some (String c EmptyString, m1, m2, fst (span is_dot s2))
      else None
  | EmptyString => None
  end.

(** "(.+)" *)
Definition dot_plus (s : string) : option string :=
  match span is_dot s with
  | (EmptyString, _) => None
  | (g, _) => Some g
  end.

(** "\s*(.+)": the blanks are taken greedily and given back one by one
    while "(.+)" finds nothing to match. *)
Fixpoint spaces_dot_plus (s : string) : option string :=
  match s with
  | EmptyString => None
  | String c s' =>
      if is_space c then
        match spaces_dot_plus s' with
        | Some g => Some g
        | None => dot_plus s
        end
      else dot_plus s
  end.

(** "(::|[-=]+>)" *)
Definition separator (s : string) : option (string * string) :=
  if startswith s "::" then Some ("::", drop 2 s)
  else
    let '(run, after) :=
      span (fun c => Ascii.eqb c "-" || Ascii.eqb c "=") s in
    match run, after with
    | String _ _, String c rest =>
        if Ascii.eqb c ">" then Some (run +:+ ">", rest) else None
    | _, _ => None
    end.

(** LEX_RE = "([\w_]+)\s*(::|[-=]+>)\s*(.+)" with [re.UNICODE] *)
Definition LEX_RE_match (s : string) : option (string * string * string) :=
  match span is_word s with
  | (EmptyString, _) => None
  | (ident, s1) =>
      match separator (snd (span is_space s1)) with
      | Some (sep, s2) =>
          match spaces_dot_plus s2 with
          | Some catstr => Some (ident, sep, catstr)
          | None => None
          end
      | None => None
      end
  end.

(** COMMENTS_RE: group 1 is "[^#]*" and an optional "#.*" follows; it
    matches every string, and only its first group is used. *)
Definition COMMENTS_RE_match (s : string) : option string :=
  Some (fst (span (fun c => negb (Ascii.eqb c "#")) s)).

End Re.

(** ** Exceptions, results and the parser's state *)

Inductive pattern := PRIM_RE | NEXTPRIM_RE | APP_RE | LEX_RE | COMMENTS_RE.

(** The exceptions the module can raise.  [AttributeError re] is the
    failure of [re.match(..).groups()] when the match is [None]; the
    pattern records which call site raised.  [IndexError] is
    [primitives[0]] on the empty list. *)
Inductive exception :=
| AssertionError (msg : string)
| AttributeError (re : pattern)
| IndexError.

Inductive outcome (A : Type) : Type :=
| Return (a : A)
| Raise (e : exception)
| OutOfFuel.

Arguments Return {A} a.
Arguments Raise {A} e.
Arguments OutOfFuel {A}.

(** A computation that may call [CCGVar()]: the state is the identity
    the next call hands out. *)
Definition M (A : Type) : Type := nat -> outcome (A * nat).

Definition ret {A} (a : A) : M A := fun n => Return (a, n).

Definition raise {A} (e : exception) : M A := fun _ => Raise e.

Definition bind {A B} (m : M A) (k : A -> M B) : M B :=
  fun n =>
    match m n with
    | Return (a, n') => k a n'
    | Raise e => Raise e
    | OutOfFuel => OutOfFuel
    end.

Definition lift {A} (o : outcome A) : M A :=
  fun n =>
    match o with
    | Return a => Return (a, n)
    | Raise e => Raise e
    | OutOfFuel => OutOfFuel
    end.

(** [m.groups()] for the result [m] of [re.match] *)
Definition groups {A} (re : pattern) (m : option A) : M A :=
  match m with
  | Some g => ret g
  | None => raise (AttributeError re)
  end.

Declare Scope py_scope.
Delimit Scope py_scope with py.
Notation "'let*' x ':=' m 'in' k" := (bind m (fun x => k))
  (at level 10, x pattern, m at level 100, k at level 200) : py_scope.
Local Open Scope py_scope.

(** ** Categories

    The classes [Direction], [CCGVar], [PrimitiveCategory] and
    [FunctionalCategory] are imported from [nltk.ccg.api]; this module
    only constructs them and calls [substitute]. *)

(** Modelled from the spec: the class [Direction] of nltk/ccg/api.py, a
    slash and the sequence of its restriction modifiers. *)
Record Direction := mkDirection { dir : string; restrs : list string }.

(** Modelled from the spec: the classes [CCGVar], [PrimitiveCategory] and
    [FunctionalCategory] of nltk/ccg/api.py.  Categories are immutable
    trees.  A unification variable is an identity token and nothing else;
    the token is the number its constructor drew. *)
Inductive Category :=
| CCGVar (id : nat)
| PrimitiveCategory (categ : string) (restrs : list string)
| FunctionalCategory (res arg : Category) (direction : Direction).

(** Modelled from the spec: the constructor call [CCGVar()] of
    nltk/ccg/api.py, which yields a variable distinct from every variable
    made before. *)
Definition new_CCGVar : M nat := fun n => Return (n, S n).

Definition var_eqb (a : option nat) (b : nat) : bool :=
  match a with
  | Some a' => Nat.eqb a' b
  | None => false
  end.

(** Modelled from the spec: the method [substitute] of the category
    classes of nltk/ccg/api.py.  It builds a copy of the tree in which
    each variable that the list [subs] binds is replaced by the category
    bound to it; the first component of a pair is [None] when the caller
    passes [None] for the variable, as [parsePrimitiveCategory] does for a
    family stored without variable. *)
Fixpoint substitute (c : Category) (subs : list (option nat * Category))
  : Category :=
  match c with
  | CCGVar v =>
      match List.find (fun p => var_eqb (fst p) v) subs with
      | Some (_, r) => r
      | None => c
      end
  | PrimitiveCategory _ _ => c
  | FunctionalCategory res arg d =>
      FunctionalCategory (substitute res subs) (substitute arg subs) d
  end.

(** The variables that occur in a category. *)
Fixpoint cat_vars (c : Category) : list nat :=
  match c with
  | CCGVar v => [v]
  | PrimitiveCategory _ _ => []
  | FunctionalCategory res arg _ => cat_vars res ++ cat_vars arg
  end.

(** ** The lexicon *)

(** [collections.defaultdict(list)]: an association list with one pair
    per key, in the order in which the keys were first stored, which is
    the order in which a [dict] is iterated. *)
Module DefaultDict.

Definition t : Type := list (string * list Category).

Fixpoint lookup (k : string) (d : t) : option (list Category) :=
  match d with
  | [] => None
  | (k', l) :: d' => if String.eqb k' k then Some l else lookup k d'
  end.

Definition keys (d : t) : list string := map fst d.

(** [d[k]]: a missing key is first stored with the default [list()]. *)
Definition getitem (k : string) (d : t) : list Category * t :=
  match lookup k d with
  | Some l => (l, d)
  | None => ([], d ++ [(k, [])])
  end.

(** The list stored under [k] is changed in place by [f]. *)
Fixpoint update (f : list Category -> list Category) (k : string) (d : t)
  : t :=
  match d with
  | [] => []
  | (k', l) :: d' =>
      if String.eqb k' k then (k', f l) :: d' else (k', l) :: update f k d'
  end.

(** [d[k].append(x)] *)
Definition append (k : string) (x : Category) (d : t) : t :=
  let '(_, d') := getitem k d in
  update (fun l => l ++ [x]) k d'.

End DefaultDict.

Record CCGLexicon := mkCCGLexicon {
  _start : Category;
  _primitives : list string;
  _families : gmap string (Category * option nat);
  _entries : DefaultDict.t
}.

(** [CCGLexicon.__init__] *)
Definition CCGLexicon_init (start : string) (primitives : list string)
    (families : gmap string (Category * option nat))
    (entries : DefaultDict.t) : CCGLexicon :=
  {| _start := PrimitiveCategory start [];
     _primitives := primitives;
     _families := families;
     _entries := entries |}.

(** The methods return their value and the object as the call leaves it. *)
Definition categories (self : CCGLexicon) (word : string)
  : list Category * CCGLexicon :=
  let '(l, e) := DefaultDict.getitem word (_entries self) in
  (l, {| _start := _start self;
         _primitives := _primitives self;
         _families := _families self;
         _entries := e |}).

Definition start (self : CCGLexicon) : Category * CCGLexicon :=
  (_start self, self).

(** [CCGLexicon.__str__].  [str_cat] is the rendering of a category that
    ["%s" % cat] asks of nltk/ccg/api.py.  The flag [first] is shared by
    the two loops, as in the source. *)
Section Str.
Variable str_cat : Category -> string.

Definition str_inner (acc : string * bool) (cat : Category) : string * bool :=
  let '(s, first) := acc in
  let '(s, first) := if negb first then (s +:+ " | ", first) else (s, false) in
  (s +:+ str_cat cat, first).

Definition str_outer (acc : string * bool) (e : string * list Category)
  : string * bool :=
  let '(s, first) := acc in
  let s := if negb first then s +:+ String Py.LF "" else s in
  let s := s +:+ fst e +:+ " => " in
  fold_left str_inner (snd e) (s, true).

Definition CCGLexicon_str (self : CCGLexicon) : string :=
  fst (fold_left str_outer (_entries self) ("", true)).

End Str.

(** ** Parsing lexicons *)

Import Py Re.

Definition unmatched_bracket (str : string) : exception :=
  AssertionError ("Unmatched bracket in string '" +:+ str +:+ "'").

Fixpoint matchBrackets_fuel (fuel : nat) (str : string)
  : outcome (string * string) :=
  match fuel with
  | O => OutOfFuel
  | S fuel' => matchBrackets_while fuel' str "(" (tail str)
  end
with matchBrackets_while (fuel : nat) (str inside rest : string)
  : outcome (string * string) :=
  match fuel with
  | O => OutOfFuel
  | S fuel' =>
      if negb (String.eqb rest "") && negb (startswith rest ")") then
        if startswith rest "(" then
          match matchBrackets_fuel fuel' rest with
          | Return (part, rest') =>
              matchBrackets_while fuel' str (inside +:+ part) rest'
          | Raise e => Raise e
          | OutOfFuel => OutOfFuel
          end
        else matchBrackets_while fuel' str (inside +:+ head rest) (tail rest)
      else if startswith rest ")" then Return (inside +:+ ")", tail rest)
      else Raise (unmatched_bracket str)
  end.

Definition matchBrackets (str : string) : outcome (string * string) :=
  matchBrackets_fuel (2 * String.length str + 2) str.

Definition nextCategory (str : string) : outcome (string * string) :=
  if startswith str "(" then matchBrackets str
  else match NEXTPRIM_RE_match str with
       | Some g => Return g
       | None => Raise (AttributeError NEXTPRIM_RE)
       end.

(** [app] is the slice [app[0:3]] of the groups of APP_RE. *)
Definition parseApplication (app : string * string * string) : Direction :=
  let '(slash, m1, m2) := app in mkDirection slash [m1; m2].

Definition parseSubscripts (subscr : option string) : list string :=
  match subscr with
  | Some s => if String.eqb s "" then [] else split "," (slice_1_m1 s)
  | None => []
  end.

Definition neither_family_nor_primitive (catstr : string) : exception :=
  AssertionError
    ("String '" +:+ catstr +:+ "' is neither a family nor primitive category.").

Definition parsePrimitiveCategory (chunks : string * option string)
    (primitives : list string)
    (families : gmap string (Category * option nat))
    (var : option nat) : M (Category * option nat) :=
  let lookup_name :=
    let catstr := fst chunks in
    match families !! catstr with
    | Some (cat, cvar) =>
        match var with
        | None => ret (cat, cvar)
        | Some v => ret (substitute cat [(cvar, CCGVar v)], var)
        end
    | None =>
        if existsb (String.eqb catstr) primitives then
          let subscrs := parseSubscripts (snd chunks) in
          ret (PrimitiveCategory catstr subscrs, var)
        else raise (neither_family_nor_primitive catstr)
    end in
  if String.eqb (fst chunks) "var" then
    match snd chunks with
    | None =>
        match var with
        | None => let* v := new_CCGVar in ret (CCGVar v, Some v)
        | Some v => ret (CCGVar v, Some v)
        end
    | Some _ => lookup_name
    end
  else lookup_name.

(** The term at the head of [cat_string]: a bracketed group is parsed by
    the recursive call [recur], anything else as a primitive.  The source
    writes this [if] twice in [augParseCategory], once for the leftmost
    term and once for each argument in the loop. *)
Definition parseTerm
    (recur : string -> option nat -> M (Category * option nat))
    (cat_string : string) (primitives : list string)
    (families : gmap string (Category * option nat))
    (var : option nat) : M (Category * option nat) :=
  if startswith cat_string "(" then recur (slice_1_m1 cat_string) var
  else
    let* chunks := groups PRIM_RE (PRIM_RE_match cat_string) in
    parsePrimitiveCategory chunks primitives families var.

Fixpoint augParseCategory_fuel (fuel : nat) (line : string)
    (primitives : list string)
    (families : gmap string (Category * option nat))
    (var : option nat) : M (Category * option nat) :=
  match fuel with
  | O => fun _ => OutOfFuel
  | S fuel' =>
      let* (cat_string, rest) := lift (nextCategory line) in
      let* (res, var) :=
        parseTerm (fun s v => augParseCategory_fuel fuel' s primitives families v)
                  cat_string primitives families var in
      augParseCategory_while fuel' primitives families res var rest
  end
with augParseCategory_while (fuel : nat) (primitives : list string)
    (families : gmap string (Category * option nat))
    (res : Category) (var : option nat) (rest : string)
  : M (Category * option nat) :=
  match fuel with
  | O => fun _ => OutOfFuel
  | S fuel' =>
      if negb (String.eqb rest "") then
        let* (slash, m1, m2, rest) := groups APP_RE (APP_RE_match rest) in
        let direction := parseApplication (slash, m1, m2) in
        let* (cat_string, rest) := lift (nextCategory rest) in
        let* (arg, var) :=
          parseTerm (fun s v => augParseCategory_fuel fuel' s primitives families v)
                    cat_string primitives families var in
        augParseCategory_while fuel' primitives families
          (FunctionalCategory res arg direction) var rest
      else ret (res, var)
  end.

Definition augParseCategory (line : string) (primitives : list string)
    (families : gmap string (Category * option nat))
    (var : option nat) : M (Category * option nat) :=
  augParseCategory_fuel (S (String.length line)) line primitives families var.

Definition parseCategory (line : string) (primitives : list string)
    (families : gmap string (Category * option nat)) : M Category :=
  let* (cat, _) := augParseCategory line primitives families None in
  ret cat.

(** The local variables of [fromstring]. *)
Record locals := mkLocals {
  primitives : list string;
  families : gmap string (Category * option nat);
  entries : DefaultDict.t
}.

(** One pass through the body of the [for] loop of [fromstring]. *)
Definition fromstring_body (line : string) (st : locals) : M locals :=
  let* g := groups COMMENTS_RE (COMMENTS_RE_match line) in
  let line := strip g in
  if String.eqb line "" then ret st
  else if startswith line ":-" then
    ret (mkLocals
           (primitives st ++ map strip (split "," (strip (drop 2 line))))
           (families st) (entries st))
  else
    let* (ident, sep, catstr) := groups LEX_RE (LEX_RE_match line) in
    let* (cat, var) :=
      augParseCategory catstr (primitives st) (families st) None in
    if String.eqb sep "::" then
      ret (mkLocals (primitives st) (<[ident := (cat, var)]> (families st))
             (entries st))
    else
      ret (mkLocals (primitives st) (families st)
             (DefaultDict.append ident cat (entries st))).

(** [primitives = []], [families = {}], [entries = defaultdict(list)] *)
Definition init_locals : locals := mkLocals [] ∅ [].

Fixpoint fromstring_for (lines : list string) (st : locals) : M locals :=
  match lines with
  | [] => ret st
  | line :: lines' =>
      let* st' := fromstring_body line st in
      fromstring_for lines' st'
  end.

Definition fromstring (lex_str : string) : M CCGLexicon :=
  let* st := fromstring_for (splitlines lex_str) init_locals in
  match primitives st with
  | [] => raise IndexError
  | p0 :: _ =>
      ret (CCGLexicon_init p0 (primitives st) (families st) (entries st))
  end.

(** A source text given by its lines. *)
Definition text (lines : list string) : string :=
  String.concat (String LF "") lines.

(** The text of the lexicon [openccg_tinytiny] that the module builds
    when it is imported. *)
Definition openccg_tinytiny_text : string :=
  text [
    "";
    "    # Rather minimal lexicon based on the openccg `tinytiny' grammar.";
    "    # Only incorporates a subset of the morphological subcategories, however.";
    "    :- S,NP,N                    # Primitive categories";
    "    Det :: NP/N                  # Determiners";
    "    Pro :: NP";
    "    IntransVsg :: S\NP[sg]    # Tensed intransitive verbs (singular)";
    "    IntransVpl :: S\NP[pl]    # Plural";
    "    TransVsg :: S\NP[sg]/NP   # Tensed transitive verbs (singular)";
    "    TransVpl :: S\NP[pl]/NP   # Plural";
    "";
    "    the => NP[sg]/N[sg]";
    "    the => NP[pl]/N[pl]";
    "";
    "    I => Pro";
    "    me => Pro";
    "    we => Pro";
    "    us => Pro";
    "";
    "    book => N[sg]";
    "    books => N[pl]";
    "";
    "    peach => N[sg]";
    "    peaches => N[pl]";
    "";
    "    policeman => N[sg]";
    "    policemen => N[pl]";
    "";
    "    boy => N[sg]";
    "    boys => N[pl]";
    "";
    "    sleep => IntransVsg";
    "    sleep => IntransVpl";
    "";
    "    eat => IntransVpl";
    "    eat => TransVpl";
    "    eats => IntransVsg";
    "    eats => TransVsg";
    "";
    "    see => TransVpl";
    "    sees => TransVsg";
    "    "].

Definition openccg_tinytiny : M CCGLexicon := fromstring openccg_tinytiny_text.

(** ** Vocabulary of the statements *)

(** The position in [s] of the [")"] that closes a bracket opened before
    [s], when [depth] further brackets are open at the start of [s]:
    matching by nesting depth alone. *)
Fixpoint closing (depth : nat) (s : string) : option nat :=
  match s with
  | EmptyString => None
  | String c s' =>
      if Ascii.eqb c ")" then
        match depth with
        | O => Some 0
        | S d => S <$> closing d s'
        end
      else if Ascii.eqb c "(" then S <$> closing (S depth) s'
      else S <$> closing depth s'
  end.

(** What [parsePrimitiveCategory] does once the test for a bare [var] has
    been passed over: the family table first, then the primitives. *)
Definition resolve (catstr : string) (subscr : option string)
    (primitives : list string)
    (families : gmap string (Category * option nat))
    (var : option nat) : M (Category * option nat) :=
  match families !! catstr with
  | Some (cat, cvar) =>
      match var with
      | None => ret (cat, cvar)
      | Some v => ret (substitute cat [(cvar, CCGVar v)], var)
      end
  | None =>
      if existsb (String.eqb catstr) primitives
      then ret (PrimitiveCategory catstr (parseSubscripts subscr), var)
      else raise (neither_family_nor_primitive catstr)
  end.

(** A primitive category without subscripts. *)
Definition prim (name : string) : Category := PrimitiveCategory name [].

(** The forward slash without modifiers, as [parseApplication] builds it. *)
Definition fwd : Direction := mkDirection "/" [""; ""].

(** [res/arg] *)
Definition over (res arg : Category) : Category :=
  FunctionalCategory res arg fwd.

(** The line as [fromstring] looks at it: comment and surrounding
    blanks removed. *)
Definition clean (line : string) : string :=
  strip (fst (span (fun c => negb (Ascii.eqb c "#")) line)).

(** The four kinds of source line, decided as the loop body does. *)
Inductive line_kind :=
| Blank
| Declaration (names : list string)
| Entry (ident sep catstr : string)
| Malformed.

Definition classify (line : string) : line_kind :=
  let l := clean line in
  if String.eqb l "" then Blank
  else if startswith l ":-" then
    Declaration (map strip (split "," (strip (drop 2 l))))
  else match LEX_RE_match l with
       | Some (ident, sep, catstr) => Entry ident sep catstr
       | None => Malformed
       end.

Definition is_declaration (line : string) : bool :=
  match classify line with
  | Declaration _ => true
  | _ => false
  end.

(** The primitive names the declaration lines give, in source order. *)
Fixpoint declared (lines : list string) : list string :=
  match lines with
  | [] => []
  | l :: ls =>
      match classify l with
      | Declaration names => names ++ declared ls
      | _ => declared ls
      end
  end.

(** The identifiers of the word-entry lines. *)
Fixpoint word_idents (lines : list string) : list string :=
  match lines with
  | [] => []
  | l :: ls =>
      match classify l with
      | Entry ident sep _ =>
          if String.eqb sep "::" then word_idents ls
          else ident :: word_idents ls
      | _ => word_idents ls
      end
  end.

(** An entry line together with what the parser made of its category
    text when the loop reached it. *)
Record parsed_entry := mkParsed {
  pe_ident : string;
  pe_sep : string;
  pe_cat : Category;
  pe_var : option nat
}.

(** The entry lines the loop gets through, in source order; the state
    is threaded as the loop threads it. *)
Fixpoint parsed_entries (lines : list string) (st : locals) (n : nat)
  : list parsed_entry :=
  match lines with
  | [] => []
  | l :: ls =>
      match fromstring_body l st n with
      | Return (st', n') =>
          match classify l with
          | Entry ident sep catstr =>
              match augParseCategory catstr (primitives st) (families st)
                      None n with
              | Return ((cat, var), _) => [mkParsed ident sep cat var]
              | _ => []
              end
          | _ => []
          end ++ parsed_entries ls st' n'
      | _ => []
      end
  end.

Definition is_family (e : parsed_entry) : bool := String.eqb (pe_sep e) "::".

(** The categories of the word-entry lines for [w], in source order. *)
Definition word_categories (w : string) (es : list parsed_entry)
  : list Category :=
  map pe_cat
    (List.filter (fun e => negb (is_family e) && String.eqb (pe_ident e) w) es).

(** The pairs of the family-definition lines for [ident], in source
    order. *)
Definition family_definitions (ident : string) (es : list parsed_entry)
  : list (Category * option nat) :=
  map (fun e => (pe_cat e, pe_var e))
    (List.filter (fun e => is_family e && String.eqb (pe_ident e) ident) es).

(** What is stored for [w], read without the default factory. *)
Definition stored (w : string) (d : DefaultDict.t) : list Category :=
  default [] (DefaultDict.lookup w d).

(** ** Vocabulary of the further properties *)

(** How one parse may change the variable binding and the counter: a
    bound variable is kept and nothing is allocated; without a binding
    either nothing is allocated, or exactly one variable is, and it is
    the binding returned. *)
Definition threads (var : option nat) (n : nat) (var' : option nat) (n' : nat)
  : Prop :=
  match var with
  | Some v => var' = Some v /\ n' = n
  | None => n' = n \/ (n' = S n /\ var' = Some n)
  end.

(** The primitive categories that occur in a category, each as its name
    and its subscripts, and the directions that occur in it. *)
Fixpoint cat_prims (c : Category) : list (string * list string) :=
  match c with
  | CCGVar _ => []
  | PrimitiveCategory name subs => [(name, subs)]
  | FunctionalCategory res arg _ => cat_prims res ++ cat_prims arg
  end.

Fixpoint cat_directions (c : Category) : list Direction :=
  match c with
  | CCGVar _ => []
  | PrimitiveCategory _ _ => []
  | FunctionalCategory res arg d => cat_directions res ++ cat_directions arg ++ [d]
  end.

(** A non-empty run of letters. *)
Definition is_name (s : string) : Prop := s <> "" /\ all is_alpha s = true.

(** What the parser can write for a primitive: a declared name that is a
    run of letters, with subscripts that are runs of letters, possibly
    empty ones. *)
Definition written_prim (primitives : list string) (p : string * list string)
  : Prop :=
  In (fst p) primitives /\ is_name (fst p)
  /\ Forall (fun s => all is_alpha s = true) (snd p).

(** What the parser can write for a direction: a slash and the two
    optional modifiers, the second only after a first. *)
Definition is_modifier (m : string) : Prop := m = "" \/ m = "." \/ m = ",".

Definition written_direction (d : Direction) : Prop :=
  (dir d = "/" \/ dir d = "\")
  /\ exists m1 m2,
       restrs d = [m1; m2] /\ is_modifier m1 /\ is_modifier m2
       /\ (m1 = "" -> m2 = "").

(** A category as the parser can have built it with the counter between
    [lo] and [hi]: every variable in it is the variable [var] and was
    drawn in that range. *)
Definition parsed_cat (primitives : list string) (lo hi : nat)
    (var : option nat) (c : Category) : Prop :=
  Forall (fun v => var = Some v /\ lo <= v < hi) (cat_vars c)
  /\ Forall (written_prim primitives) (cat_prims c)
  /\ Forall written_direction (cat_directions c).

Definition var_in_range (lo hi : nat) (var : option nat) : Prop :=
  forall v, var = Some v -> lo <= v < hi.

Definition parsed_families (primitives : list string) (lo hi : nat)
    (families : gmap string (Category * option nat)) : Prop :=
  forall k cat cvar,
    families !! k = Some (cat, cvar) ->
    parsed_cat primitives lo hi cvar cat /\ var_in_range lo hi cvar.

Definition parsed_table (primitives : list string) (lo hi : nat)
    (entries : DefaultDict.t) : Prop :=
  Forall (fun e => snd e <> []
                   /\ Forall (fun c => exists var,
                                  parsed_cat primitives lo hi var c) (snd e))
         entries.

(** The elements of [l] that are not in [seen], each at its first
    occurrence. *)
Fixpoint new_keys (seen l : list string) : list string :=
  match l with
  | [] => []
  | x :: l' =>
      if existsb (String.eqb x) seen then new_keys seen l'
      else x :: new_keys (seen ++ [x]) l'
  end.

Definition first_occurrences (l : list string) : list string := new_keys [] l.

(** The invariant of the loop of [fromstring] on its two tables. *)
Definition parsed_locals (lo hi : nat) (st : locals) : Prop :=
  parsed_families (primitives st) lo hi (families st)
  /\ parsed_table (primitives st) lo hi (entries st)
  /\ NoDup (DefaultDict.keys (entries st)).

(** A small source with a family that carries a variable. *)
Definition conj_text : string :=
  text [":- S,NP,N"; "Conj :: var\.,var/.,var"; "Det :: NP[sg]/N[sg]";
        "and => Conj"; "the => Det"; "and => (S/NP)\(S/NP)"; "dog => N[sg]"].

(** One line of the debug rendering: the word, the arrow and the
    categories separated by bars. *)
Definition render_entry (str_cat : Category -> string)
    (e : string * list Category) : string :=
  fst e +:+ " => " +:+ String.concat " | " (map str_cat (snd e)).

Definition newline : string := String LF "".

(** A line the loop skips: nothing but blanks before the comment. *)
Definition is_blank (line : string) : bool := String.eqb (clean line) "".

Definition not_hash (c : ascii) : bool := negb (Ascii.eqb c "#").

Definition not_linebreak (c : ascii) : bool := negb (is_linebreak c).

(** The nesting depth after [s], read from depth [depth]; [None] when a
    [")"] closes a bracket that [s] did not open. *)
Fixpoint balance (depth : nat) (s : string) : option nat :=
  match s with
  | EmptyString => Some depth
  | String c s' =>
      if Ascii.eqb c ")" then
        match depth with
        | O => None
        | S d => balance d s'
        end
      else if Ascii.eqb c "(" then balance (S depth) s'
      else balance depth s'
  end.

Definition balanced (s : string) : Prop := balance 0 s = Some 0.

Definition is_arrow_char (c : ascii) : bool :=
  Ascii.eqb c "-" || Ascii.eqb c "=".

(** The texts the separator group of LEX_RE can hold. *)
Definition is_separator (sep : string) : Prop :=
  sep = "::"
  \/ exists run, run <> "" /\ all is_arrow_char run = true
                 /\ sep = run +:+ ">".

Definition not_comma (c : ascii) : bool := negb (Ascii.eqb c ",").

(** A character with which no category text can begin. *)
Definition no_term_start (s : string) : Prop :=
  match s with
  | EmptyString => True
  | String c _ => is_alpha c = false /\ c <> "("%char
  end.

(** A character that can follow neither a primitive token nor a term. *)
Definition no_continuation (c : ascii) : Prop :=
  is_alpha c = false /\ c <> "["%char /\ c <> "/"%char /\ c <> "\"%char
  /\ c <> LF.

(** ** Writing a category down

    A notation for categories in the syntax that the parser reads: slashes
    associate to the left, so only an argument that is itself a function
    is put in brackets. *)

Definition written_subscripts (subs : list string) : string :=
  match subs with
  | [] => ""
  | _ :: _ => "[" +:+ String.concat "," subs +:+ "]"
  end.

Fixpoint unparse (c : Category) : string :=
  match c with
  | CCGVar _ => "var"
  | PrimitiveCategory name subs => name +:+ written_subscripts subs
  | FunctionalCategory res arg d =>
      unparse res +:+ dir d +:+ String.concat "" (restrs d) +:+
      match arg with
      | FunctionalCategory _ _ _ => "(" +:+ unparse arg +:+ ")"
      | _ => unparse arg
      end
  end.

(** A category as the argument of a slash. *)
Definition term_text (c : Category) : string :=
  match c with
  | FunctionalCategory _ _ _ => "(" +:+ unparse c +:+ ")"
  | _ => unparse c
  end.

(** The categories that the notation can express while [var] is the
    bound variable: their primitives are declared names of letters that
    no family shadows, a primitive named [var] has subscripts, a list of
    subscripts is not the single empty one, and every variable is the
    bound one. *)
Fixpoint expressible (primitives : list string)
    (families : gmap string (Category * option nat))
    (var : option nat) (c : Category) : Prop :=
  match c with
  | CCGVar v => var = Some v
  | PrimitiveCategory name subs =>
      written_prim primitives (name, subs)
      /\ families !! name = None
      /\ (name = "var" -> subs <> [])
      /\ subs <> [""]
  | FunctionalCategory res arg d =>
      expressible primitives families var res
      /\ expressible primitives families var arg
      /\ written_direction d
  end.

(** What may follow a term: nothing, or a slash and further text on the
    same line. *)
Definition continuation (Y : string) : Prop :=
  all is_dot Y = true
  /\ match Y with
     | EmptyString => True
     | String c _ => c = "/"%char \/ c = "\"%char
     end.

Definition no_paren (c : ascii) : bool :=
  negb (Ascii.eqb c "(") && negb (Ascii.eqb c ")").

(** The characters of the notation outside brackets. *)
Definition plain (c : ascii) : bool := is_dot c && no_paren c.

(** The identifiers of the family-definition lines, in source order. *)
Fixpoint family_idents (lines : list string) : list string :=
  match lines with
  | [] => []
  | l :: ls =>
      match classify l with
      | Entry ident sep _ =>
          if String.eqb sep "::" then ident :: family_idents ls
          else family_idents ls
      | _ => family_idents ls
      end
  end.

(** The debug rendering of a table, read with the flag [first]: the line
    of an entry is preceded by a newline unless the flag is set, and the
    flag is set again by an entry without categories. *)
Fixpoint render_from (str_cat : Category -> string) (first : bool)
    (es : list (string * list Category)) : string :=
  match es with
  | [] => ""
  | e :: es' =>
      (if first then "" else newline) +:+ render_entry str_cat e
      +:+ render_from str_cat
            (match snd e with [] => true | _ :: _ => false end) es'
  end.

(** * Properties *)

(** ** Strings *)

Section StringFacts.

Lemma append_cons (c : ascii) (s t : string) :
  String c s +:+ t = String c (s +:+ t).
Proof. reflexivity. Qed.

Lemma append_nil_l (s : string) : "" +:+ s = s.
Proof. reflexivity. Qed.

Lemma append_nil_r (s : string) : s +:+ "" = s.
Proof.
  induction s as [|c s IH]; [reflexivity|].
  now rewrite append_cons, IH.
Qed.

Lemma append_assoc (a b c : string) : (a +:+ b) +:+ c = a +:+ (b +:+ c).
Proof.
  induction a as [|x a IH]; [reflexivity|].
  now rewrite !append_cons, IH.
Qed.

Lemma length_append (a b : string) :
  String.length (a +:+ b) = String.length a + String.length b.
Proof.
  induction a as [|x a IH]; [reflexivity|].
  rewrite append_cons; simpl. now rewrite IH.
Qed.

Lemma take_drop (n : nat) (s : string) : take n s +:+ drop n s = s.
Proof.
  revert s; induction n as [|n IH]; intros [|c s]; simpl; try reflexivity.
  now rewrite append_cons, IH.
Qed.

Lemma take_add (a b : nat) (s : string) :
  take (a + b) s = take a s +:+ take b (drop a s).
Proof.
  revert s; induction a as [|a IH]; intros s; simpl; [reflexivity|].
  destruct s as [|c s]; simpl; [now destruct b |].
  now rewrite append_cons, IH.
Qed.

Lemma drop_add (a b : nat) (s : string) : drop (a + b) s = drop b (drop a s).
Proof.
  revert s; induction a as [|a IH]; intros s; simpl; [reflexivity|].
  destruct s as [|c s]; simpl; [now destruct b | apply IH].
Qed.

Lemma length_drop_le (n : nat) (s : string) :
  String.length (drop n s) <= String.length s.
Proof.
  revert s; induction n as [|n IH]; intros [|c s]; simpl; try lia.
  specialize (IH s); lia.
Qed.

Lemma span_append (p : ascii -> bool) (s : string) :
  fst (span p s) +:+ snd (span p s) = s.
Proof.
  induction s as [|c s IH]; simpl; [reflexivity|].
  destruct (p c); [|reflexivity].
  destruct (span p s) as [a b]; simpl in *.
  now rewrite append_cons, IH.
Qed.

Lemma span_length (p : ascii -> bool) (s : string) :
  String.length (fst (span p s)) + String.length (snd (span p s))
  = String.length s.
Proof. rewrite <- length_append, span_append. reflexivity. Qed.

Lemma startswith_char (c : ascii) (s : string) :
  startswith s (String c "") = true <-> exists s', s = String c s'.
Proof.
  unfold startswith. destruct s as [|x s]; simpl.
  - split; [discriminate | intros [? ?]; discriminate].
  - destruct (ascii_dec c x) as [->|Hne].
    + split; [eauto | intros _; now destruct s].
    + split; [discriminate | intros [s' [= -> ->]]; contradiction].
Qed.

End StringFacts.

(** ** The bracket matcher *)

Section Brackets.

Lemma closing_split (d1 d2 : nat) (s : string) :
  closing (d1 + S d2) s =
  match closing d1 s with
  | Some j => (fun i => j + 1 + i) <$> closing d2 (drop (j + 1) s)
  | None => None
  end.
Proof.
  revert d1; induction s as [|c s IH]; intros d1; [reflexivity|].
  simpl closing.
  destruct (Ascii.eqb c ")") eqn:Hc.
  - destruct d1 as [|d1]; simpl.
    + destruct (closing d2 s); reflexivity.
    + rewrite IH. destruct (closing d1 s) as [j|]; simpl; [|reflexivity].
      destruct (closing d2 (drop (j + 1) s)); reflexivity.
  - destruct (Ascii.eqb c "(").
    + change (S (d1 + S d2)) with (S d1 + S d2). rewrite IH.
      destruct (closing (S d1) s) as [j|]; simpl; [|reflexivity].
      destruct (closing d2 (drop (j + 1) s)); reflexivity.
    + rewrite IH. destruct (closing d1 s) as [j|]; simpl; [|reflexivity].
      destruct (closing d2 (drop (j + 1) s)); reflexivity.
Qed.

Lemma startswith_cons (c x : ascii) (s : string) :
  startswith (String c s) (String x "") = Ascii.eqb c x.
Proof.
  unfold startswith; simpl.
  destruct (ascii_dec x c) as [->|Hne].
  - rewrite Ascii.eqb_refl. now destruct s.
  - symmetry. apply Ascii.eqb_neq. congruence.
Qed.

Lemma matchBrackets_while_spec (f : nat) :
  forall str inside rest,
  2 * String.length rest + 1 <= f ->
  match closing 0 rest with
  | Some i =>
      matchBrackets_while f str inside rest
      = Return (inside +:+ take (i + 1) rest, drop (i + 1) rest)
  | None =>
      exists str', matchBrackets_while f str inside rest
                   = Raise (unmatched_bracket str')
  end.
Proof.
  induction f as [f IH] using lt_wf_ind. intros str inside rest Hf.
  destruct f as [|f]; [lia|].
  destruct rest as [|c r].
  { simpl. eauto. }
  cbn [matchBrackets_while closing].
  rewrite !startswith_cons. cbn [String.eqb negb andb].
  destruct (Ascii.eqb c ")") eqn:Hclose; cbn [negb andb].
  { apply Ascii.eqb_eq in Hclose as ->. simpl. reflexivity. }
  destruct (Ascii.eqb c "(") eqn:Hopen.
  - apply Ascii.eqb_eq in Hopen as ->.
    cbn [String.length] in Hf.
    destruct f as [|f']; [lia|]. cbn [matchBrackets_fuel tail].
    change 1 with (0 + 1) at 1. rewrite closing_split.
    assert (H1 := IH f' ltac:(lia) (String "(" r) "(" r ltac:(lia)).
    destruct (closing 0 r) as [j|] eqn:Hj.
    + rewrite H1.
      assert (H2 := IH (S f') ltac:(lia) str
                      (inside +:+ "(" +:+ take (j + 1) r) (drop (j + 1) r)).
      pose proof (length_drop_le (j + 1) r).
      specialize (H2 ltac:(lia)).
      destruct (closing 0 (drop (j + 1) r)) as [k|] eqn:Hk;
        cbn [fmap option_fmap option_map].
      * rewrite H2. f_equal. f_equal.
        -- replace (S (j + 1 + k) + 1) with (S ((j + 1) + (k + 1))) by lia.
           cbn [take]. rewrite (take_add (j + 1) (k + 1)), !append_assoc.
           reflexivity.
        -- replace (S (j + 1 + k) + 1) with (S ((j + 1) + (k + 1))) by lia.
           cbn [drop]. symmetry; apply drop_add.
      * exact H2.
    + cbn [fmap option_fmap option_map]. destruct H1 as [str' ->]. eauto.
  - cbn [String.length] in Hf.
    assert (H1 := IH f ltac:(lia) str (inside +:+ head (String c r)) r
                    ltac:(lia)).
    cbn [tail].
    destruct (closing 0 r) as [j|]; cbn [fmap option_fmap option_map].
    + rewrite H1. cbn [take drop head Nat.add].
      rewrite append_assoc. reflexivity.
    + exact H1.
Qed.

Lemma closing_get (d : nat) (s : string) (i : nat) :
  closing d s = Some i -> String.get i s = Some ")"%char.
Proof.
  revert d i; induction s as [|c s IH]; intros d i; simpl; [discriminate|].
  destruct (Ascii.eqb c ")") eqn:Hc.
  - apply Ascii.eqb_eq in Hc as ->.
    destruct d; [now intros [= <-]|].
    destruct (closing d s) eqn:E; [|discriminate]. intros [= <-]. eauto.
  - destruct (Ascii.eqb c "(").
    + destruct (closing (S d) s) eqn:E; [|discriminate]. intros [= <-]. eauto.
    + destruct (closing d s) eqn:E; [|discriminate]. intros [= <-]. eauto.
Qed.

Lemma matchBrackets_unfold (s : string) :
  matchBrackets s
  = matchBrackets_while (2 * String.length s + 1) s "(" (tail s).
Proof.
  unfold matchBrackets.
  replace (2 * String.length s + 2) with (S (2 * String.length s + 1)) by lia.
  reflexivity.
Qed.

Lemma length_tail_le (s : string) : String.length (tail s) <= String.length s.
Proof. destruct s; simpl; lia. Qed.

Lemma matchBrackets_total (s : string) : matchBrackets s <> OutOfFuel.
Proof.
  rewrite matchBrackets_unfold.
  pose proof (length_tail_le s) as Hlen.
  pose proof (matchBrackets_while_spec (2 * String.length s + 1) s "(" (tail s)
                ltac:(lia)) as H.
  destruct (closing 0 (tail s)); [now rewrite H | now destruct H as [? ->]].
Qed.

(** What [matchBrackets] returns is shorter than its argument. *)
Lemma matchBrackets_length (s inside rest : string) :
  matchBrackets s = Return (inside, rest) ->
  1 <= String.length inside
  /\ String.length inside + String.length rest <= String.length s.
Proof.
  rewrite matchBrackets_unfold.
  pose proof (length_tail_le s) as Hlen.
  pose proof (matchBrackets_while_spec (2 * String.length s + 1) s "(" (tail s)
                ltac:(lia)) as H.
  destruct (closing 0 (tail s)) as [i|] eqn:Hi;
    [|destruct H as [str' ->]; discriminate].
  rewrite H. intros [= <- <-].
  pose proof (take_drop (i + 1) (tail s)) as Hcat.
  apply (f_equal String.length) in Hcat.
  rewrite !length_append in *. cbn [String.length].
  destruct s as [|c r]; [discriminate|]. cbn [tail String.length] in *. lia.
Qed.

(** C6.  For a string that starts with "(", [matchBrackets] returns the
    text from that bracket through the ")" that matches it by nesting
    depth, and the text after it, so that the two parts concatenate to
    the input; the index found by [closing] holds a ")".  If no ")"
    matches before the string ends, it raises the unmatched-bracket
    [AssertionError]. *)
Theorem matchBrackets_by_depth (s : string) :
  startswith s "(" = true ->
  match closing 0 (tail s) with
  | Some i =>
      matchBrackets s = Return (take (i + 2) s, drop (i + 2) s)
      /\ take (i + 2) s +:+ drop (i + 2) s = s
      /\ String.get (i + 1) s = Some ")"%char
  | None => exists str', matchBrackets s = Raise (unmatched_bracket str')
  end.
Proof.
  intros Hs. apply startswith_char in Hs as [r ->].
  rewrite matchBrackets_unfold. cbn [tail].
  pose proof (matchBrackets_while_spec
                (2 * String.length (String "(" r) + 1) (String "(" r) "(" r)
    as H.
  cbn [String.length] in H. specialize (H ltac:(lia)).
  destruct (closing 0 r) as [i|] eqn:Hi; [|exact H].
  cbn [String.length]. rewrite H.
  replace (i + 2) with (S (i + 1)) by lia.
  change (take (S (i + 1)) (String "(" r)) with ("(" +:+ take (i + 1) r).
  change (drop (S (i + 1)) (String "(" r)) with (drop (i + 1) r).
  split; [reflexivity|]. split.
  - rewrite append_assoc, take_drop. reflexivity.
  - replace (i + 1) with (S i) by lia. simpl. eauto using closing_get.
Qed.

Lemma matchBrackets_by_depth_witness :
  matchBrackets "(a(b)c)d" = Return ("(a(b)c)", "d")
  /\ "(a(b)c)" +:+ "d" = "(a(b)c)d"
  /\ String.get 6 "(a(b)c)d" = Some ")"%char.
Proof. exact (matchBrackets_by_depth "(a(b)c)d" eq_refl). Defined.

Example matchBrackets_unmatched :
  matchBrackets "(a(b" = Raise (unmatched_bracket "(b").
Proof. reflexivity. Qed.

End Brackets.

(** ** Resolving names: [var], families, primitives *)

Section Resolution.

Context (prims : list string) (fams : gmap string (Category * option nat)).

Lemma existsb_eqb_In (x : string) :
  existsb (String.eqb x) prims = true <-> In x prims.
Proof.
  rewrite existsb_exists. split.
  - intros (y & Hy & Heq). apply String.eqb_eq in Heq. now subst.
  - intros H. exists x. split; [exact H | apply String.eqb_refl].
Qed.

Lemma parsePrimitiveCategory_bare_var var n :
  parsePrimitiveCategory ("var", None) prims fams var n =
  match var with
  | None => Return ((CCGVar n, Some n), S n)
  | Some v => Return ((CCGVar v, Some v), n)
  end.
Proof. destruct var; reflexivity. Qed.

Lemma parsePrimitiveCategory_resolve catstr subscr var :
  catstr <> "var" \/ subscr <> None ->
  parsePrimitiveCategory (catstr, subscr) prims fams var
  = resolve catstr subscr prims fams var.
Proof.
  intros H. unfold parsePrimitiveCategory, resolve. cbn [fst snd].
  destruct (String.eqb_spec catstr "var") as [->|Hne]; [|reflexivity].
  destruct subscr; [reflexivity|]. destruct H; congruence.
Qed.

Lemma parsePrimitiveCategory_primitive catstr subscr var n :
  catstr <> "var" \/ subscr <> None ->
  fams !! catstr = None -> In catstr prims ->
  parsePrimitiveCategory (catstr, subscr) prims fams var n
  = Return ((PrimitiveCategory catstr (parseSubscripts subscr), var), n).
Proof.
  intros H Hf Hp. rewrite parsePrimitiveCategory_resolve by exact H.
  unfold resolve. rewrite Hf.
  apply existsb_eqb_In in Hp. rewrite Hp. reflexivity.
Qed.


Lemma parsePrimitiveCategory_unknown catstr subscr var n :
  catstr <> "var" \/ subscr <> None ->
  fams !! catstr = None -> ~ In catstr prims ->
  parsePrimitiveCategory (catstr, subscr) prims fams var n
  = Raise (neither_family_nor_primitive catstr).
Proof.
  intros H Hf Hp. rewrite parsePrimitiveCategory_resolve by exact H.
  unfold resolve. rewrite Hf.
  destruct (existsb (String.eqb catstr) prims) eqn:E; [|reflexivity].
  apply existsb_eqb_In in E. contradiction.
Qed.

(** A line that is a single primitive token is handed to
    [parsePrimitiveCategory] as it is. *)
Lemma augParseCategory_atom line chunks var n :
  NEXTPRIM_RE_match line = Some (line, "") ->
  PRIM_RE_match line = Some chunks ->
  startswith line "(" = false ->
  augParseCategory line prims fams var n
  = parsePrimitiveCategory chunks prims fams var n.
Proof.
  intros Hnext Hprim Hstart. unfold augParseCategory.
  destruct line as [|c line]; [discriminate|].
  cbn [String.length augParseCategory_fuel].
  unfold nextCategory. rewrite Hstart, Hnext.
  unfold bind at 1, lift. unfold parseTerm. rewrite Hstart, Hprim.
  unfold bind, groups, ret.
  destruct (parsePrimitiveCategory chunks prims fams var n)
    as [[[res var'] n']|e|]; reflexivity.
Qed.

(** C10.  Only a [var] without subscript bracket is the unification
    variable.  A bare [var] yields the bound variable, and a fresh one
    that becomes the binding when none is bound, whatever the family
    table and the primitives contain.  A [var] with a bracket goes
    through the family and primitive lookup like any other name, and so
    raises the neither-family-nor-primitive error when [var] is in
    neither table.  The same holds for the category texts [var] and
    [var[sg]] handed to the parser. *)
Theorem var_only_without_subscript (var : option nat) (n : nat) :
  parsePrimitiveCategory ("var", None) prims fams var n
  = match var with
    | None => Return ((CCGVar n, Some n), S n)
    | Some v => Return ((CCGVar v, Some v), n)
    end
  /\ augParseCategory "var" prims fams var n
     = parsePrimitiveCategory ("var", None) prims fams var n
  /\ (forall subscr,
        parsePrimitiveCategory ("var", Some subscr) prims fams var n
        = resolve "var" (Some subscr) prims fams var n)
  /\ augParseCategory "var[sg]" prims fams var n
     = parsePrimitiveCategory ("var", Some "[sg]") prims fams var n
  /\ (fams !! "var" = None -> ~ In "var" prims ->
      (forall subscr,
          parsePrimitiveCategory ("var", Some subscr) prims fams var n
          = Raise (neither_family_nor_primitive "var"))
      /\ augParseCategory "var[sg]" prims fams var n
         = Raise (neither_family_nor_primitive "var")).
Proof.
  assert (Hsg : augParseCategory "var[sg]" prims fams var n
                = parsePrimitiveCategory ("var", Some "[sg]") prims fams var n)
    by (now apply augParseCategory_atom).
  split; [apply parsePrimitiveCategory_bare_var|].
  split; [now apply augParseCategory_atom|].
  split.
  { intros subscr. rewrite parsePrimitiveCategory_resolve; [reflexivity|].
    right; discriminate. }
  split; [exact Hsg|].
  intros Hf Hp.
  assert (forall subscr,
             parsePrimitiveCategory ("var", Some subscr) prims fams var n
             = Raise (neither_family_nor_primitive "var")) as H.
  { intros subscr.
    apply parsePrimitiveCategory_unknown;
      [right; discriminate | exact Hf | exact Hp]. }
  split; [exact H|]. rewrite Hsg. apply H.
Qed.

End Resolution.

Lemma var_only_without_subscript_witness :
  augParseCategory "var[sg]" ["S"; "NP"] ∅ None 0
  = Raise (neither_family_nor_primitive "var")
  /\ augParseCategory "var" ["S"; "var"] ∅ None 0
     = Return ((CCGVar 0, Some 0), 1).
Proof.
  destruct (var_only_without_subscript ["S"; "NP"] ∅ None 0)
    as (_ & _ & _ & _ & Hraise).
  destruct (var_only_without_subscript ["S"; "var"] ∅ None 0)
    as (Hbare & Hparse & _).
  split.
  - apply Hraise; [apply lookup_empty|].
    simpl. intros [H|[H|[]]]; discriminate.
  - rewrite Hparse. exact Hbare.
Defined.

(** ** The tokenizer and the category parser *)

Section Parser.

Lemma length_init_le (s : string) : String.length (init s) <= String.length s.
Proof.
  induction s as [|c s IH]; simpl; [lia|].
  destruct s; simpl in *; lia.
Qed.

Lemma length_slice_le (s : string) :
  String.length (slice_1_m1 s) <= String.length s.
Proof.
  unfold slice_1_m1. pose proof (length_init_le (tail s)).
  pose proof (length_tail_le s). lia.
Qed.

Lemma opt_subscript_append (s : string) :
  default "" (fst (opt_subscript s)) +:+ snd (opt_subscript s) = s.
Proof.
  destruct s as [|c s]; [reflexivity|]. unfold opt_subscript.
  destruct (Ascii.eqb c "[") eqn:Hc; [|reflexivity].
  apply Ascii.eqb_eq in Hc as ->.
  pose proof (span_append is_subscr s) as Hs.
  destruct (span is_subscr s) as [body after]; simpl in Hs.
  destruct body as [|b body]; [reflexivity|].
  destruct after as [|c' rest]; [reflexivity|].
  destruct (Ascii.eqb c' "]") eqn:Hc'; [|reflexivity].
  apply Ascii.eqb_eq in Hc' as ->. simpl.
  rewrite <- Hs, !append_assoc. reflexivity.
Qed.

Lemma NEXTPRIM_RE_match_length (s g1 g2 : string) :
  NEXTPRIM_RE_match s = Some (g1, g2) ->
  1 <= String.length g1 /\ String.length g1 + String.length g2 <= String.length s.
Proof.
  unfold NEXTPRIM_RE_match.
  pose proof (span_length is_alpha s) as Hs.
  destruct (span is_alpha s) as [name rest]; simpl in Hs.
  destruct name as [|a name]; [discriminate|].
  pose proof (opt_subscript_append rest) as Ho.
  destruct (opt_subscript rest) as [sub rest']; simpl in Ho.
  intros [= <- <-].
  pose proof (span_length is_dot rest') as Hd.
  apply (f_equal String.length) in Ho.
  rewrite !length_append in *. simpl in *. lia.
Qed.

Lemma nextCategory_length (s cs rest : string) :
  nextCategory s = Return (cs, rest) ->
  1 <= String.length cs /\ String.length cs + String.length rest <= String.length s.
Proof.
  unfold nextCategory. destruct (startswith s "(").
  - apply matchBrackets_length.
  - destruct (NEXTPRIM_RE_match s) as [[g1 g2]|] eqn:E; [|discriminate].
    intros [= <- <-]. eauto using NEXTPRIM_RE_match_length.
Qed.

Lemma nextCategory_total (s : string) : nextCategory s <> OutOfFuel.
Proof.
  unfold nextCategory. destruct (startswith s "(").
  - apply matchBrackets_total.
  - destruct (NEXTPRIM_RE_match s); discriminate.
Qed.

Lemma opt_modifier_length (s : string) :
  String.length (snd (opt_modifier s)) <= String.length s.
Proof.
  destruct s as [|c s]; simpl; [lia|].
  destruct (_ || _); simpl; lia.
Qed.

Lemma APP_RE_match_length (s a b c rest : string) :
  APP_RE_match s = Some (a, b, c, rest) -> String.length rest < String.length s.
Proof.
  destruct s as [|x s]; [discriminate|]. unfold APP_RE_match.
  destruct (_ || _); [|discriminate].
  pose proof (opt_modifier_length s) as H1.
  destruct (opt_modifier s) as [m1 s1]; simpl in H1.
  pose proof (opt_modifier_length s1) as H2.
  destruct (opt_modifier s1) as [m2 s2]; simpl in H2.
  intros [= <- <- <- <-].
  pose proof (span_length is_dot s2). simpl. lia.
Qed.

Lemma resolve_total catstr subscr prims fams var n :
  resolve catstr subscr prims fams var n <> OutOfFuel.
Proof.
  unfold resolve. destruct (fams !! catstr) as [[cat cvar]|].
  - destruct var; discriminate.
  - destruct (existsb _ prims); discriminate.
Qed.

Lemma parsePrimitiveCategory_total chunks prims fams var n :
  parsePrimitiveCategory chunks prims fams var n <> OutOfFuel.
Proof.
  destruct chunks as [catstr subscr].
  destruct (String.eqb_spec catstr "var") as [->|Hne].
  - destruct subscr as [sub|].
    + rewrite parsePrimitiveCategory_resolve by (right; discriminate).
      apply resolve_total.
    + rewrite parsePrimitiveCategory_bare_var. destruct var; discriminate.
  - rewrite parsePrimitiveCategory_resolve by (left; exact Hne).
    apply resolve_total.
Qed.

(** With more fuel than the line is long, the parser never runs out. *)
Lemma augParseCategory_fuel_total (f : nat) :
  (forall line prims fams var n,
      String.length line < f ->
      augParseCategory_fuel f line prims fams var n <> OutOfFuel)
  /\ (forall prims fams res var rest n,
         String.length rest < f ->
         augParseCategory_while f prims fams res var rest n <> OutOfFuel).
Proof.
  induction f as [f IH] using lt_wf_ind.
  destruct f as [|f]; [split; intros; lia|].
  assert (Hterm : forall cs prims fams var n,
             String.length cs <= f -> 1 <= String.length cs ->
             parseTerm (fun s v => augParseCategory_fuel f s prims fams v)
               cs prims fams var n <> OutOfFuel).
  { intros cs prims fams var n Hcs Hne. unfold parseTerm.
    destruct (startswith cs "(").
    - apply IH; [lia|]. pose proof (length_slice_le cs).
      destruct cs; simpl in *; [lia|].
      unfold slice_1_m1; simpl. pose proof (length_init_le cs). lia.
    - unfold bind, groups. destruct (PRIM_RE_match cs); [|discriminate].
      simpl. apply parsePrimitiveCategory_total. }
  split.
  - intros line prims fams var n Hlen. cbn [augParseCategory_fuel].
    unfold bind at 1, lift.
    pose proof (nextCategory_total line) as Ht.
    destruct (nextCategory line) as [[cs rest]|e|] eqn:Hnext;
      [|discriminate|congruence].
    apply nextCategory_length in Hnext as [Hcs Hsum].
    unfold bind.
    specialize (Hterm cs prims fams var n ltac:(lia) Hcs).
    destruct (parseTerm _ cs prims fams var n) as [[[res var'] n']|e|];
      [|discriminate|congruence].
    apply IH; lia.
  - intros prims fams res var rest n Hlen. cbn [augParseCategory_while].
    destruct (negb (String.eqb rest "")); [|discriminate].
    unfold bind at 1, groups.
    destruct (APP_RE_match rest) as [[[[slash m1] m2] rest1]|] eqn:Happ;
      [|discriminate].
    apply APP_RE_match_length in Happ. cbn [ret].
    unfold bind at 1, lift.
    pose proof (nextCategory_total rest1) as Ht.
    destruct (nextCategory rest1) as [[cs rest2]|e|] eqn:Hnext;
      [|discriminate|congruence].
    apply nextCategory_length in Hnext as [Hcs Hsum].
    unfold bind.
    specialize (Hterm cs prims fams var n ltac:(lia) Hcs).
    destruct (parseTerm _ cs prims fams var n) as [[[arg var'] n']|e|];
      [|discriminate|congruence].
    apply IH; lia.
Qed.

Lemma augParseCategory_total line prims fams var n :
  augParseCategory line prims fams var n <> OutOfFuel.
Proof. apply augParseCategory_fuel_total. lia. Qed.

End Parser.

(** ** Fuel is immaterial *)

Section Fuel.

(** More fuel never changes a result. *)
Lemma matchBrackets_fuel_mono (f : nat) :
  (forall str f',
      f <= f' -> matchBrackets_fuel f str <> OutOfFuel ->
      matchBrackets_fuel f' str = matchBrackets_fuel f str)
  /\ (forall str inside rest f',
         f <= f' -> matchBrackets_while f str inside rest <> OutOfFuel ->
         matchBrackets_while f' str inside rest
         = matchBrackets_while f str inside rest).
Proof.
  induction f as [|g [IHb IHw]]; [split; intros; simpl in *; congruence|].
  split.
  - intros str [|g'] Hle Hne; [lia|]. cbn [matchBrackets_fuel] in *.
    apply IHw; [lia | exact Hne].
  - intros str inside rest [|g'] Hle Hne; [lia|].
    cbn [matchBrackets_while] in *.
    destruct (negb (String.eqb rest "") && negb (startswith rest ")"));
      [|reflexivity].
    destruct (startswith rest "(").
    + destruct (matchBrackets_fuel g rest) as [[part rest']|e|] eqn:Hb;
        [| |congruence].
      * rewrite (IHb rest g' ltac:(lia)), Hb by congruence.
        apply IHw; [lia | exact Hne].
      * rewrite (IHb rest g' ltac:(lia)), Hb by congruence. reflexivity.
    + apply IHw; [lia | exact Hne].
Qed.

Lemma matchBrackets_fuel_enough (f : nat) (s : string) :
  2 * String.length s + 2 <= f -> matchBrackets_fuel f s = matchBrackets s.
Proof.
  intros Hf. apply matchBrackets_fuel_mono; [exact Hf|].
  apply matchBrackets_total.
Qed.

Lemma parseTerm_ext recur recur' cs prims fams var n :
  (forall s v m, recur s v m <> OutOfFuel -> recur' s v m = recur s v m) ->
  parseTerm recur cs prims fams var n <> OutOfFuel ->
  parseTerm recur' cs prims fams var n = parseTerm recur cs prims fams var n.
Proof.
  intros Hrec. unfold parseTerm.
  destruct (startswith cs "("); [apply Hrec | reflexivity].
Qed.

Lemma bind_mono {A B} (m m' : M A) (k k' : A -> M B) (n : nat) :
  (m n <> OutOfFuel -> m' n = m n) ->
  (forall a n1, k a n1 <> OutOfFuel -> k' a n1 = k a n1) ->
  bind m k n <> OutOfFuel -> bind m' k' n = bind m k n.
Proof.
  intros Hm Hk. unfold bind.
  destruct (m n) as [[a n1]|e|] eqn:E; intros Hne.
  - rewrite Hm by discriminate. now apply Hk.
  - now rewrite Hm by discriminate.
  - congruence.
Qed.

Lemma augParseCategory_fuel_mono (f : nat) :
  (forall line prims fams var n f',
      f <= f' -> augParseCategory_fuel f line prims fams var n <> OutOfFuel ->
      augParseCategory_fuel f' line prims fams var n
      = augParseCategory_fuel f line prims fams var n)
  /\ (forall prims fams res var rest n f',
         f <= f' ->
         augParseCategory_while f prims fams res var rest n <> OutOfFuel ->
         augParseCategory_while f' prims fams res var rest n
         = augParseCategory_while f prims fams res var rest n).
Proof.
  induction f as [|g [IHp IHw]]; [split; intros; simpl in *; congruence|].
  assert (Hterm : forall g' cs prims fams var n,
             g <= g' ->
             parseTerm (fun s v => augParseCategory_fuel g s prims fams v)
               cs prims fams var n <> OutOfFuel ->
             parseTerm (fun s v => augParseCategory_fuel g' s prims fams v)
               cs prims fams var n
             = parseTerm (fun s v => augParseCategory_fuel g s prims fams v)
                 cs prims fams var n).
  { intros g' cs prims fams var n Hle. apply parseTerm_ext.
    intros s v m. now apply IHp. }
  split.
  - intros line prims fams var n [|g'] Hle; [lia|].
    cbn [augParseCategory_fuel].
    apply bind_mono; [reflexivity|]. intros [cs rest] n1.
    apply bind_mono; [apply Hterm; lia|]. intros [res var'] n2.
    apply IHw; lia.
  - intros prims fams res var rest n [|g'] Hle; [lia|].
    cbn [augParseCategory_while].
    destruct (negb (String.eqb rest "")); [|reflexivity].
    apply bind_mono; [reflexivity|]. intros [[[slash m1] m2] rest1] n0.
    apply bind_mono; [reflexivity|]. intros [cs rest2] n1.
    apply bind_mono; [apply Hterm; lia|]. intros [arg var'] n2.
    apply IHw; lia.
Qed.

(** The recursive calls of the embedding may be read as calls of
    [augParseCategory] itself. *)
Lemma augParseCategory_fuel_enough f line prims fams var n :
  String.length line < f ->
  augParseCategory_fuel f line prims fams var n
  = augParseCategory line prims fams var n.
Proof.
  intros Hf. apply augParseCategory_fuel_mono; [lia|].
  apply augParseCategory_total.
Qed.

End Fuel.

(** ** Primitive tokens with and without subscripts *)

Section Tokens.

Lemma span_all (p : ascii -> bool) (a b : string) :
  all p a = true ->
  match b with String c _ => p c = false | EmptyString => True end ->
  span p (a +:+ b) = (a, b).
Proof.
  intros Ha Hb. induction a as [|c a IH].
  - rewrite append_nil_l. destruct b as [|c b]; [reflexivity|].
    simpl. now rewrite Hb.
  - simpl in Ha. apply andb_prop in Ha as [Hc Ha].
    rewrite append_cons. simpl. rewrite Hc, (IH Ha). reflexivity.
Qed.

Lemma init_append_char (s : string) (c : ascii) :
  init (s +:+ String c "") = s.
Proof.
  induction s as [|x s IH]; [reflexivity|].
  rewrite append_cons. cbn [init]. rewrite IH.
  destruct s; reflexivity.
Qed.

Lemma slice_bracket (body : string) :
  slice_1_m1 ("[" +:+ body +:+ "]") = body.
Proof. unfold slice_1_m1. cbn [append tail]. apply init_append_char. Qed.

Lemma parseSubscripts_bracket (body : string) :
  parseSubscripts (Some ("[" +:+ body +:+ "]")) = split "," body.
Proof. unfold parseSubscripts. rewrite slice_bracket. reflexivity. Qed.

Lemma concat_split (sep : ascii) (s : string) :
  String.concat (String sep "") (split sep s) = s.
Proof.
  induction s as [|c s IH]; [reflexivity|]. simpl split.
  destruct (Ascii.eqb_spec c sep) as [->|Hne].
  - destruct (split sep s) as [|h t] eqn:E; simpl in *.
    + destruct s; simpl in E; [discriminate|].
      destruct (Ascii.eqb a sep); [discriminate|].
      destruct (split sep s); discriminate.
    + now rewrite IH.
  - destruct (split sep s) as [|h t] eqn:E; simpl in *.
    + now subst.
    + destruct t; simpl in *; now subst.
Qed.

Lemma opt_subscript_bracket (body : string) :
  body <> "" -> all is_subscr body = true ->
  opt_subscript ("[" +:+ body +:+ "]") = (Some ("[" +:+ body +:+ "]"), "").
Proof.
  intros Hne Hall.
  change ("[" +:+ body +:+ "]") with (String "[" (body +:+ "]")).
  unfold opt_subscript. rewrite Ascii.eqb_refl.
  rewrite (span_all is_subscr body "]" Hall eq_refl).
  destruct body; [contradiction|]. reflexivity.
Qed.

Lemma alpha_not_open (c : ascii) (s : string) :
  is_alpha c = true -> startswith (String c s) "(" = false.
Proof.
  intros Hc. rewrite startswith_cons.
  destruct (Ascii.eqb_spec c "(") as [->|]; [discriminate | reflexivity].
Qed.

Lemma token_with_subscript name body :
  name <> "" -> all is_alpha name = true ->
  body <> "" -> all is_subscr body = true ->
  let line := name +:+ "[" +:+ body +:+ "]" in
  NEXTPRIM_RE_match line = Some (line, "")
  /\ PRIM_RE_match line = Some (name, Some ("[" +:+ body +:+ "]"))
  /\ startswith line "(" = false.
Proof.
  intros Hn Hna Hb Hba line. subst line.
  unfold NEXTPRIM_RE_match, PRIM_RE_match.
  rewrite (span_all is_alpha name ("[" +:+ body +:+ "]") Hna eq_refl).
  rewrite (opt_subscript_bracket body Hb Hba).
  destruct name as [|c name]; [contradiction|].
  cbn [fst default span]. split; [reflexivity|]. split; [reflexivity|].
  simpl in Hna. apply andb_prop in Hna as [Hc _].
  rewrite append_cons. now apply alpha_not_open.
Qed.

Lemma token_without_subscript name :
  name <> "" -> all is_alpha name = true ->
  NEXTPRIM_RE_match name = Some (name, "")
  /\ PRIM_RE_match name = Some (name, None)
  /\ startswith name "(" = false.
Proof.
  intros Hn Hna. unfold NEXTPRIM_RE_match, PRIM_RE_match.
  pose proof (span_all is_alpha name "" Hna I) as Hs.
  rewrite append_nil_r in Hs. rewrite Hs.
  destruct name as [|c name]; [contradiction|].
  cbn [opt_subscript fst default span]. rewrite append_nil_r.
  split; [reflexivity|]. split; [reflexivity|].
  simpl in Hna. apply andb_prop in Hna as [Hc _].
  now apply alpha_not_open.
Qed.

(** C8, as the code has it.  For a declared primitive whose name is a
    non-empty run of letters and is not also a family name, the text
    [name[body]], with [body] a non-empty run of letters and commas,
    parses to the primitive category [name] with the subscripts obtained
    by splitting [body] on commas; joining them with commas gives [body]
    back, so order and duplicates are as written.  Without a bracket, and
    for a name other than [var], the subscript list is empty. *)
Theorem subscripts_as_written name body prims fams var n :
  name <> "" -> all is_alpha name = true ->
  body <> "" -> all is_subscr body = true ->
  In name prims -> fams !! name = None ->
  augParseCategory (name +:+ "[" +:+ body +:+ "]") prims fams var n
  = Return ((PrimitiveCategory name (split "," body), var), n)
  /\ String.concat "," (split "," body) = body
  /\ parseSubscripts (Some ("[" +:+ body +:+ "]")) = split "," body
  /\ parseSubscripts None = []
  /\ (name <> "var" ->
      augParseCategory name prims fams var n
      = Return ((PrimitiveCategory name [], var), n)).
Proof.
  intros Hn Hna Hb Hba Hp Hf.
  destruct (token_with_subscript name body Hn Hna Hb Hba) as (H1 & H2 & H3).
  destruct (token_without_subscript name Hn Hna) as (H4 & H5 & H6).
  split.
  { rewrite (augParseCategory_atom _ _ _ _ _ _ H1 H2 H3).
    rewrite parsePrimitiveCategory_primitive;
      [ | right; discriminate | assumption | assumption].
    now rewrite parseSubscripts_bracket. }
  split; [apply concat_split|].
  split; [apply parseSubscripts_bracket|].
  split; [reflexivity|].
  intros Hvar. rewrite (augParseCategory_atom _ _ _ _ _ _ H4 H5 H6).
  rewrite parsePrimitiveCategory_primitive;
    [reflexivity | left; assumption | assumption | assumption].
Qed.

Lemma subscripts_as_written_witness :
  augParseCategory "N[sg,pl]" ["S"; "NP"; "N"] ∅ None 0
  = Return ((PrimitiveCategory "N" ["sg"; "pl"], None), 0).
Proof.
  assert (H1 : "N" <> "") by discriminate.
  assert (H3 : "sg,pl" <> "") by discriminate.
  assert (H5 : In "N" ["S"; "NP"; "N"]) by (simpl; tauto).
  exact (proj1 (subscripts_as_written "N" "sg,pl" ["S"; "NP"; "N"] ∅ None 0
                  H1 eq_refl H3 eq_refl H5 (lookup_empty "N"))).
Defined.

End Tokens.

(** C8 as stated fails: with a family named [N], the text [N[sg,pl]]
    is the family's category and the subscripts are dropped. *)
Lemma subscripts_shadowed :
  match fromstring (text [":- S,N"; "N :: S"; "w => N[sg,pl]"]) 0 with
  | Return (lex, _) =>
      In "N" (_primitives lex)
      /\ fst (categories lex "w") = [prim "S"]
      /\ fst (categories lex "w") <> [PrimitiveCategory "N" ["sg"; "pl"]]
  | _ => False
  end.
Proof. vm_compute. repeat split; try tauto. discriminate. Qed.

(** ** Left-associativity *)

Section LeftAssociativity.

Context (prims : list string) (fams : gmap string (Category * option nat)).
Hypothesis A_declared : In "A" prims.
Hypothesis B_declared : In "B" prims.
Hypothesis C_declared : In "C" prims.
Hypothesis A_no_family : fams !! "A" = None.
Hypothesis B_no_family : fams !! "B" = None.
Hypothesis C_no_family : fams !! "C" = None.

Lemma primitive_A var n :
  parsePrimitiveCategory ("A", None) prims fams var n = Return ((prim "A", var), n).
Proof.
  apply parsePrimitiveCategory_primitive;
    [left; discriminate | assumption | assumption].
Qed.

Lemma primitive_B var n :
  parsePrimitiveCategory ("B", None) prims fams var n = Return ((prim "B", var), n).
Proof.
  apply parsePrimitiveCategory_primitive;
    [left; discriminate | assumption | assumption].
Qed.

Lemma primitive_C var n :
  parsePrimitiveCategory ("C", None) prims fams var n = Return ((prim "C", var), n).
Proof.
  apply parsePrimitiveCategory_primitive;
    [left; discriminate | assumption | assumption].
Qed.

Ltac run_parser :=
  unfold augParseCategory; lazy -[parsePrimitiveCategory];
  repeat (first [rewrite primitive_A | rewrite primitive_B | rewrite primitive_C];
          lazy -[parsePrimitiveCategory]);
  reflexivity.

(** C1, as the code has it.  When [A], [B] and [C] are declared
    primitives and none of them is a family name, [A/B/C] parses to the
    functional category whose result is the category of [A/B] and whose
    argument is the primitive [C], and [A/(B/C)] to the one whose
    argument is the category of [B/C]. *)
Theorem slash_left_associative (var : option nat) (n : nat) :
  augParseCategory "A/B" prims fams var n
  = Return ((over (prim "A") (prim "B"), var), n)
  /\ augParseCategory "B/C" prims fams var n
     = Return ((over (prim "B") (prim "C"), var), n)
  /\ augParseCategory "A/B/C" prims fams var n
     = Return ((over (over (prim "A") (prim "B")) (prim "C"), var), n)
  /\ augParseCategory "A/(B/C)" prims fams var n
     = Return ((over (prim "A") (over (prim "B") (prim "C")), var), n)
  /\ parseCategory "A/B/C" prims fams n
     = Return (over (over (prim "A") (prim "B")) (prim "C"), n)
  /\ parseCategory "A/(B/C)" prims fams n
     = Return (over (prim "A") (over (prim "B") (prim "C")), n).
Proof.
  repeat split; try unfold parseCategory; run_parser.
Qed.

End LeftAssociativity.

Lemma slash_left_associative_witness :
  parseCategory "A/B/C" ["A"; "B"; "C"] ∅ 0
  = Return (over (over (prim "A") (prim "B")) (prim "C"), 0).
Proof.
  assert (HA : In "A" ["A"; "B"; "C"]) by (simpl; tauto).
  assert (HB : In "B" ["A"; "B"; "C"]) by (simpl; tauto).
  assert (HC : In "C" ["A"; "B"; "C"]) by (simpl; tauto).
  destruct (slash_left_associative ["A"; "B"; "C"] ∅ HA HB HC
              (lookup_empty "A") (lookup_empty "B") (lookup_empty "C") None 0)
    as (_ & _ & _ & _ & H & _).
  exact H.
Defined.

(** C1 as stated fails: a family named [C] takes precedence over the
    primitive [C], and the argument of [A/B/C] is then the family's
    category. *)
Lemma slash_left_associative_shadowed :
  match fromstring (text [":- A,B,C"; "C :: A"; "w => A/B/C"]) 0 with
  | Return (lex, _) =>
      In "A" (_primitives lex) /\ In "B" (_primitives lex)
      /\ In "C" (_primitives lex)
      /\ fst (categories lex "w")
         = [over (over (prim "A") (prim "B")) (prim "A")]
      /\ fst (categories lex "w")
         <> [over (over (prim "A") (prim "B")) (prim "C")]
  | _ => False
  end.
Proof. vm_compute. repeat split; try tauto. discriminate. Qed.

(** ** The builder *)

Section Builder.

Lemma fromstring_body_classify line st n :
  fromstring_body line st n =
  match classify line with
  | Blank => Return (st, n)
  | Declaration names =>
      Return (mkLocals (primitives st ++ names) (families st) (entries st), n)
  | Entry ident sep catstr =>
      match augParseCategory catstr (primitives st) (families st) None n with
      | Return ((cat, var), n') =>
          if String.eqb sep "::" then
            Return (mkLocals (primitives st)
                      (<[ident := (cat, var)]> (families st)) (entries st), n')
          else
            Return (mkLocals (primitives st) (families st)
                      (DefaultDict.append ident cat (entries st)), n')
      | Raise e => Raise e
      | OutOfFuel => OutOfFuel
      end
  | Malformed => Raise (AttributeError LEX_RE)
  end.
Proof.
  unfold fromstring_body, classify, COMMENTS_RE_match, groups.
  unfold bind at 1. cbn [ret]. fold (clean line).
  destruct (String.eqb (clean line) ""); [reflexivity|].
  destruct (startswith (clean line) ":-"); [reflexivity|].
  destruct (LEX_RE_match (clean line)) as [[[ident sep] catstr]|];
    [|reflexivity].
  unfold bind, ret.
  destruct (augParseCategory catstr (primitives st) (families st) None n)
    as [[[cat var] n']|e|]; [|reflexivity|reflexivity].
  destruct (String.eqb sep "::"); reflexivity.
Qed.

Lemma fromstring_body_total line st n : fromstring_body line st n <> OutOfFuel.
Proof.
  rewrite fromstring_body_classify.
  destruct (classify line) as [|names|ident sep catstr|]; try discriminate.
  pose proof (augParseCategory_total catstr (primitives st) (families st)
                None n) as H.
  destruct (augParseCategory catstr _ _ None n) as [[[cat var] n']|e|];
    [|discriminate|congruence].
  destruct (String.eqb sep "::"); discriminate.
Qed.

Lemma fromstring_for_cons line lines st n :
  fromstring_for (line :: lines) st n =
  match fromstring_body line st n with
  | Return (st', n') => fromstring_for lines st' n'
  | Raise e => Raise e
  | OutOfFuel => OutOfFuel
  end.
Proof. reflexivity. Qed.

Lemma fromstring_for_total lines st n : fromstring_for lines st n <> OutOfFuel.
Proof.
  revert st n; induction lines as [|l ls IH]; intros st n; [discriminate|].
  rewrite fromstring_for_cons.
  pose proof (fromstring_body_total l st n) as H.
  destruct (fromstring_body l st n) as [[st' n']|e|];
    [apply IH | discriminate | congruence].
Qed.

Lemma fromstring_for_app pre post st n :
  fromstring_for (pre ++ post) st n =
  match fromstring_for pre st n with
  | Return (st', n') => fromstring_for post st' n'
  | Raise e => Raise e
  | OutOfFuel => OutOfFuel
  end.
Proof.
  revert st n; induction pre as [|l ls IH]; intros st n; [reflexivity|].
  rewrite <- app_comm_cons, !fromstring_for_cons.
  destruct (fromstring_body l st n) as [[st' n']|e|]; auto.
Qed.

Lemma fromstring_unfold lex_str n :
  fromstring lex_str n =
  match fromstring_for (splitlines lex_str) init_locals n with
  | Return (st, n') =>
      match primitives st with
      | [] => Raise IndexError
      | p0 :: _ =>
          Return (CCGLexicon_init p0 (primitives st) (families st) (entries st),
                  n')
      end
  | Raise e => Raise e
  | OutOfFuel => OutOfFuel
  end.
Proof.
  unfold fromstring, bind, init_locals.
  destruct (fromstring_for (splitlines lex_str) _ n) as [[st n']|e|];
    [|reflexivity|reflexivity].
  destruct (primitives st); reflexivity.
Qed.

Lemma fromstring_total lex_str n : fromstring lex_str n <> OutOfFuel.
Proof.
  rewrite fromstring_unfold.
  pose proof (fromstring_for_total (splitlines lex_str) init_locals n) as H.
  destruct (fromstring_for _ _ n) as [[st n']|e|];
    [|discriminate|congruence].
  destruct (primitives st); discriminate.
Qed.




End Builder.

(** ** Primitive declarations and the start category *)

Section Declarations.

Lemma split_nonempty sep s : split sep s <> [].
Proof.
  destruct s as [|c s]; simpl; [discriminate|].
  destruct (Ascii.eqb c sep); [discriminate|].
  destruct (split sep s); discriminate.
Qed.

Lemma declaration_names line names :
  classify line = Declaration names ->
  names = map strip (split "," (strip (drop 2 (clean line))))
  /\ names <> [].
Proof.
  unfold classify.
  destruct (String.eqb (clean line) ""); [discriminate|].
  destruct (startswith (clean line) ":-").
  - intros [= <-]. split; [reflexivity|].
    pose proof (split_nonempty "," (strip (drop 2 (clean line)))) as H.
    destruct (split _ _); [contradiction | discriminate].
  - destruct (LEX_RE_match (clean line)) as [[[? ?] ?]|]; discriminate.
Qed.

Lemma declared_app pre post : declared (pre ++ post) = declared pre ++ declared post.
Proof.
  induction pre as [|l ls IH]; [reflexivity|]. simpl.
  destruct (classify l); rewrite IH; try reflexivity.
  now rewrite app_assoc.
Qed.

Lemma declared_none pre :
  Forall (fun l => is_declaration l = false) pre -> declared pre = [].
Proof.
  induction 1 as [|l ls Hl _ IH]; [reflexivity|]. simpl.
  unfold is_declaration in Hl. destruct (classify l); auto. discriminate.
Qed.

Lemma fromstring_for_primitives lines st n st' n' :
  fromstring_for lines st n = Return (st', n') ->
  primitives st' = primitives st ++ declared lines.
Proof.
  revert st n; induction lines as [|l ls IH]; intros st n.
  - intros [= <- <-]. now rewrite app_nil_r.
  - rewrite fromstring_for_cons, fromstring_body_classify. simpl declared.
    destruct (classify l) as [|names|ident sep catstr|].
    + apply IH.
    + intros H. apply IH in H. rewrite H. simpl. now rewrite app_assoc.
    + destruct (augParseCategory catstr _ _ None n) as [[[cat var] n1]|e|];
        try discriminate.
      destruct (String.eqb sep "::"); intros H; apply IH in H; exact H.
    + discriminate.
Qed.

(** C5.  In a lexicon that [fromstring] returns, the primitives are the
    names of the declaration lines in source order, each line giving its
    comma-separated, blank-trimmed names, and [start()] is the primitive
    category of the first name of the first declaration line. *)
Theorem start_is_first_declared lex_str n lex n' pre l post names :
  fromstring lex_str n = Return (lex, n') ->
  splitlines lex_str = pre ++ l :: post ->
  Forall (fun l' => is_declaration l' = false) pre ->
  classify l = Declaration names ->
  _primitives lex = declared (splitlines lex_str)
  /\ declared (splitlines lex_str) = names ++ declared post
  /\ names = map strip (split "," (strip (drop 2 (clean l))))
  /\ exists first others,
       names = first :: others
       /\ fst (start lex) = PrimitiveCategory first [].
Proof.
  intros Hbuild Hsplit Hpre Hl. rewrite fromstring_unfold in Hbuild.
  destruct (fromstring_for (splitlines lex_str) init_locals n)
    as [[st n1]|e|] eqn:Hfor; try discriminate.
  apply fromstring_for_primitives in Hfor. simpl in Hfor.
  assert (Hdecl : declared (splitlines lex_str) = names ++ declared post).
  { rewrite Hsplit, declared_app, (declared_none pre Hpre). simpl.
    now rewrite Hl. }
  destruct (declaration_names l names Hl) as [Hnames Hne].
  destruct names as [|first others]; [contradiction|].
  rewrite Hdecl in Hfor. rewrite Hfor in Hbuild. simpl in Hbuild.
  injection Hbuild as <- <-.
  cbn [_primitives start fst CCGLexicon_init _start].
  split; [now rewrite Hdecl|]. split; [exact Hdecl|].
  split; [exact Hnames|]. eauto.
Qed.

Lemma start_is_first_declared_witness :
  exists lex n',
    fromstring (text [":- S,NP,N"; ":- VP"]) 0 = Return (lex, n')
    /\ _primitives lex = ["S"; "NP"; "N"; "VP"]
    /\ fst (start lex) = PrimitiveCategory "S" [].
Proof.
  eexists _, _. split; [vm_compute; reflexivity|].
  destruct (start_is_first_declared
              (text [":- S,NP,N"; ":- VP"]) 0 _ _
              [] ":- S,NP,N" [":- VP"] ["S"; "NP"; "N"]
              eq_refl eq_refl (List.Forall_nil _) eq_refl)
    as (H1 & _ & _ & first & others & Hn & H2).
  injection Hn as <- <-. split; [exact H1 | exact H2].
Defined.

End Declarations.

(** ** The word table and the family table *)

Section Tables.

Lemma dd_lookup_app k d k' l :
  DefaultDict.lookup k (d ++ [(k', l)]) =
  match DefaultDict.lookup k d with
  | Some x => Some x
  | None => if String.eqb k' k then Some l else None
  end.
Proof.
  induction d as [|[k0 l0] d IH]; simpl; [reflexivity|].
  destruct (String.eqb k0 k); [reflexivity | exact IH].
Qed.

Lemma dd_lookup_update f k k' d :
  DefaultDict.lookup k (DefaultDict.update f k' d) =
  if String.eqb k' k then f <$> DefaultDict.lookup k d
  else DefaultDict.lookup k d.
Proof.
  induction d as [|[k0 l0] d IH]; simpl.
  - now destruct (String.eqb k' k).
  - destruct (String.eqb_spec k0 k') as [->|Hne]; simpl.
    + destruct (String.eqb k' k); reflexivity.
    + destruct (String.eqb_spec k0 k) as [->|Hne'].
      * destruct (String.eqb_spec k' k) as [->|]; [contradiction|reflexivity].
      * exact IH.
Qed.

Lemma stored_append w ident cat d :
  stored w (DefaultDict.append ident cat d) =
  if String.eqb ident w then stored w d ++ [cat] else stored w d.
Proof.
  unfold stored, DefaultDict.append, DefaultDict.getitem.
  destruct (DefaultDict.lookup ident d) as [l|] eqn:Hl.
  - rewrite dd_lookup_update.
    destruct (String.eqb_spec ident w) as [->|]; [|reflexivity].
    now rewrite Hl.
  - rewrite dd_lookup_update, dd_lookup_app.
    destruct (String.eqb_spec ident w) as [->|Hne].
    + rewrite Hl. reflexivity.
    + destruct (DefaultDict.lookup w d); reflexivity.
Qed.

Lemma categories_stored lex w : fst (categories lex w) = stored w (_entries lex).
Proof.
  unfold categories, stored, DefaultDict.getitem.
  destruct (DefaultDict.lookup w (_entries lex)); reflexivity.
Qed.

Lemma word_categories_app w a b :
  word_categories w (a ++ b) = word_categories w a ++ word_categories w b.
Proof. unfold word_categories. now rewrite List.filter_app, map_app. Qed.

Lemma family_definitions_app ident a b :
  family_definitions ident (a ++ b)
  = family_definitions ident a ++ family_definitions ident b.
Proof. unfold family_definitions. now rewrite List.filter_app, map_app. Qed.

Lemma parsed_entries_cons l ls st n :
  parsed_entries (l :: ls) st n =
  match fromstring_body l st n with
  | Return (st', n') =>
      match classify l with
      | Entry ident sep catstr =>
          match augParseCategory catstr (primitives st) (families st) None n with
          | Return ((cat, var), _) => [mkParsed ident sep cat var]
          | _ => []
          end
      | _ => []
      end ++ parsed_entries ls st' n'
  | _ => []
  end.
Proof. reflexivity. Qed.

(** What the loop leaves in the two tables. *)
Lemma fromstring_for_tables lines st n st' n' :
  fromstring_for lines st n = Return (st', n') ->
  (forall w,
      stored w (entries st')
      = stored w (entries st) ++ word_categories w (parsed_entries lines st n))
  /\ (forall ident,
         families st' !! ident =
         match last (family_definitions ident (parsed_entries lines st n)) with
         | Some d => Some d
         | None => families st !! ident
         end).
Proof.
  revert st n; induction lines as [|l ls IH]; intros st n.
  - intros [= <- <-]. split; intros; [now rewrite app_nil_r | reflexivity].
  - rewrite fromstring_for_cons, parsed_entries_cons, fromstring_body_classify.
    destruct (classify l) as [|names|ident sep catstr|].
    + intros H. apply IH in H. exact H.
    + intros H. apply IH in H. exact H.
    + destruct (augParseCategory catstr _ _ None n) as [[[cat var] n1]|e|];
        try discriminate.
      destruct (String.eqb sep "::") eqn:Hsep; intros H; apply IH in H;
        destruct H as [Hw Hf]; cbn [entries families] in Hw, Hf; split.
      * intros w. rewrite Hw, word_categories_app. f_equal.
        unfold word_categories, is_family. simpl. now rewrite Hsep.
      * intros i. rewrite Hf, family_definitions_app.
        unfold family_definitions at 2, is_family. simpl. rewrite Hsep. simpl.
        destruct (String.eqb_spec ident i) as [->|Hne]; simpl.
        -- destruct (family_definitions i (parsed_entries ls _ n1))
             as [|d ds] eqn:E; simpl.
           ++ now rewrite lookup_insert_eq.
           ++ destruct (last (d :: ds)) eqn:El; [reflexivity|].
              apply last_None in El. discriminate.
        -- destruct (last (family_definitions i _)); [reflexivity|].
           now rewrite lookup_insert_ne.
      * intros w. rewrite Hw, word_categories_app, stored_append.
        unfold word_categories at 2, is_family. simpl. rewrite Hsep. simpl.
        destruct (String.eqb ident w); simpl; [now rewrite <- app_assoc|].
        reflexivity.
      * intros i. rewrite Hf, family_definitions_app.
        unfold family_definitions at 2, is_family. simpl. rewrite Hsep. simpl.
        reflexivity.
    + discriminate.
Qed.

Lemma word_categories_absent w lines st n :
  ~ In w (word_idents lines) ->
  word_categories w (parsed_entries lines st n) = [].
Proof.
  revert st n; induction lines as [|l ls IH]; intros st n Hw; [reflexivity|].
  rewrite parsed_entries_cons.
  destruct (fromstring_body l st n) as [[st1 n1]|e|]; try reflexivity.
  rewrite word_categories_app. simpl in Hw.
  destruct (classify l) as [|names|ident sep catstr|];
    try (simpl; now apply IH).
  destruct (augParseCategory catstr _ _ None n) as [[[cat var] n2]|e|];
    try (simpl; destruct (String.eqb sep "::"); apply IH; simpl in Hw; tauto).
  unfold word_categories at 1, is_family. simpl.
  destruct (String.eqb sep "::"); simpl; [now apply IH|].
  destruct (String.eqb_spec ident w) as [->|Hne]; simpl.
  - exfalso. apply Hw. now left.
  - apply IH. intros Hin. apply Hw. now right.
Qed.

(** C4.  In a lexicon that [fromstring] returns, [categories(w)] gives
    the categories parsed from the word-entry lines for [w], in source
    order; for a word that is the identifier of no word-entry line this
    is the empty list.  [categories] is total: no lookup raises. *)
Theorem categories_in_declaration_order lex_str n lex n' :
  fromstring lex_str n = Return (lex, n') ->
  (forall w,
      fst (categories lex w)
      = word_categories w (parsed_entries (splitlines lex_str) init_locals n))
  /\ (forall w,
         ~ In w (word_idents (splitlines lex_str)) ->
         fst (categories lex w) = []).
Proof.
  intros Hbuild. rewrite fromstring_unfold in Hbuild.
  destruct (fromstring_for (splitlines lex_str) init_locals n)
    as [[st n1]|e|] eqn:Hfor; try discriminate.
  destruct (primitives st) as [|p0 ps]; [discriminate|].
  injection Hbuild as <- <-.
  apply fromstring_for_tables in Hfor as [Hw _].
  assert (H : forall w,
             fst (categories (CCGLexicon_init p0 (p0 :: ps) (families st)
                                (entries st)) w)
             = word_categories w
                 (parsed_entries (splitlines lex_str) init_locals n)).
  { intros w. rewrite categories_stored. cbn [_entries CCGLexicon_init].
    rewrite Hw. reflexivity. }
  split; [exact H|].
  intros w Hnot. rewrite H. now apply word_categories_absent.
Qed.

Lemma categories_in_declaration_order_witness :
  exists lex n',
    fromstring (text [":- S,NP,N"; "Det :: NP/N"; "the => NP[sg]/N[sg]";
                      "dog => N[sg]"; "the => NP[pl]/N[pl]"]) 0
    = Return (lex, n')
    /\ fst (categories lex "zzz") = []
    /\ fst (categories lex "the")
       = [FunctionalCategory (PrimitiveCategory "NP" ["sg"])
            (PrimitiveCategory "N" ["sg"]) fwd;
          FunctionalCategory (PrimitiveCategory "NP" ["pl"])
            (PrimitiveCategory "N" ["pl"]) fwd].
Proof.
  eexists _, _. split; [vm_compute; reflexivity|].
  destruct (categories_in_declaration_order
              (text [":- S,NP,N"; "Det :: NP/N"; "the => NP[sg]/N[sg]";
                     "dog => N[sg]"; "the => NP[pl]/N[pl]"]) 0 _ _ eq_refl)
    as [H1 H2].
  split.
  - apply H2. vm_compute. intros [H|[H|[H|[]]]]; discriminate.
  - rewrite H1. vm_compute. reflexivity.
Defined.

End Tables.

(** ** Family definitions and family references *)

Section Families.

Example redefined_family_is_used :
  match fromstring
          (text [":- S,NP,N"; "Det :: NP/N"; "Det :: S/NP"; "the => Det"]) 0 with
  | Return (lex, _) =>
      fst (categories lex "the")
      = [FunctionalCategory (PrimitiveCategory "S" [])
           (PrimitiveCategory "NP" []) fwd]
  | _ => False
  end.
Proof. vm_compute. reflexivity. Qed.

(** Two facts about [substitute] as modelled: it renames the one
    variable, and it is the identity when the family has no variable. *)
Lemma cat_vars_substitute cat u v :
  cat_vars (substitute cat [(Some u, CCGVar v)])
  = map (fun x => if Nat.eqb u x then v else x) (cat_vars cat).
Proof.
  induction cat as [x|name subs|res IHres arg IHarg d]; simpl.
  - destruct (Nat.eqb u x); reflexivity.
  - reflexivity.
  - now rewrite IHres, IHarg, map_app.
Qed.

Lemma substitute_no_variable cat c : substitute cat [(None, c)] = cat.
Proof.
  induction cat as [x|name subs|res IHres arg IHarg d]; simpl;
    [reflexivity | reflexivity | now rewrite IHres, IHarg].
Qed.





End Families.

(** ** Reading the lexicon *)

Section Reading.

Lemma dd_lookup_keys w (d : DefaultDict.t) :
  In w (DefaultDict.keys d) <-> DefaultDict.lookup w d <> None.
Proof.
  induction d as [|[k l] d IH]; simpl.
  - split; [contradiction | congruence].
  - destruct (String.eqb_spec k w) as [->|Hne].
    + split; [discriminate | auto].
    + rewrite <- IH. split; [intros [?|?]; [contradiction | assumption] | auto].
Qed.





End Reading.

(** ** Examples *)

Section Examples.

Example LEX_RE_word :
  LEX_RE_match "the => NP[sg]/N[sg]" = Some ("the", "=>", "NP[sg]/N[sg]").
Proof. reflexivity. Qed.

Example LEX_RE_family :
  LEX_RE_match "TransVsg :: S\NP[sg]/NP" = Some ("TransVsg", "::", "S\NP[sg]/NP").
Proof. reflexivity. Qed.

Example LEX_RE_long_arrow :
  LEX_RE_match "which --> (N\N)/(S/NP)" = Some ("which", "-->", "(N\N)/(S/NP)").
Proof. reflexivity. Qed.

Example LEX_RE_no_separator : LEX_RE_match "foo" = None.
Proof. reflexivity. Qed.

Example LEX_RE_gives_back_blank :
  LEX_RE_match "foo :: " = Some ("foo", "::", " ").
Proof. reflexivity. Qed.

Example NEXTPRIM_RE_subscript :
  NEXTPRIM_RE_match "NP[sg]/N[sg]" = Some ("NP[sg]", "/N[sg]").
Proof. reflexivity. Qed.

Example PRIM_RE_subscript : PRIM_RE_match "NP[sg]" = Some ("NP", Some "[sg]").
Proof. reflexivity. Qed.

Example PRIM_RE_digit_subscript : PRIM_RE_match "N[1]" = Some ("N", None).
Proof. reflexivity. Qed.

Example APP_RE_modifiers : APP_RE_match "\.,NP" = Some ("\", ".", ",", "NP").
Proof. reflexivity. Qed.

Example splitlines_boundaries :
  splitlines (String "a" (String CR (String LF (String "b"
               (String LF (String LF "c"))))))
  = ["a"; "b"; ""; "c"].
Proof. reflexivity. Qed.

Example clean_comment : clean "cat => N[sg]   # a comment" = "cat => N[sg]".
Proof. reflexivity. Qed.

Example classify_malformed : classify "foo ## N" = Malformed.
Proof. reflexivity. Qed.

(** A declared primitive whose name is not a run of letters cannot be
    written in a category text. *)
Example primitive_with_digit :
  augParseCategory "N1[sg,pl]" ["N1"] ∅ None 0
  = Raise (neither_family_nor_primitive "N").
Proof. reflexivity. Qed.

Example unbalanced_bracket :
  fromstring (text [":- S,NP,N"; "the => NP/(N"]) 0
  = Raise (unmatched_bracket "(N").
Proof. reflexivity. Qed.

Example no_primitives : fromstring (text ["# nothing"; ""]) 0 = Raise IndexError.
Proof. reflexivity. Qed.

Example trailing_operator :
  fromstring (text [":- S,NP"; "x => S/"]) 0 = Raise (AttributeError NEXTPRIM_RE).
Proof. reflexivity. Qed.

Example tiny :
  match fromstring (text [":- S,NP,N"; "Det :: NP/N  # Determiners"; "";
                          "the => NP[sg]/N[sg]"; "dog => N[sg]"]) 0 with
  | Return (lex, _) =>
      fst (start lex) = prim "S"
      /\ fst (categories lex "the")
         = [FunctionalCategory (PrimitiveCategory "NP" ["sg"])
              (PrimitiveCategory "N" ["sg"]) fwd]
      /\ DefaultDict.keys (_entries lex) = ["the"; "dog"]
  | _ => False
  end.
Proof. vm_compute. auto. Qed.

Example openccg_tinytiny_builds :
  match openccg_tinytiny 0 with
  | Return (lex, n) =>
      n = 0
      /\ fst (start lex) = prim "S"
      /\ _primitives lex = ["S"; "NP"; "N"]
      /\ fst (categories lex "sees")
         = [FunctionalCategory
              (FunctionalCategory (prim "S") (PrimitiveCategory "NP" ["sg"])
                 (mkDirection "\" [""; ""]))
              (prim "NP") fwd]
      /\ length (fst (categories lex "eat")) = 2
      /\ DefaultDict.keys (_entries lex)
         = ["the"; "I"; "me"; "we"; "us"; "book"; "books"; "peach"; "peaches";
            "policeman"; "policemen"; "boy"; "boys"; "sleep"; "eat"; "eats";
            "see"; "sees"]
  | _ => False
  end.
Proof. vm_compute. repeat split; reflexivity. Qed.

End Examples.

(** * Further properties of the module *)

(** ** One variable per category text *)

Section Threading.

Lemma bind_Return {A B} (m : M A) (k : A -> M B) n b n2 :
  bind m k n = Return (b, n2) ->
  exists a n1, m n = Return (a, n1) /\ k a n1 = Return (b, n2).
Proof.
  unfold bind. destruct (m n) as [[a n1]|e|]; try discriminate. eauto.
Qed.

Lemma lift_Return {A} (o : outcome A) n a n1 :
  lift o n = Return (a, n1) -> o = Return a /\ n1 = n.
Proof. unfold lift. destruct o; try discriminate. now intros [= <- <-]. Qed.

Lemma groups_Return {A} re (m : option A) n a n1 :
  groups re m n = Return (a, n1) -> m = Some a /\ n1 = n.
Proof. destruct m; simpl; try discriminate. now intros [= <- <-]. Qed.

Lemma threads_refl var n : threads var n var n.
Proof. destruct var; simpl; auto. Qed.

Lemma threads_trans var n v1 n1 v2 n2 :
  threads var n v1 n1 -> threads v1 n1 v2 n2 -> threads var n v2 n2.
Proof.
  destruct var as [v|]; simpl.
  - intros [-> ->]. auto.
  - intros [->|[-> ->]]; simpl.
    + destruct v1 as [x|]; simpl; intuition.
    + intros [-> ->]. auto.
Qed.

Lemma threads_le var n var' n' : threads var n var' n' -> n <= n' <= S n.
Proof. destruct var; simpl; intuition lia. Qed.

Lemma parsePrimitiveCategory_threads chunks prims fams var n c var' n' :
  parsePrimitiveCategory chunks prims fams var n = Return ((c, var'), n') ->
  threads var n var' n'.
Proof.
  destruct chunks as [catstr subscr].
  assert (Hres : resolve catstr subscr prims fams var n
                 = Return ((c, var'), n') -> threads var n var' n').
  { unfold resolve. destruct (fams !! catstr) as [[cat cvar]|].
    - destruct var as [v|]; intros [= <- <- <-]; simpl; auto.
    - destruct (existsb _ prims); [|discriminate].
      intros [= <- <- <-]. apply threads_refl. }
  destruct (String.eqb_spec catstr "var") as [->|Hne].
  - destruct subscr as [sub|].
    + rewrite parsePrimitiveCategory_resolve by (right; discriminate).
      exact Hres.
    + rewrite parsePrimitiveCategory_bare_var.
      destruct var as [v|]; intros [= <- <- <-]; simpl; auto.
  - rewrite parsePrimitiveCategory_resolve by (left; exact Hne). exact Hres.
Qed.

Lemma augParseCategory_fuel_threads (f : nat) :
  (forall line prims fams var n c var' n',
      augParseCategory_fuel f line prims fams var n = Return ((c, var'), n') ->
      threads var n var' n')
  /\ (forall prims fams res var rest n c var' n',
         augParseCategory_while f prims fams res var rest n
         = Return ((c, var'), n') ->
         threads var n var' n').
Proof.
  induction f as [|g [IHp IHw]]; [split; intros; discriminate|].
  assert (Hterm : forall cs prims fams var n c var' n',
             parseTerm (fun s v => augParseCategory_fuel g s prims fams v)
               cs prims fams var n = Return ((c, var'), n') ->
             threads var n var' n').
  { intros cs prims fams var n c var' n'. unfold parseTerm.
    destruct (startswith cs "("); [apply IHp|].
    intros H. apply bind_Return in H as (chunks & n1 & Hg & H).
    apply groups_Return in Hg as [_ ->].
    eapply parsePrimitiveCategory_threads; eauto. }
  split.
  - intros line prims fams var n c var' n' H. cbn [augParseCategory_fuel] in H.
    apply bind_Return in H as ([cs rest] & n0 & Hn & H).
    apply lift_Return in Hn as [_ ->].
    apply bind_Return in H as ([res var1] & n1 & Ht & H).
    eapply threads_trans; [eapply Hterm; eauto | eapply IHw; eauto].
  - intros prims fams res var rest n c var' n' H.
    cbn [augParseCategory_while] in H.
    destruct (negb (String.eqb rest "")).
    + apply bind_Return in H as ([[[slash m1] m2] rest1] & n0 & Hg & H).
      apply groups_Return in Hg as [_ ->].
      apply bind_Return in H as ([cs rest2] & n0 & Hn & H).
      apply lift_Return in Hn as [_ ->].
      apply bind_Return in H as ([arg var1] & n1 & Ht & H).
      eapply threads_trans; [eapply Hterm; eauto | eapply IHw; eauto].
    + injection H as <- <- <-. apply threads_refl.
Qed.

(** X1.  One call of [augParseCategory] allocates at most one variable.
    A variable bound on entry is the binding returned and nothing is
    allocated; without a binding, either the counter is unchanged or it
    moved by one and the variable drawn is the binding returned. *)
Theorem augParseCategory_threads line prims fams var n c var' n' :
  augParseCategory line prims fams var n = Return ((c, var'), n') ->
  threads var n var' n'.
Proof. apply augParseCategory_fuel_threads. Qed.

Lemma augParseCategory_threads_witness :
  threads None 7 (Some 7) 8 /\ threads (Some 3) 7 (Some 3) 7.
Proof.
  split.
  - exact (augParseCategory_threads "(var/S)\var" ["S"] ∅ None 7
             _ _ _ eq_refl).
  - exact (augParseCategory_threads "(var/S)\var" ["S"] ∅ (Some 3) 7
             _ _ _ eq_refl).
Defined.

End Threading.

(** ** What a parsed category is made of *)

Section WellFormed.

Lemma span_all_fst (p : ascii -> bool) (s : string) :
  all p (fst (span p s)) = true.
Proof.
  induction s as [|c s IH]; simpl; [reflexivity|].
  destruct (p c) eqn:Hc; [|reflexivity].
  destruct (span p s) as [a b]; simpl in *. now rewrite Hc.
Qed.

Lemma all_split_alpha (s : string) :
  all is_subscr s = true ->
  Forall (fun t => all is_alpha t = true) (split "," s).
Proof.
  induction s as [|c s IH]; simpl; [intros _; repeat constructor|].
  intros H. apply andb_prop in H as [Hc Hs]. specialize (IH Hs).
  destruct (Ascii.eqb_spec c ",") as [->|Hne].
  - constructor; [reflexivity | exact IH].
  - assert (Ha : is_alpha c = true).
    { unfold is_subscr in Hc. apply orb_prop in Hc as [Hc|Hc]; [exact Hc|].
      apply Ascii.eqb_eq in Hc. contradiction. }
    destruct (split "," s) as [|h t].
    + repeat constructor. simpl. now rewrite Ha.
    + inversion IH; subst. constructor; [simpl; now rewrite Ha | assumption].
Qed.

Lemma opt_subscript_Some (s bracket : string) :
  fst (opt_subscript s) = Some bracket ->
  exists body, bracket = "[" +:+ body +:+ "]" /\ body <> ""
               /\ all is_subscr body = true.
Proof.
  destruct s as [|c s]; [discriminate|]. unfold opt_subscript.
  destruct (Ascii.eqb c "["); [|discriminate].
  pose proof (span_all_fst is_subscr s) as Hall.
  destruct (span is_subscr s) as [body after]; simpl in Hall.
  destruct body as [|b body]; [discriminate|].
  destruct after as [|c' rest]; [discriminate|].
  destruct (Ascii.eqb c' "]"); [|discriminate].
  intros [= <-]. exists (String b body). repeat split; [discriminate | exact Hall].
Qed.

(** The groups of PRIM_RE are a name and a subscript text of letters. *)
Lemma PRIM_RE_match_shape (s name : string) (subscr : option string) :
  PRIM_RE_match s = Some (name, subscr) ->
  is_name name
  /\ Forall (fun t => all is_alpha t = true) (parseSubscripts subscr).
Proof.
  unfold PRIM_RE_match.
  pose proof (span_all_fst is_alpha s) as Hall.
  destruct (span is_alpha s) as [a rest]; simpl in Hall.
  destruct a as [|x a]; [discriminate|]. intros [= <- <-].
  split; [split; [discriminate | exact Hall]|].
  destruct (fst (opt_subscript rest)) as [bracket|] eqn:Hb; [|constructor].
  apply opt_subscript_Some in Hb as (body & -> & Hne & Hbody).
  rewrite parseSubscripts_bracket. now apply all_split_alpha.
Qed.

Lemma opt_modifier_shape (s m rest : string) :
  opt_modifier s = (m, rest) ->
  is_modifier m /\ (m = "" -> rest = s).
Proof.
  destruct s as [|c s]; simpl.
  - intros [= <- <-]. split; [now left | auto].
  - destruct (Ascii.eqb_spec c ".") as [->|H1]; simpl.
    + intros [= <- <-]. split; [right; now left | discriminate].
    + destruct (Ascii.eqb_spec c ",") as [->|H2]; simpl.
      * intros [= <- <-]. split; [right; now right | discriminate].
      * intros [= <- <-]. split; [now left | auto].
Qed.

(** The groups of APP_RE make a direction of the expected shape. *)
Lemma APP_RE_match_shape (s slash m1 m2 rest : string) :
  APP_RE_match s = Some (slash, m1, m2, rest) ->
  written_direction (parseApplication (slash, m1, m2)).
Proof.
  destruct s as [|c s]; [discriminate|]. unfold APP_RE_match.
  destruct (Ascii.eqb c "\" || Ascii.eqb c "/") eqn:Hc; [|discriminate].
  destruct (opt_modifier s) as [a s1] eqn:H1.
  destruct (opt_modifier s1) as [b s2] eqn:H2.
  intros [= <- <- <- <-].
  destruct (opt_modifier_shape _ _ _ H1) as [Ha Hs1].
  destruct (opt_modifier_shape _ _ _ H2) as [Hb _].
  split.
  - simpl. apply orb_prop in Hc as [Hc|Hc]; apply Ascii.eqb_eq in Hc; subst; auto.
  - exists a, b. simpl. repeat split; auto.
    intros ->. specialize (Hs1 eq_refl). subst s1.
    rewrite H1 in H2. now injection H2 as <- _.
Qed.

End WellFormed.

Section ParsedCategories.

Lemma parsed_cat_mono prims prims' lo hi hi' var var' c :
  (forall x, In x prims -> In x prims') -> hi <= hi' ->
  var' = var \/ var = None ->
  parsed_cat prims lo hi var c -> parsed_cat prims' lo hi' var' c.
Proof.
  intros Hp Hhi Hv (Hvars & Hprims & Hdirs). repeat split; [| |exact Hdirs].
  - eapply Forall_impl; [exact Hvars|]. intros v [Hv1 Hv2].
    destruct Hv as [->| ->]; [split; [exact Hv1 | lia] | discriminate].
  - eapply Forall_impl; [exact Hprims|].
    intros [name subs] (H1 & H2 & H3).
    split; [apply Hp, H1 | split; assumption].
Qed.

Lemma var_in_range_mono lo hi hi' var :
  hi <= hi' -> var_in_range lo hi var -> var_in_range lo hi' var.
Proof. intros Hhi H v Hv. specialize (H v Hv). lia. Qed.

Lemma parsed_families_mono prims prims' lo hi hi' fams :
  (forall x, In x prims -> In x prims') -> hi <= hi' ->
  parsed_families prims lo hi fams -> parsed_families prims' lo hi' fams.
Proof.
  intros Hp Hhi H k cat cvar Hk. destruct (H k cat cvar Hk) as [H1 H2].
  split; [|eapply var_in_range_mono; eauto].
  eapply (parsed_cat_mono prims prims' lo hi hi' cvar cvar); auto.
Qed.

Lemma parsed_table_mono prims prims' lo hi hi' entries :
  (forall x, In x prims -> In x prims') -> hi <= hi' ->
  parsed_table prims lo hi entries -> parsed_table prims' lo hi' entries.
Proof.
  intros Hp Hhi H. eapply Forall_impl; [exact H|].
  intros [k l] [Hne Hl]. split; [exact Hne|].
  eapply Forall_impl; [exact Hl|]. intros c [var Hc]. exists var.
  eapply (parsed_cat_mono prims prims' lo hi hi' var var); auto.
Qed.

Lemma substitute_parts cat cvar v :
  cat_vars (substitute cat [(cvar, CCGVar v)])
  = map (fun x => if var_eqb cvar x then v else x) (cat_vars cat)
  /\ cat_prims (substitute cat [(cvar, CCGVar v)]) = cat_prims cat
  /\ cat_directions (substitute cat [(cvar, CCGVar v)]) = cat_directions cat.
Proof.
  induction cat as [x|name subs|res [IH1 [IH2 IH3]] arg [IH4 [IH5 IH6]] d];
    simpl.
  - destruct (var_eqb cvar x); auto.
  - auto.
  - rewrite IH1, IH2, IH3, IH4, IH5, IH6, map_app. auto.
Qed.

Lemma parsed_cat_substitute prims lo hi cvar cat v :
  parsed_cat prims lo hi cvar cat -> lo <= v < hi ->
  parsed_cat prims lo hi (Some v) (substitute cat [(cvar, CCGVar v)]).
Proof.
  intros (Hvars & Hprims & Hdirs) Hv.
  destruct (substitute_parts cat cvar v) as (E1 & E2 & E3).
  unfold parsed_cat. rewrite E1, E2, E3. repeat split; auto.
  apply Forall_map. eapply Forall_impl; [exact Hvars|].
  intros x [-> _]. simpl. rewrite Nat.eqb_refl. auto.
Qed.

Lemma parsed_cat_function prims lo hi var res arg d :
  parsed_cat prims lo hi var res -> parsed_cat prims lo hi var arg ->
  written_direction d ->
  parsed_cat prims lo hi var (FunctionalCategory res arg d).
Proof.
  intros (A1 & A2 & A3) (B1 & B2 & B3) Hd. unfold parsed_cat. simpl.
  rewrite !Forall_app. repeat split; auto.
Qed.

Lemma parsePrimitiveCategory_parsed cs chunks prims fams lo var n c var' n' :
  PRIM_RE_match cs = Some chunks ->
  parsed_families prims lo n fams -> var_in_range lo n var -> lo <= n ->
  parsePrimitiveCategory chunks prims fams var n = Return ((c, var'), n') ->
  parsed_cat prims lo n' var' c /\ var_in_range lo n' var'.
Proof.
  destruct chunks as [catstr subscr]. intros Hm Hf Hv Hlo.
  apply PRIM_RE_match_shape in Hm as [Hname Hsubs].
  assert (Hres : resolve catstr subscr prims fams var n
                 = Return ((c, var'), n') ->
                 parsed_cat prims lo n' var' c /\ var_in_range lo n' var').
  { unfold resolve. destruct (fams !! catstr) as [[cat cvar]|] eqn:Hk.
    - destruct (Hf _ _ _ Hk) as [Hc Hcv].
      destruct var as [v|]; intros [= <- <- <-].
      + split; [|exact Hv].
        apply parsed_cat_substitute; [exact Hc | now apply Hv].
      + split; assumption.
    - destruct (existsb _ prims) eqn:Hp; [|discriminate].
      intros [= <- <- <-]. split; [|exact Hv].
      apply existsb_eqb_In in Hp. unfold parsed_cat; simpl.
      repeat split; constructor; [|constructor].
      repeat split; simpl; auto; apply Hname. }
  destruct (String.eqb_spec catstr "var") as [->|Hne].
  - destruct subscr as [sub|].
    + rewrite parsePrimitiveCategory_resolve by (right; discriminate).
      exact Hres.
    + rewrite parsePrimitiveCategory_bare_var.
      destruct var as [v|]; intros [= <- <- <-].
      * split; [|exact Hv]. unfold parsed_cat; simpl.
        repeat split; constructor; [|constructor].
        split; [reflexivity | now apply Hv].
      * split.
        -- unfold parsed_cat; simpl.
           repeat split; constructor; [|constructor]. split; [reflexivity|lia].
        -- intros v [= <-]. lia.
  - rewrite parsePrimitiveCategory_resolve by (left; exact Hne). exact Hres.
Qed.

Lemma threads_weaken var n var' n' :
  threads var n var' n' -> n <= n' /\ (var' = var \/ var = None).
Proof. destruct var; simpl; intuition (subst; auto; lia). Qed.

Lemma parseTerm_threads g cs prims fams var n c var' n' :
  parseTerm (fun s v => augParseCategory_fuel g s prims fams v)
    cs prims fams var n = Return ((c, var'), n') ->
  threads var n var' n'.
Proof.
  unfold parseTerm. destruct (startswith cs "(").
  - apply augParseCategory_fuel_threads.
  - intros H. apply bind_Return in H as (chunks & n1 & Hg & H).
    apply groups_Return in Hg as [_ ->].
    eapply parsePrimitiveCategory_threads; eauto.
Qed.

(** The invariant of the parser. *)
Lemma augParseCategory_fuel_parsed (prims : list string)
    (fams : gmap string (Category * option nat)) (lo : nat) (f : nat) :
  (forall line var n c var' n',
      parsed_families prims lo n fams -> var_in_range lo n var -> lo <= n ->
      augParseCategory_fuel f line prims fams var n = Return ((c, var'), n') ->
      parsed_cat prims lo n' var' c /\ var_in_range lo n' var')
  /\ (forall res var rest n c var' n',
         parsed_families prims lo n fams -> var_in_range lo n var -> lo <= n ->
         parsed_cat prims lo n var res ->
         augParseCategory_while f prims fams res var rest n
         = Return ((c, var'), n') ->
         parsed_cat prims lo n' var' c /\ var_in_range lo n' var').
Proof.
  induction f as [|g [IHp IHw]]; [split; intros; discriminate|].
  assert (Hterm : forall cs var n c var' n',
             parsed_families prims lo n fams -> var_in_range lo n var ->
             lo <= n ->
             parseTerm (fun s v => augParseCategory_fuel g s prims fams v)
               cs prims fams var n = Return ((c, var'), n') ->
             parsed_cat prims lo n' var' c /\ var_in_range lo n' var').
  { intros cs var n c var' n' Hf Hv Hlo. unfold parseTerm.
    destruct (startswith cs "("); [now apply IHp|].
    intros H. apply bind_Return in H as (chunks & n1 & Hg & H).
    apply groups_Return in Hg as [Hm ->].
    eapply parsePrimitiveCategory_parsed; eauto. }
  split.
  - intros line var n c var' n' Hf Hv Hlo H. cbn [augParseCategory_fuel] in H.
    apply bind_Return in H as ([cs rest] & n0 & Hn & H).
    apply lift_Return in Hn as [_ ->].
    apply bind_Return in H as ([res var1] & n1 & Ht & H).
    destruct (threads_weaken _ _ _ _ (parseTerm_threads _ _ _ _ _ _ _ _ _ Ht))
      as [Hle _].
    destruct (Hterm _ _ _ _ _ _ Hf Hv Hlo Ht) as [Hres Hv1].
    apply (IHw res var1 rest n1 c var' n');
      [eapply parsed_families_mono; eauto | exact Hv1 | lia | exact Hres
      | exact H].
  - intros res var rest n c var' n' Hf Hv Hlo Hres H.
    cbn [augParseCategory_while] in H.
    destruct (negb (String.eqb rest "")).
    + apply bind_Return in H as ([[[slash m1] m2] rest1] & n0 & Hg & H).
      apply groups_Return in Hg as [Happ ->].
      apply bind_Return in H as ([cs rest2] & n0 & Hn & H).
      apply lift_Return in Hn as [_ ->].
      apply bind_Return in H as ([arg var1] & n1 & Ht & H).
      destruct (threads_weaken _ _ _ _ (parseTerm_threads _ _ _ _ _ _ _ _ _ Ht))
        as [Hle Hvar].
      destruct (Hterm _ _ _ _ _ _ Hf Hv Hlo Ht) as [Harg Hv1].
      apply (IHw (FunctionalCategory res arg (parseApplication (slash, m1, m2)))
               var1 rest2 n1 c var' n');
        [eapply parsed_families_mono; eauto | exact Hv1 | lia | | exact H].
      apply parsed_cat_function;
        [eapply (parsed_cat_mono prims prims lo n n1 var var1); eauto
        | exact Harg |].
      eapply APP_RE_match_shape; eauto.
    + injection H as <- <- <-. auto.
Qed.

Lemma augParseCategory_parsed line prims fams lo var n c var' n' :
  parsed_families prims lo n fams -> var_in_range lo n var -> lo <= n ->
  augParseCategory line prims fams var n = Return ((c, var'), n') ->
  n <= n' /\ parsed_cat prims lo n' var' c /\ var_in_range lo n' var'.
Proof.
  intros Hf Hv Hlo H. split.
  - apply augParseCategory_fuel_threads in H. apply threads_le in H. lia.
  - exact (proj1 (augParseCategory_fuel_parsed prims fams lo _)
             line var n c var' n' Hf Hv Hlo H).
Qed.

End ParsedCategories.

(** ** The word table as the builder leaves it *)

Section WordTable.

Lemma dd_update_absent f k (d : DefaultDict.t) :
  DefaultDict.lookup k d = None -> DefaultDict.update f k d = d.
Proof.
  induction d as [|[k0 l0] d IH]; simpl; [reflexivity|].
  destruct (String.eqb k0 k); [discriminate|].
  intros H. now rewrite IH.
Qed.

Lemma dd_update_app f k (d : DefaultDict.t) l :
  DefaultDict.lookup k d = None ->
  DefaultDict.update f k (d ++ [(k, l)]) = d ++ [(k, f l)].
Proof.
  induction d as [|[k0 l0] d IH]; simpl.
  - now rewrite String.eqb_refl.
  - destruct (String.eqb k0 k); [discriminate|].
    intros H. now rewrite IH.
Qed.

Lemma dd_append_new k x (d : DefaultDict.t) :
  DefaultDict.lookup k d = None -> DefaultDict.append k x d = d ++ [(k, [x])].
Proof.
  intros H. unfold DefaultDict.append, DefaultDict.getitem. rewrite H.
  now rewrite dd_update_app.
Qed.

Lemma dd_append_old k x (d : DefaultDict.t) l :
  DefaultDict.lookup k d = Some l ->
  DefaultDict.append k x d = DefaultDict.update (fun l => l ++ [x]) k d.
Proof.
  intros H. unfold DefaultDict.append, DefaultDict.getitem. now rewrite H.
Qed.

Lemma dd_keys_update f k (d : DefaultDict.t) :
  DefaultDict.keys (DefaultDict.update f k d) = DefaultDict.keys d.
Proof.
  induction d as [|[k0 l0] d IH]; simpl; [reflexivity|].
  destruct (String.eqb k0 k); simpl; [reflexivity | now f_equal].
Qed.

Lemma dd_lookup_existsb k (d : DefaultDict.t) :
  existsb (String.eqb k) (DefaultDict.keys d)
  = match DefaultDict.lookup k d with Some _ => true | None => false end.
Proof.
  induction d as [|[k0 l0] d IH]; simpl; [reflexivity|].
  rewrite (String.eqb_sym k k0).
  destruct (String.eqb k0 k); simpl; [reflexivity | exact IH].
Qed.

Lemma dd_keys_append k x (d : DefaultDict.t) :
  DefaultDict.keys (DefaultDict.append k x d)
  = DefaultDict.keys d
    ++ (if existsb (String.eqb k) (DefaultDict.keys d) then [] else [k]).
Proof.
  rewrite dd_lookup_existsb.
  destruct (DefaultDict.lookup k d) as [l|] eqn:H.
  - rewrite (dd_append_old _ _ _ _ H), dd_keys_update. now rewrite app_nil_r.
  - rewrite (dd_append_new _ _ _ H). unfold DefaultDict.keys.
    now rewrite map_app.
Qed.

Lemma dd_append_NoDup k x (d : DefaultDict.t) :
  NoDup (DefaultDict.keys d) -> NoDup (DefaultDict.keys (DefaultDict.append k x d)).
Proof.
  intros H. rewrite dd_keys_append.
  destruct (existsb (String.eqb k) (DefaultDict.keys d)) eqn:E.
  - now rewrite app_nil_r.
  - apply NoDup_app. split; [exact H|]. split; [|apply NoDup_singleton].
    intros y Hy Hk. apply list_elem_of_singleton in Hk as ->.
    apply list_elem_of_In in Hy.
    assert (existsb (String.eqb k) (DefaultDict.keys d) = true)
      by (apply existsb_exists; exists k; split; [exact Hy | apply String.eqb_refl]).
    congruence.
Qed.

Lemma dd_update_Forall (P : string * list Category -> Prop) f k d :
  Forall P d -> (forall l, P (k, l) -> P (k, f l)) ->
  Forall P (DefaultDict.update f k d).
Proof.
  intros H Hf. induction H as [|[k0 l0] d Hx Hd IH]; simpl; [constructor|].
  destruct (String.eqb_spec k0 k) as [->|Hne]; constructor; auto.
Qed.

Lemma dd_append_Forall (Q : Category -> Prop) k x (d : DefaultDict.t) :
  Forall (fun e => snd e <> [] /\ Forall Q (snd e)) d -> Q x ->
  Forall (fun e => snd e <> [] /\ Forall Q (snd e)) (DefaultDict.append k x d).
Proof.
  intros H Hx. destruct (DefaultDict.lookup k d) as [l|] eqn:Hl.
  - rewrite (dd_append_old _ _ _ _ Hl). apply dd_update_Forall; [exact H|].
    simpl. intros l' [_ Hl']. split; [now destruct l'|].
    apply Forall_app; split; [exact Hl' | now constructor].
  - rewrite (dd_append_new _ _ _ Hl). apply Forall_app; split; [exact H|].
    constructor; [|constructor]. simpl. split; [discriminate | now constructor].
Qed.

Lemma parsed_locals_init lo n : parsed_locals lo n init_locals.
Proof.
  split; [|split].
  - intros k0 c0 v0 H. simpl in H. rewrite lookup_empty in H. discriminate.
  - constructor.
  - constructor.
Qed.

(** One pass of the loop keeps the invariant, only adds primitives and
    never lowers the counter. *)
Lemma fromstring_body_parsed lo line st n st' n' :
  parsed_locals lo n st -> lo <= n ->
  fromstring_body line st n = Return (st', n') ->
  n <= n' /\ parsed_locals lo n' st'
  /\ (forall x, In x (primitives st) -> In x (primitives st')).
Proof.
  intros (Hf & He & Hk) Hlo. rewrite fromstring_body_classify.
  destruct (classify line) as [|names|ident sep catstr|].
  - intros [= <- <-]. split; [lia|]. split; [|auto].
    split; [exact Hf | split; [exact He | exact Hk]].
  - intros [= <- <-]. cbn [primitives].
    assert (Hsub : forall x, In x (primitives st) -> In x (primitives st ++ names))
      by (intros x Hx; apply in_or_app; now left).
    split; [lia|]. split; [|exact Hsub].
    split; [|split]; cbn [primitives families entries].
    + exact (parsed_families_mono _ _ lo n n _ Hsub (le_n n) Hf).
    + exact (parsed_table_mono _ _ lo n n _ Hsub (le_n n) He).
    + exact Hk.
  - destruct (augParseCategory catstr _ _ None n) as [[[cat var] n1]|e|] eqn:Hp;
      try discriminate.
    assert (Hnone : var_in_range lo n None) by (intros v; discriminate).
    destruct (augParseCategory_parsed _ _ _ _ _ _ _ _ _ Hf Hnone Hlo Hp)
      as (Hle & Hcat & Hvar).
    pose proof (parsed_families_mono _ _ lo n n1 _ (fun x H => H) Hle Hf) as Hf1.
    pose proof (parsed_table_mono _ _ lo n n1 _ (fun x H => H) Hle He) as He1.
    destruct (String.eqb sep "::"); intros [= <- <-];
      cbn [primitives families entries].
    + split; [exact Hle|]. split; [|auto].
      split; [|split]; cbn [primitives families entries];
        [|exact He1|exact Hk].
      intros k c cv. rewrite lookup_insert. case_decide.
      * intros [= <- <-]. auto.
      * apply Hf1.
    + split; [exact Hle|]. split; [|auto].
      split; [|split]; cbn [primitives families entries]; [exact Hf1| |].
      * apply dd_append_Forall; [exact He1 | eauto].
      * now apply dd_append_NoDup.
  - discriminate.
Qed.

Lemma fromstring_for_parsed lo lines st n st' n' :
  parsed_locals lo n st -> lo <= n ->
  fromstring_for lines st n = Return (st', n') ->
  n <= n' /\ parsed_locals lo n' st'.
Proof.
  revert st n; induction lines as [|l ls IH]; intros st n Hst Hlo.
  - intros [= <- <-]. auto.
  - rewrite fromstring_for_cons.
    destruct (fromstring_body l st n) as [[st1 n1]|e|] eqn:Hb; try discriminate.
    destruct (fromstring_body_parsed _ _ _ _ _ _ Hst Hlo Hb) as (Hle & Hst1 & _).
    intros H. apply IH in H; [|exact Hst1|lia]. destruct H. split; [lia|auto].
Qed.

(** What [fromstring] returns, in terms of the loop. *)
Lemma fromstring_Return lex_str n lex n' :
  fromstring lex_str n = Return (lex, n') ->
  exists st p0 ps,
    fromstring_for (splitlines lex_str) init_locals n = Return (st, n')
    /\ primitives st = p0 :: ps
    /\ lex = CCGLexicon_init p0 (primitives st) (families st) (entries st).
Proof.
  rewrite fromstring_unfold.
  destruct (fromstring_for (splitlines lex_str) init_locals n)
    as [[st n1]|e|]; try discriminate.
  destruct (primitives st) as [|p0 ps] eqn:Hp; [discriminate|].
  intros [= <- <-]. exists st, p0, ps. rewrite Hp. auto.
Qed.

Lemma fromstring_parsed lex_str n lex n' :
  fromstring lex_str n = Return (lex, n') ->
  n <= n'
  /\ parsed_families (_primitives lex) n n' (_families lex)
  /\ parsed_table (_primitives lex) n n' (_entries lex)
  /\ NoDup (DefaultDict.keys (_entries lex)).
Proof.
  intros H. apply fromstring_Return in H as (st & p0 & ps & Hfor & Hp & ->).
  apply (fromstring_for_parsed n) in Hfor;
    [|apply parsed_locals_init | lia].
  destruct Hfor as (Hle & Hf & He & Hk). simpl. auto.
Qed.

Lemma categories_In lex w c :
  In c (fst (categories lex w)) ->
  exists l, In (w, l) (_entries lex) /\ In c l.
Proof.
  rewrite categories_stored. unfold stored.
  destruct (DefaultDict.lookup w (_entries lex)) as [l|] eqn:Hl; [|contradiction].
  intros Hc. exists l. split; [|exact Hc].
  clear Hc. induction (_entries lex) as [|[k0 l0] d IH]; [discriminate|].
  simpl in Hl. destruct (String.eqb_spec k0 w) as [->|Hne].
  - injection Hl as ->. now left.
  - right. auto.
Qed.

(** Every category a built lexicon hands out was made by the parser. *)
Lemma fromstring_categories_parsed lex_str n lex n' w c :
  fromstring lex_str n = Return (lex, n') ->
  In c (fst (categories lex w)) ->
  exists var, parsed_cat (_primitives lex) n n' var c.
Proof.
  intros Hb Hc. apply fromstring_parsed in Hb as (_ & _ & He & _).
  apply categories_In in Hc as (l & Hl & Hc).
  unfold parsed_table in He. rewrite List.Forall_forall in He.
  destruct (He _ Hl) as [_ Hall]. rewrite List.Forall_forall in Hall. auto.
Qed.

End WordTable.

(** ** The categories of a built lexicon *)

Section BuiltLexicon.

Ltac built_witness thm :=
  match goal with
  | |- exists lex n', fromstring ?src ?n = Return (lex, n') /\ _ =>
      let Hb := fresh "Hb" in
      destruct (fromstring src n) as [[lex n']|e|] eqn:Hb;
      [ exists lex, n'; split; [reflexivity | exact (thm src n lex n' Hb)]
      | exfalso; vm_compute in Hb; discriminate
      | exfalso; vm_compute in Hb; discriminate ]
  end.

(** X2.  In a lexicon that [fromstring] returns, a category holds at most
    one unification variable: all variables of a word's category are the
    same one, and all variables of a family's category are the variable
    stored with the family. *)
Theorem one_variable_per_category lex_str n lex n' :
  fromstring lex_str n = Return (lex, n') ->
  (forall w c x y,
      In c (fst (categories lex w)) ->
      In x (cat_vars c) -> In y (cat_vars c) -> x = y)
  /\ (forall k cat cvar x,
         _families lex !! k = Some (cat, cvar) ->
         In x (cat_vars cat) -> cvar = Some x).
Proof.
  intros Hb. split.
  - intros w c x y Hc Hx Hy.
    destruct (fromstring_categories_parsed _ _ _ _ _ _ Hb Hc) as [var (Hv & _)].
    rewrite List.Forall_forall in Hv.
    destruct (Hv x Hx) as [Ex _], (Hv y Hy) as [Ey _]. congruence.
  - intros k cat cvar x Hk Hx.
    apply fromstring_parsed in Hb as (_ & Hf & _).
    destruct (Hf _ _ _ Hk) as [(Hv & _) _].
    rewrite List.Forall_forall in Hv. now destruct (Hv x Hx).
Qed.

Lemma one_variable_per_category_witness :
  exists lex n',
    fromstring conj_text 0 = Return (lex, n')
    /\ ((forall w c x y,
            In c (fst (categories lex w)) ->
            In x (cat_vars c) -> In y (cat_vars c) -> x = y)
        /\ (forall k cat cvar x,
               _families lex !! k = Some (cat, cvar) ->
               In x (cat_vars cat) -> cvar = Some x)).
Proof. built_witness one_variable_per_category. Defined.

(** X3.  The variables of a lexicon were drawn while it was built: the
    counter never moves back, and two lexicons built one after the other
    have no variable in common. *)
Theorem successive_builds_share_no_variable s1 s2 n lex1 n1 lex2 n2 :
  fromstring s1 n = Return (lex1, n1) ->
  fromstring s2 n1 = Return (lex2, n2) ->
  n <= n1 <= n2
  /\ forall w1 c1 w2 c2 x,
       In c1 (fst (categories lex1 w1)) -> In c2 (fst (categories lex2 w2)) ->
       In x (cat_vars c1) -> ~ In x (cat_vars c2).
Proof.
  intros H1 H2. split.
  - apply fromstring_parsed in H1 as (L1 & _).
    apply fromstring_parsed in H2 as (L2 & _). lia.
  - intros w1 c1 w2 c2 x Hc1 Hc2 Hx1 Hx2.
    destruct (fromstring_categories_parsed _ _ _ _ _ _ H1 Hc1) as [v1 (Hv1 & _)].
    destruct (fromstring_categories_parsed _ _ _ _ _ _ H2 Hc2) as [v2 (Hv2 & _)].
    rewrite List.Forall_forall in Hv1, Hv2.
    destruct (Hv1 x Hx1) as [_ R1], (Hv2 x Hx2) as [_ R2]. lia.
Qed.

Lemma successive_builds_share_no_variable_witness :
  exists lex1 lex2 n2,
    fromstring conj_text 0 = Return (lex1, 1)
    /\ fromstring conj_text 1 = Return (lex2, n2)
    /\ 0 <= 1 <= n2.
Proof.
  destruct (fromstring conj_text 0) as [[lex1 n1]|e|] eqn:H1;
    [|exfalso; vm_compute in H1; discriminate
     |exfalso; vm_compute in H1; discriminate].
  assert (Hn : n1 = 1) by (vm_compute in H1; congruence). subst n1.
  destruct (fromstring conj_text 1) as [[lex2 n2]|e|] eqn:H2;
    [|exfalso; vm_compute in H2; discriminate
     |exfalso; vm_compute in H2; discriminate].
  exists lex1, lex2, n2. split; [reflexivity|]. split; [reflexivity|].
  exact (proj1 (successive_builds_share_no_variable _ _ _ _ _ _ _ H1 H2)).
Defined.

(** X4.  Every primitive category in a word's categories or in a family
    of a built lexicon names a declared primitive, the name is a
    non-empty run of letters, and each of its subscripts is a run of
    letters. *)
Theorem categories_use_declared_primitives lex_str n lex n' :
  fromstring lex_str n = Return (lex, n') ->
  (forall w c,
      In c (fst (categories lex w)) ->
      Forall (written_prim (_primitives lex)) (cat_prims c))
  /\ (forall k cat cvar,
         _families lex !! k = Some (cat, cvar) ->
         Forall (written_prim (_primitives lex)) (cat_prims cat)).
Proof.
  intros Hb. split.
  - intros w c Hc.
    destruct (fromstring_categories_parsed _ _ _ _ _ _ Hb Hc) as [var H].
    apply H.
  - intros k cat cvar Hk. apply fromstring_parsed in Hb as (_ & Hf & _).
    destruct (Hf _ _ _ Hk) as [H _]. apply H.
Qed.

Lemma categories_use_declared_primitives_witness :
  exists lex n',
    fromstring conj_text 0 = Return (lex, n')
    /\ ((forall w c,
            In c (fst (categories lex w)) ->
            Forall (written_prim (_primitives lex)) (cat_prims c))
        /\ (forall k cat cvar,
               _families lex !! k = Some (cat, cvar) ->
               Forall (written_prim (_primitives lex)) (cat_prims cat))).
Proof. built_witness categories_use_declared_primitives. Defined.

(** X5.  Every direction in a word's categories or in a family of a built
    lexicon has the slash [/] or [\] and exactly two modifiers, each
    empty, [.] or [,], the second empty when the first is. *)
Theorem directions_as_written lex_str n lex n' :
  fromstring lex_str n = Return (lex, n') ->
  (forall w c,
      In c (fst (categories lex w)) ->
      Forall written_direction (cat_directions c))
  /\ (forall k cat cvar,
         _families lex !! k = Some (cat, cvar) ->
         Forall written_direction (cat_directions cat)).
Proof.
  intros Hb. split.
  - intros w c Hc.
    destruct (fromstring_categories_parsed _ _ _ _ _ _ Hb Hc) as [var H].
    apply H.
  - intros k cat cvar Hk. apply fromstring_parsed in Hb as (_ & Hf & _).
    destruct (Hf _ _ _ Hk) as [H _]. apply H.
Qed.

Lemma directions_as_written_witness :
  exists lex n',
    fromstring conj_text 0 = Return (lex, n')
    /\ ((forall w c,
            In c (fst (categories lex w)) ->
            Forall written_direction (cat_directions c))
        /\ (forall k cat cvar,
               _families lex !! k = Some (cat, cvar) ->
               Forall written_direction (cat_directions cat))).
Proof. built_witness directions_as_written. Defined.

Lemma fromstring_for_keys lines st n st' n' :
  fromstring_for lines st n = Return (st', n') ->
  DefaultDict.keys (entries st')
  = DefaultDict.keys (entries st)
    ++ new_keys (DefaultDict.keys (entries st)) (word_idents lines).
Proof.
  revert st n; induction lines as [|l ls IH]; intros st n.
  - intros [= <- <-]. simpl. now rewrite app_nil_r.
  - rewrite fromstring_for_cons, fromstring_body_classify. simpl word_idents.
    destruct (classify l) as [|names|ident sep catstr|].
    + apply IH.
    + intros H. apply IH in H. exact H.
    + destruct (augParseCategory catstr _ _ None n) as [[[cat var] n1]|e|];
        try discriminate.
      destruct (String.eqb sep "::"); intros H; apply IH in H;
        cbn [entries] in H; [exact H|].
      rewrite H, dd_keys_append. simpl new_keys.
      destruct (existsb (String.eqb ident) (DefaultDict.keys (entries st))).
      * now rewrite app_nil_r.
      * now rewrite <- app_assoc.
    + discriminate.
Qed.

(** X6.  In a lexicon that [fromstring] returns, the keys of the word
    table are the identifiers of the word-entry lines in the order of
    their first appearance, no key occurs twice, and every key holds at
    least one category. *)
Theorem keys_in_order_of_first_entry lex_str n lex n' :
  fromstring lex_str n = Return (lex, n') ->
  DefaultDict.keys (_entries lex)
  = first_occurrences (word_idents (splitlines lex_str))
  /\ NoDup (DefaultDict.keys (_entries lex))
  /\ forall w, In w (DefaultDict.keys (_entries lex)) ->
               fst (categories lex w) <> [].
Proof.
  intros Hb. pose proof (fromstring_parsed _ _ _ _ Hb) as (_ & _ & He & Hk).
  apply fromstring_Return in Hb as (st & p0 & ps & Hfor & Hp & ->).
  cbn [_entries CCGLexicon_init] in *.
  split; [exact (fromstring_for_keys _ _ _ _ _ Hfor)|]. split; [exact Hk|].
  intros w Hw. rewrite categories_stored. cbn [_entries]. unfold stored.
  apply dd_lookup_keys in Hw.
  destruct (DefaultDict.lookup w (entries st)) as [l|] eqn:Hl; [|congruence].
  simpl. unfold parsed_table in He. rewrite List.Forall_forall in He.
  assert (Hin : In (w, l) (entries st)).
  { clear -Hl. induction (entries st) as [|[k0 l0] d IH]; [discriminate|].
    simpl in Hl. destruct (String.eqb_spec k0 w) as [->|Hne].
    - injection Hl as ->. now left.
    - right. auto. }
  destruct (He _ Hin) as [Hne _]. rewrite Hl. exact Hne.
Qed.

Lemma keys_in_order_of_first_entry_witness :
  exists lex n',
    fromstring conj_text 0 = Return (lex, n')
    /\ DefaultDict.keys (_entries lex) = ["and"; "the"; "dog"].
Proof.
  destruct (fromstring conj_text 0) as [[lex n']|e|] eqn:Hb;
    [|exfalso; vm_compute in Hb; discriminate
     |exfalso; vm_compute in Hb; discriminate].
  exists lex, n'. split; [reflexivity|].
  rewrite (proj1 (keys_in_order_of_first_entry _ _ _ _ Hb)).
  vm_compute. reflexivity.
Defined.

End BuiltLexicon.

(** ** The debug rendering *)

Section Rendering.

Variable str_cat : Category -> string.

Lemma concat_cons_sep (sep x : string) (xs : list string) :
  String.concat sep (x :: xs)
  = x +:+ String.concat "" (map (fun y => sep +:+ y) xs).
Proof.
  revert x; induction xs as [|y ys IH]; intros x.
  - simpl. now rewrite append_nil_r.
  - change (String.concat sep (x :: y :: ys))
      with (x +:+ sep +:+ String.concat sep (y :: ys)).
    rewrite IH. cbn [map].
    change (String.concat "" ((sep +:+ y) :: map (fun y0 => sep +:+ y0) ys))
      with (match map (fun y0 => sep +:+ y0) ys with
            | [] => sep +:+ y
            | _ :: _ => (sep +:+ y) +:+ "" +:+
                        String.concat "" (map (fun y0 => sep +:+ y0) ys)
            end).
    destruct ys as [|z zs]; simpl map.
    + simpl. now rewrite append_nil_r.
    + cbn [String.concat]. now rewrite append_nil_l, !append_assoc.
Qed.

Lemma str_inner_rest (l : list Category) (s : string) :
  fold_left (str_inner str_cat) l (s, false)
  = (s +:+ String.concat "" (map (fun c => " | " +:+ str_cat c) l), false).
Proof.
  revert s; induction l as [|c l IH]; intros s.
  - simpl. now rewrite append_nil_r.
  - cbn [fold_left str_inner negb]. rewrite IH. f_equal.
    rewrite !append_assoc. f_equal.
    change (map (fun c0 => " | " +:+ str_cat c0) (c :: l))
      with ((" | " +:+ str_cat c) :: map (fun c0 => " | " +:+ str_cat c0) l).
    rewrite (concat_cons_sep "" (" | " +:+ str_cat c)).
    rewrite !append_assoc. do 2 f_equal.
    f_equal. rewrite map_map. apply map_ext. reflexivity.
Qed.

Lemma str_inner_first (c : Category) (l : list Category) (s : string) :
  fold_left (str_inner str_cat) (c :: l) (s, true)
  = (s +:+ String.concat " | " (map str_cat (c :: l)), false).
Proof.
  cbn [fold_left str_inner negb]. rewrite str_inner_rest.
  cbn [map]. rewrite concat_cons_sep, map_map, append_assoc. reflexivity.
Qed.

Lemma str_outer_nonempty (e : string * list Category) (s : string) (first : bool) :
  snd e <> [] ->
  str_outer str_cat (s, first) e
  = ((if first then s else s +:+ newline) +:+ render_entry str_cat e, false).
Proof.
  destruct e as [k [|c l]]; [contradiction|]. intros _.
  unfold str_outer, render_entry. cbn [fst snd].
  rewrite str_inner_first. destruct first; cbn [negb];
    now rewrite !append_assoc.
Qed.

Lemma str_outer_rest (es : list (string * list Category)) (s : string) :
  Forall (fun e => snd e <> []) es ->
  fold_left (str_outer str_cat) es (s, false)
  = (s +:+ String.concat ""
             (map (fun e => newline +:+ render_entry str_cat e) es), false).
Proof.
  intros H; revert s; induction H as [|e es He _ IH]; intros s.
  - simpl. now rewrite append_nil_r.
  - cbn [fold_left]. rewrite (str_outer_nonempty e s false He), IH. f_equal.
    rewrite !append_assoc. f_equal.
    change (map (fun e0 => newline +:+ render_entry str_cat e0) (e :: es))
      with ((newline +:+ render_entry str_cat e)
              :: map (fun e0 => newline +:+ render_entry str_cat e0) es).
    rewrite (concat_cons_sep "" (newline +:+ render_entry str_cat e)).
    rewrite !append_assoc. do 2 f_equal.
    f_equal. rewrite map_map. apply map_ext. reflexivity.
Qed.

(** X7.  When every word of the table holds at least one category, as in
    a lexicon fresh from [fromstring], [__str__] is the lines
    [word => cat | cat | ...] of the words in table order, joined by
    newlines. *)
Theorem str_joins_entry_lines (lex : CCGLexicon) :
  Forall (fun e => snd e <> []) (_entries lex) ->
  CCGLexicon_str str_cat lex
  = String.concat newline (map (render_entry str_cat) (_entries lex)).
Proof.
  unfold CCGLexicon_str. destruct (_entries lex) as [|e es]; [reflexivity|].
  intros H. inversion H as [|? ? He Hes]; subst.
  cbn [fold_left]. rewrite (str_outer_nonempty e "" true He).
  rewrite str_outer_rest by exact Hes. cbn [fst map].
  rewrite concat_cons_sep, map_map, append_nil_l. reflexivity.
Qed.

End Rendering.

Lemma str_joins_entry_lines_witness :
  CCGLexicon_str (fun _ => "C")
    (CCGLexicon_init "S" ["S"] ∅
       [("the", [prim "S"; prim "S"]); ("dog", [prim "S"])])
  = "the => C | C" +:+ newline +:+ "dog => C".
Proof.
  apply (str_joins_entry_lines (fun _ => "C")
           (CCGLexicon_init "S" ["S"] ∅
              [("the", [prim "S"; prim "S"]); ("dog", [prim "S"])])).
  repeat constructor; discriminate.
Defined.

Section RenderingAfterLookup.

Variable str_cat : Category -> string.

Lemma str_outer_fold_nonempty (es : list (string * list Category)) :
  Forall (fun e => snd e <> []) es ->
  fold_left (str_outer str_cat) es ("", true)
  = (String.concat newline (map (render_entry str_cat) es),
     match es with [] => true | _ :: _ => false end).
Proof.
  destruct es as [|e es]; [reflexivity|].
  intros H. inversion H as [|? ? He Hes]; subst.
  cbn [fold_left]. rewrite (str_outer_nonempty str_cat e "" true He).
  rewrite str_outer_rest by exact Hes. f_equal.
  cbn [map]. rewrite concat_cons_sep, map_map, append_nil_l. reflexivity.
Qed.

(** X8.  Looking up a word that has no key changes the rendering of a
    lexicon whose words all hold categories: the line [word => ] with no
    category is added at the end, after a newline when the table was not
    empty.  Looking up a word that has a key changes nothing. *)
Theorem str_after_categories (lex : CCGLexicon) (w : string) :
  Forall (fun e => snd e <> []) (_entries lex) ->
  CCGLexicon_str str_cat (snd (categories lex w))
  = if existsb (String.eqb w) (DefaultDict.keys (_entries lex))
    then CCGLexicon_str str_cat lex
    else CCGLexicon_str str_cat lex
         +:+ (match _entries lex with [] => "" | _ :: _ => newline end)
         +:+ w +:+ " => ".
Proof.
  intros H. rewrite dd_lookup_existsb.
  unfold CCGLexicon_str at 1. unfold categories, DefaultDict.getitem.
  destruct (DefaultDict.lookup w (_entries lex)) as [l|] eqn:Hl;
    cbn [snd _entries]; [reflexivity|].
  rewrite fold_left_app. unfold CCGLexicon_str.
  rewrite (str_outer_fold_nonempty _ H). cbn [fold_left fst].
  unfold str_outer. cbn [fst snd fold_left].
  destruct (_entries lex); cbn [negb]; now rewrite ?append_assoc, ?append_nil_r.
Qed.

End RenderingAfterLookup.

Lemma str_after_categories_witness :
  CCGLexicon_str (fun _ => "C")
    (snd (categories (CCGLexicon_init "S" ["S"] ∅ [("dog", [prim "S"])]) "zzz"))
  = "dog => C" +:+ newline +:+ "zzz => ".
Proof.
  apply (str_after_categories (fun _ => "C")
           (CCGLexicon_init "S" ["S"] ∅ [("dog", [prim "S"])]) "zzz").
  repeat constructor; discriminate.
Defined.

(** ** Lines: declarations, comments, blanks *)

Section Lines.

(** X9.  A source without primitive declaration never yields a lexicon:
    [fromstring] raises, and when every line is processed without error
    the exception is the [IndexError] of [primitives[0]]. *)
Theorem no_declaration_no_lexicon lex_str n :
  declared (splitlines lex_str) = [] ->
  (exists e, fromstring lex_str n = Raise e)
  /\ (forall st n',
         fromstring_for (splitlines lex_str) init_locals n = Return (st, n') ->
         fromstring lex_str n = Raise IndexError).
Proof.
  intros Hd. rewrite fromstring_unfold.
  pose proof (fromstring_for_total (splitlines lex_str) init_locals n) as Ht.
  destruct (fromstring_for (splitlines lex_str) init_locals n)
    as [[st n1]|e|] eqn:Hfor; [|split; [eauto | discriminate] | congruence].
  apply fromstring_for_primitives in Hfor. rewrite Hd in Hfor. simpl in Hfor.
  rewrite Hfor. split; [eauto | reflexivity].
Qed.

Lemma no_declaration_no_lexicon_witness :
  fromstring (text ["# no primitives"; "x => var/var"]) 0 = Raise IndexError.
Proof.
  exact (proj2 (no_declaration_no_lexicon
                  (text ["# no primitives"; "x => var/var"]) 0 eq_refl)
           _ _ eq_refl).
Defined.

Lemma all_append (p : ascii -> bool) (a b : string) :
  all p (a +:+ b) = all p a && all p b.
Proof.
  induction a as [|c a IH]; [reflexivity|].
  rewrite append_cons. simpl. rewrite IH. now rewrite andb_assoc.
Qed.

Lemma clean_comment_cut (a b : string) :
  all not_hash a = true -> clean (a +:+ "#" +:+ b) = clean a.
Proof.
  intros Ha. unfold clean.
  change (fun c => negb (Ascii.eqb c "#")) with not_hash.
  rewrite (span_all not_hash a ("#" +:+ b) Ha eq_refl).
  pose proof (span_all not_hash a "" Ha I) as H. rewrite append_nil_r in H.
  now rewrite H.
Qed.

(** X10.  What follows the first [#] of a line is ignored: the loop body
    does to the line with the comment what it does to the text before
    the [#]. *)
Theorem comment_is_ignored (a b : string) (st : locals) (n : nat) :
  all not_hash a = true ->
  fromstring_body (a +:+ "#" +:+ b) st n = fromstring_body a st n.
Proof.
  intros Ha. rewrite !fromstring_body_classify. unfold classify.
  now rewrite clean_comment_cut.
Qed.

Lemma comment_is_ignored_witness :
  fromstring_body "cat => N[sg]   # a comment" (mkLocals ["N"] ∅ []) 0
  = fromstring_body "cat => N[sg]   " (mkLocals ["N"] ∅ []) 0.
Proof.
  exact (comment_is_ignored "cat => N[sg]   " " a comment"
           (mkLocals ["N"] ∅ []) 0 eq_refl).
Defined.

Lemma fromstring_body_blank line st n :
  is_blank line = true -> fromstring_body line st n = Return (st, n).
Proof.
  intros H. rewrite fromstring_body_classify. unfold classify.
  unfold is_blank in H. now rewrite H.
Qed.

Lemma fromstring_for_skip_blank (lines : list string) (st : locals) (n : nat) :
  fromstring_for lines st n
  = fromstring_for (List.filter (fun l => negb (is_blank l)) lines) st n.
Proof.
  revert st n; induction lines as [|l ls IH]; intros st n; [reflexivity|].
  cbn [List.filter]. destruct (is_blank l) eqn:Hb; cbn [negb].
  - rewrite fromstring_for_cons, (fromstring_body_blank _ _ _ Hb). apply IH.
  - rewrite !fromstring_for_cons.
    destruct (fromstring_body l st n) as [[st1 n1]|e|]; auto.
Qed.

Lemma splitlines_cons_line (l rest : string) :
  all not_linebreak l = true ->
  splitlines (l +:+ String LF rest)
  = l :: match rest with EmptyString => [] | _ => splitlines rest end.
Proof.
  induction l as [|c l IH]; intros Hl.
  - rewrite append_nil_l. cbn [splitlines].
    replace (is_linebreak LF) with true by reflexivity.
    destruct rest as [|c' rest']; [reflexivity|].
    replace (Ascii.eqb LF CR && Ascii.eqb c' LF) with false by reflexivity.
    reflexivity.
  - simpl in Hl. apply andb_prop in Hl as [Hc Hl].
    rewrite append_cons. cbn [splitlines].
    unfold not_linebreak in Hc. apply negb_true_iff in Hc. rewrite Hc.
    rewrite (IH Hl). reflexivity.
Qed.

Lemma splitlines_one_line (l : string) :
  all not_linebreak l = true -> l <> "" -> splitlines l = [l].
Proof.
  induction l as [|c l IH]; [contradiction|]. intros Hl _.
  simpl in Hl. apply andb_prop in Hl as [Hc Hl].
  cbn [splitlines]. unfold not_linebreak in Hc. apply negb_true_iff in Hc.
  rewrite Hc. destruct l as [|c' l']; [reflexivity|].
  rewrite IH; [reflexivity | exact Hl | discriminate].
Qed.

(** The loop over the lines of a text given by its lines is the loop
    over these lines; a last line that is empty is not a line of the
    text, and is skipped by the loop. *)
Lemma fromstring_for_text (lines : list string) (st : locals) (n : nat) :
  Forall (fun l => all not_linebreak l = true) lines ->
  fromstring_for (splitlines (text lines)) st n = fromstring_for lines st n.
Proof.
  intros H. revert st n. induction H as [|l ls Hl Hls IH]; intros st n;
    [reflexivity|].
  destruct ls as [|l' ls'].
  - cbn [text String.concat]. destruct l as [|c l]; [reflexivity|].
    rewrite splitlines_one_line; [reflexivity | exact Hl | discriminate].
  - unfold text in *.
    change (String.concat (String LF "") (l :: l' :: ls'))
      with (l +:+ String LF (String.concat (String LF "") (l' :: ls'))).
    rewrite (splitlines_cons_line _ _ Hl).
    assert (E : match String.concat (String LF "") (l' :: ls') with
                | EmptyString => []
                | String _ _ =>
                    splitlines (String.concat (String LF "") (l' :: ls'))
                end = splitlines (String.concat (String LF "") (l' :: ls'))).
    { destruct (String.concat (String LF "") (l' :: ls')); reflexivity. }
    rewrite E, !fromstring_for_cons.
    destruct (fromstring_body l st n) as [[st1 n1]|e|]; try reflexivity.
    apply IH.
Qed.

(** X11.  Blank lines and lines that hold only a comment do not matter:
    the loop over a list of lines gives what the loop over its other
    lines gives, and a source text gives the lexicon, or the exception,
    of the text without these lines. *)
Theorem blank_lines_are_skipped (lines : list string) (n : nat) :
  (forall st,
      fromstring_for lines st n
      = fromstring_for (List.filter (fun l => negb (is_blank l)) lines) st n)
  /\ (Forall (fun l => all not_linebreak l = true) lines ->
      fromstring (text lines) n
      = fromstring (text (List.filter (fun l => negb (is_blank l)) lines)) n).
Proof.
  split; [intros st; apply fromstring_for_skip_blank|].
  intros H. rewrite !fromstring_unfold.
  rewrite (fromstring_for_text lines _ _ H).
  rewrite fromstring_for_text.
  - now rewrite <- fromstring_for_skip_blank.
  - rewrite List.Forall_forall in *. intros l Hl.
    apply List.filter_In in Hl as [Hl _]. auto.
Qed.

Lemma blank_lines_are_skipped_witness :
  fromstring (text [":- S"; ""; "   # words"; "dog => S"; ""]) 0
  = fromstring (text [":- S"; "dog => S"]) 0.
Proof.
  refine (proj2 (blank_lines_are_skipped
                   [":- S"; ""; "   # words"; "dog => S"; ""] 0) _).
  repeat constructor.
Defined.

End Lines.

(** ** Tokens and groups *)

Section Groups.

Lemma span_all_whole (p : ascii -> bool) (s : string) :
  all p s = true -> span p s = (s, "").
Proof.
  intros H. pose proof (span_all p s "" H I) as E.
  now rewrite append_nil_r in E.
Qed.

Lemma closing_balance (d : nat) (t : string) (i : nat) :
  closing d t = Some i ->
  balance d (take i t) = Some 0 /\ take (i + 1) t = take i t +:+ ")".
Proof.
  revert d i; induction t as [|c t IH]; intros d i; [discriminate|].
  cbn [closing]. destruct (Ascii.eqb c ")") eqn:Hc.
  - apply Ascii.eqb_eq in Hc as ->. destruct d as [|d].
    + intros [= <-]. split; reflexivity.
    + destruct (closing d t) as [j|] eqn:Hj; [|discriminate].
      intros [= <-]. destruct (IH _ _ Hj) as [Hb Ht].
      cbn [take Nat.add balance]. rewrite Ascii.eqb_refl, append_cons, <- Ht.
      split; [exact Hb | reflexivity].
  - destruct (Ascii.eqb c "(") eqn:Ho.
    + destruct (closing (S d) t) as [j|] eqn:Hj; [|discriminate].
      intros [= <-]. destruct (IH _ _ Hj) as [Hb Ht].
      cbn [take Nat.add balance]. rewrite Hc, Ho, append_cons, <- Ht.
      split; [exact Hb | reflexivity].
    + destruct (closing d t) as [j|] eqn:Hj; [|discriminate].
      intros [= <-]. destruct (IH _ _ Hj) as [Hb Ht].
      cbn [take Nat.add balance]. rewrite Hc, Ho, append_cons, <- Ht.
      split; [exact Hb | reflexivity].
Qed.

Lemma matchBrackets_Return (s inside rest : string) :
  matchBrackets s = Return (inside, rest) ->
  exists body,
    inside = "(" +:+ body +:+ ")"
    /\ balanced body
    /\ tail s = body +:+ ")" +:+ rest.
Proof.
  rewrite matchBrackets_unfold.
  pose proof (length_tail_le s) as Hlen.
  pose proof (matchBrackets_while_spec (2 * String.length s + 1) s "(" (tail s)
                ltac:(lia)) as H.
  destruct (closing 0 (tail s)) as [i|] eqn:Hi;
    [|destruct H as [str' ->]; discriminate].
  rewrite H. intros [= <- <-].
  destruct (closing_balance _ _ _ Hi) as [Hb Ht].
  exists (take i (tail s)). rewrite Ht. split; [reflexivity|].
  split; [exact Hb|].
  rewrite <- append_assoc, <- Ht. symmetry. apply take_drop.
Qed.

(** X12.  Whatever its first character, the group that [matchBrackets]
    returns is ["("], a text whose brackets are balanced, and [")"]; the
    characters after the first one of the input are that text, the [")"]
    and the returned rest, and the slice [[1:-1]] that the parser takes
    of the group is the balanced text. *)
Theorem matchBrackets_group_balanced (s inside rest : string) :
  matchBrackets s = Return (inside, rest) ->
  exists body,
    inside = "(" +:+ body +:+ ")"
    /\ balanced body
    /\ tail s = body +:+ ")" +:+ rest
    /\ slice_1_m1 inside = body.
Proof.
  intros H. destruct (matchBrackets_Return _ _ _ H) as (body & -> & Hb & Ht).
  exists body. repeat split; try assumption.
  unfold slice_1_m1. cbn [append tail]. apply init_append_char.
Qed.

Lemma matchBrackets_group_balanced_witness :
  exists body,
    "((S\NP)/NP)" = "(" +:+ body +:+ ")"
    /\ balanced body
    /\ tail "((S\NP)/NP)/N" = body +:+ ")" +:+ "/N"
    /\ slice_1_m1 "((S\NP)/NP)" = body.
Proof.
  exact (matchBrackets_group_balanced "((S\NP)/NP)/N" "((S\NP)/NP)" "/N"
           eq_refl).
Defined.

Lemma NEXTPRIM_RE_match_parts (s g1 g2 : string) :
  NEXTPRIM_RE_match s = Some (g1, g2) ->
  exists dropped,
    s = g1 +:+ g2 +:+ dropped /\ (all is_dot s = true -> dropped = "").
Proof.
  unfold NEXTPRIM_RE_match.
  pose proof (span_append is_alpha s) as Hs.
  destruct (span is_alpha s) as [name r0]; simpl in Hs.
  destruct name as [|a name]; [discriminate|].
  pose proof (opt_subscript_append r0) as Ho.
  destruct (opt_subscript r0) as [sub r1]; simpl in Ho.
  intros [= <- <-].
  exists (snd (span is_dot r1)). split.
  - rewrite append_assoc, span_append, Ho. now symmetry.
  - intros Hall. rewrite <- Hs, <- Ho, !all_append in Hall.
    apply andb_prop in Hall as [_ Hall]. apply andb_prop in Hall as [_ Hall].
    now rewrite (span_all_whole _ _ Hall).
Qed.

(** X13.  [nextCategory] cuts a non-empty token off the front of its
    argument: the argument is the token, the returned rest and a part that
    is dropped, and nothing is dropped when the argument holds no
    newline. *)
Theorem nextCategory_cuts_token (s cs rest : string) :
  nextCategory s = Return (cs, rest) ->
  cs <> ""
  /\ exists dropped,
       s = cs +:+ rest +:+ dropped /\ (all is_dot s = true -> dropped = "").
Proof.
  intros H. split.
  { apply nextCategory_length in H as [H _]. intros ->. simpl in H. lia. }
  unfold nextCategory in H. destruct (startswith s "(") eqn:Hs.
  - apply startswith_char in Hs as [s' ->].
    destruct (matchBrackets_Return _ _ _ H) as (body & -> & _ & Ht).
    cbn [tail] in Ht. subst s'. exists "". split; [|reflexivity].
    rewrite append_nil_r, !append_assoc. reflexivity.
  - destruct (NEXTPRIM_RE_match s) as [[g1 g2]|] eqn:E; [|discriminate].
    injection H as <- <-. eauto using NEXTPRIM_RE_match_parts.
Qed.

Lemma nextCategory_cuts_token_witness :
  "NP[sg]" <> ""
  /\ exists dropped,
       "NP[sg]/N" = "NP[sg]" +:+ "/N" +:+ dropped
       /\ (all is_dot "NP[sg]/N" = true -> dropped = "").
Proof. exact (nextCategory_cuts_token "NP[sg]/N" "NP[sg]" "/N" eq_refl). Defined.

Lemma prefix_drop (p s : string) :
  String.prefix p s = true -> s = p +:+ drop (String.length p) s.
Proof.
  revert s; induction p as [|c p IH]; intros s H; [reflexivity|].
  destruct s as [|x s]; [discriminate|]. simpl in H.
  destruct (ascii_dec c x) as [->|]; [|discriminate].
  rewrite append_cons. cbn [String.length drop]. now rewrite <- IH.
Qed.

Lemma separator_parts (s sep rest : string) :
  separator s = Some (sep, rest) -> is_separator sep /\ s = sep +:+ rest.
Proof.
  unfold separator. destruct (startswith s "::") eqn:Hp.
  - intros [= <- <-]. split; [now left|]. now apply prefix_drop in Hp.
  - change (fun c => Ascii.eqb c "-" || Ascii.eqb c "=") with is_arrow_char.
    pose proof (span_append is_arrow_char s) as Hs.
    pose proof (span_all_fst is_arrow_char s) as Hall.
    destruct (span is_arrow_char s) as [run after]; simpl in Hs, Hall.
    destruct run as [|r run]; [discriminate|].
    destruct after as [|c after]; [discriminate|].
    destruct (Ascii.eqb c ">") eqn:Hc; [|discriminate].
    apply Ascii.eqb_eq in Hc as ->. intros [= <- <-]. split.
    + right. exists (String r run). repeat split; [discriminate | exact Hall].
    + rewrite append_assoc. now symmetry.
Qed.

Lemma dot_plus_parts (s g : string) :
  dot_plus s = Some g ->
  g <> "" /\ all is_dot g = true
  /\ exists dropped, s = g +:+ dropped /\ (all is_dot s = true -> dropped = "").
Proof.
  unfold dot_plus.
  pose proof (span_append is_dot s) as Hs.
  pose proof (span_all_fst is_dot s) as Hall.
  destruct (span is_dot s) as [a b] eqn:E; simpl in Hs, Hall.
  destruct a as [|x a]; [discriminate|]. intros [= <-].
  split; [discriminate|]. split; [exact Hall|].
  exists b. split; [now symmetry|].
  intros H. rewrite (span_all_whole _ _ H) in E. congruence.
Qed.

Lemma spaces_dot_plus_parts (s g : string) :
  spaces_dot_plus s = Some g ->
  g <> "" /\ all is_dot g = true
  /\ exists sp dropped,
       all is_space sp = true /\ s = sp +:+ g +:+ dropped
       /\ (all is_dot s = true -> dropped = "").
Proof.
  revert g; induction s as [|c s IH]; intros g; [discriminate|].
  assert (Hplain : dot_plus (String c s) = Some g ->
    g <> "" /\ all is_dot g = true
    /\ exists sp dropped,
         all is_space sp = true /\ String c s = sp +:+ g +:+ dropped
         /\ (all is_dot (String c s) = true -> dropped = "")).
  { intros H. apply dot_plus_parts in H as (H1 & H2 & dropped & H3 & H4).
    split; [exact H1|]. split; [exact H2|].
    exists "", dropped. split; [reflexivity|]. now rewrite append_nil_l. }
  cbn [spaces_dot_plus]. destruct (is_space c) eqn:Hc; [|exact Hplain].
  destruct (spaces_dot_plus s) as [g'|] eqn:Hs; [|exact Hplain].
  intros [= <-]. destruct (IH _ eq_refl) as (H1 & H2 & sp & dropped & H3 & H4 & H5).
  split; [exact H1|]. split; [exact H2|].
  exists (String c sp), dropped. split; [simpl; now rewrite Hc, H3|].
  split; [now rewrite append_cons, <- H4|].
  intros H. simpl in H. apply andb_prop in H as [_ H]. auto.
Qed.

(** X14.  The groups of a LEX_RE match: an identifier of word characters,
    a separator that is [::] or a run of [-] and [=] closed by [>], and a
    category text without newline, none of them empty; the line is these
    three, with blanks between them and a dropped end that is empty when
    the line holds no newline. *)
Theorem LEX_RE_groups (s ident sep catstr : string) :
  LEX_RE_match s = Some (ident, sep, catstr) ->
  (ident <> "" /\ all is_word ident = true)
  /\ is_separator sep
  /\ (catstr <> "" /\ all is_dot catstr = true)
  /\ exists sp1 sp2 dropped,
       all is_space sp1 = true /\ all is_space sp2 = true
       /\ s = ident +:+ sp1 +:+ sep +:+ sp2 +:+ catstr +:+ dropped
       /\ (all is_dot s = true -> dropped = "").
Proof.
  unfold LEX_RE_match.
  pose proof (span_append is_word s) as Hs.
  pose proof (span_all_fst is_word s) as Hw.
  destruct (span is_word s) as [id s1]; simpl in Hs, Hw.
  destruct id as [|x id]; [discriminate|].
  pose proof (span_append is_space s1) as Hs1.
  pose proof (span_all_fst is_space s1) as Hsp1.
  destruct (span is_space s1) as [sp1 s1']; simpl in Hs1, Hsp1 |- *.
  destruct (separator s1') as [[sep' s2]|] eqn:Hsep; [|discriminate].
  destruct (spaces_dot_plus s2) as [g|] eqn:Hg; [|discriminate].
  intros [= <- <- <-].
  apply separator_parts in Hsep as [Hsep Hs1'].
  apply spaces_dot_plus_parts in Hg as (G1 & G2 & sp2 & dropped & G3 & G4 & G5).
  split; [split; [discriminate | exact Hw]|].
  split; [exact Hsep|]. split; [split; assumption|].
  exists sp1, sp2, dropped. split; [exact Hsp1|]. split; [exact G3|].
  split.
  - rewrite <- G4, <- Hs1', Hs1. now symmetry.
  - intros H. apply G5. rewrite <- Hs, <- Hs1, Hs1', !all_append in H.
    apply andb_prop in H as [_ H]. apply andb_prop in H as [_ H].
    apply andb_prop in H as [_ H]. exact H.
Qed.

Lemma LEX_RE_groups_witness :
  ("the" <> "" /\ all is_word "the" = true)
  /\ is_separator "=>"
  /\ ("NP[sg]/N[sg]" <> "" /\ all is_dot "NP[sg]/N[sg]" = true)
  /\ exists sp1 sp2 dropped,
       all is_space sp1 = true /\ all is_space sp2 = true
       /\ "the  => NP[sg]/N[sg]"
          = "the" +:+ sp1 +:+ "=>" +:+ sp2 +:+ "NP[sg]/N[sg]" +:+ dropped
       /\ (all is_dot "the  => NP[sg]/N[sg]" = true -> dropped = "").
Proof.
  exact (LEX_RE_groups "the  => NP[sg]/N[sg]" "the" "=>" "NP[sg]/N[sg]"
           eq_refl).
Defined.

End Groups.

(** ** Declared names *)

Section DeclaredNames.

Lemma all_lstrip (p : ascii -> bool) (s : string) :
  all p s = true -> all p (lstrip s) = true.
Proof.
  induction s as [|c s IH]; [reflexivity|]. intros H. cbn [lstrip].
  destruct (is_space c); [|exact H].
  simpl in H. apply andb_prop in H as [_ H]. auto.
Qed.

Lemma all_rstrip (p : ascii -> bool) (s : string) :
  all p s = true -> all p (rstrip s) = true.
Proof.
  induction s as [|c s IH]; [reflexivity|]. intros H. cbn [rstrip].
  simpl in H. apply andb_prop in H as [Hc H].
  destruct (String.eqb (rstrip s) "" && is_space c); [reflexivity|].
  simpl. now rewrite Hc, IH.
Qed.

Lemma all_strip (p : ascii -> bool) (s : string) :
  all p s = true -> all p (strip s) = true.
Proof. intros H. unfold strip. now apply all_rstrip, all_lstrip. Qed.

Lemma all_drop (p : ascii -> bool) (k : nat) (s : string) :
  all p s = true -> all p (drop k s) = true.
Proof.
  revert s; induction k as [|k IH]; intros [|c s] H; try exact H.
  simpl in H. apply andb_prop in H as [_ H]. now apply IH.
Qed.

Lemma all_split (p : ascii -> bool) (sep : ascii) (s : string) :
  all p s = true -> Forall (fun x => all p x = true) (split sep s).
Proof.
  induction s as [|c s IH]; intros H; [repeat constructor|].
  simpl in H. apply andb_prop in H as [Hc H]. specialize (IH H).
  cbn [split]. destruct (Ascii.eqb c sep); [now constructor|].
  destruct (split sep s) as [|h t]; [repeat constructor; simpl; now rewrite Hc|].
  inversion IH; subst. constructor; [simpl; now rewrite Hc | assumption].
Qed.

Lemma split_without_sep (sep : ascii) (s : string) :
  Forall (fun x => all (fun c => negb (Ascii.eqb c sep)) x = true)
    (split sep s).
Proof.
  induction s as [|c s IH]; [repeat constructor|].
  cbn [split]. destruct (Ascii.eqb c sep) eqn:Hc; [now constructor|].
  destruct (split sep s) as [|h t]; [repeat constructor; simpl; now rewrite Hc|].
  inversion IH; subst. constructor; [simpl; now rewrite Hc | assumption].
Qed.

Lemma rstrip_idem (s : string) : rstrip (rstrip s) = rstrip s.
Proof.
  induction s as [|c s IH]; [reflexivity|]. cbn [rstrip].
  destruct (String.eqb (rstrip s) "" && is_space c) eqn:E; [reflexivity|].
  cbn [rstrip]. now rewrite IH, E.
Qed.

Lemma lstrip_head (s : string) :
  match lstrip s with
  | EmptyString => True
  | String c _ => is_space c = false
  end.
Proof.
  induction s as [|c s IH]; [exact I|]. cbn [lstrip].
  destruct (is_space c) eqn:Hc; [exact IH | exact Hc].
Qed.

Lemma strip_idem (s : string) : strip (strip s) = strip s.
Proof.
  unfold strip. pose proof (lstrip_head s) as H.
  destruct (lstrip s) as [|c r]; [reflexivity|].
  cbn [rstrip]. rewrite H, andb_false_r. cbn [lstrip]. rewrite H.
  change (rstrip (String c (rstrip r)) = String c (rstrip r)).
  cbn [rstrip]. now rewrite rstrip_idem, H, andb_false_r.
Qed.

Lemma declaration_names_trimmed line names :
  classify line = Declaration names ->
  Forall (fun p => strip p = p /\ all not_comma p = true
                   /\ all not_hash p = true) names.
Proof.
  intros H. apply declaration_names in H as [-> _].
  set (body := strip (drop 2 (clean line))).
  assert (Hh : all not_hash body = true).
  { apply all_strip, all_drop. unfold clean. apply all_strip.
    apply (span_all_fst not_hash). }
  pose proof (all_split not_hash "," body Hh) as H1.
  pose proof (split_without_sep "," body) as H2.
  induction (split "," body) as [|x xs IH]; [constructor|].
  inversion H1; inversion H2; subst. constructor; [|now apply IH].
  split; [apply strip_idem|]. split; now apply all_strip.
Qed.

(** X15.  The primitive names of a built lexicon are as the declaration
    lines give them once trimmed: no name begins or ends with a blank,
    and none holds a comma or a [#]. *)
Theorem primitives_are_trimmed_names lex_str n lex n' :
  fromstring lex_str n = Return (lex, n') ->
  Forall (fun p => strip p = p /\ all not_comma p = true
                   /\ all not_hash p = true) (_primitives lex).
Proof.
  intros H. apply fromstring_Return in H as (st & p0 & ps & Hfor & _ & ->).
  apply fromstring_for_primitives in Hfor. cbn [_primitives CCGLexicon_init].
  rewrite Hfor. cbn [primitives init_locals app]. clear Hfor.
  induction (splitlines lex_str) as [|l ls IH]; [constructor|].
  cbn [declared]. destruct (classify l) as [|names| |] eqn:Hl; try exact IH.
  apply Forall_app. split; [|exact IH].
  now apply declaration_names_trimmed with (line := l).
Qed.

Lemma primitives_are_trimmed_names_witness :
  exists lex n',
    fromstring (text [":-  S , NP,N  # primitives"; "dog => N"]) 0
    = Return (lex, n')
    /\ Forall (fun p => strip p = p /\ all not_comma p = true
                        /\ all not_hash p = true) (_primitives lex).
Proof.
  destruct (fromstring (text [":-  S , NP,N  # primitives"; "dog => N"]) 0)
    as [[lex n']|e|] eqn:Hb.
  - exists lex, n'. split; [reflexivity|].
    exact (primitives_are_trimmed_names _ _ _ _ Hb).
  - exfalso. vm_compute in Hb. discriminate.
  - exfalso. vm_compute in Hb. discriminate.
Defined.

End DeclaredNames.

(** ** Termination *)

Section Termination.

(** X16.  The loops and the recursion of the module end on every input:
    [matchBrackets], [nextCategory], [augParseCategory] and [fromstring]
    return or raise, and the result of the two recursive functions is the
    same for every larger bound on the number of their steps. *)
Theorem parser_terminates :
  (forall s, matchBrackets s <> OutOfFuel)
  /\ (forall s, nextCategory s <> OutOfFuel)
  /\ (forall line prims fams var n,
         augParseCategory line prims fams var n <> OutOfFuel)
  /\ (forall lex_str n, fromstring lex_str n <> OutOfFuel)
  /\ (forall f s,
         2 * String.length s + 2 <= f -> matchBrackets_fuel f s = matchBrackets s)
  /\ (forall f line prims fams var n,
         String.length line < f ->
         augParseCategory_fuel f line prims fams var n
         = augParseCategory line prims fams var n).
Proof.
  split; [exact matchBrackets_total|].
  split; [exact nextCategory_total|].
  split; [exact augParseCategory_total|].
  split; [exact fromstring_total|].
  split; [exact matchBrackets_fuel_enough|].
  exact augParseCategory_fuel_enough.
Qed.

Lemma parser_terminates_witness :
  augParseCategory_fuel 40 "(S\NP)/NP" ["S"; "NP"] ∅ None 0
  = augParseCategory "(S\NP)/NP" ["S"; "NP"] ∅ None 0.
Proof.
  destruct parser_terminates as (_ & _ & _ & _ & _ & H).
  apply H. simpl. lia.
Defined.

End Termination.

(** ** Category texts the parser refuses *)

Section Refused.

Context (prims : list string) (fams : gmap string (Category * option nat)).

Lemma nextCategory_no_term (s : string) :
  no_term_start s -> nextCategory s = Raise (AttributeError NEXTPRIM_RE).
Proof.
  destruct s as [|c s]; [reflexivity|]. intros [Ha Hc].
  unfold nextCategory. rewrite startswith_cons.
  destruct (Ascii.eqb_spec c "("); [contradiction|].
  unfold NEXTPRIM_RE_match. cbn [span]. now rewrite Ha.
Qed.

(** X17.  A category text that is empty, or begins with a character that
    is neither a letter nor ["("], is refused with the [AttributeError]
    of [NEXTPRIM_RE.match(...).groups()]; one that begins with a ["("]
    that no [")"] closes is refused with the unmatched-bracket
    [AssertionError]. *)
Theorem category_head_refused (s : string) (var : option nat) (n : nat) :
  (no_term_start s ->
   augParseCategory s prims fams var n = Raise (AttributeError NEXTPRIM_RE))
  /\ (startswith s "(" = true -> closing 0 (tail s) = None ->
      exists str',
        augParseCategory s prims fams var n = Raise (unmatched_bracket str')).
Proof.
  unfold augParseCategory. cbn [augParseCategory_fuel]. split.
  - intros H. unfold bind at 1, lift. now rewrite (nextCategory_no_term _ H).
  - intros Hs Hc. unfold bind at 1, lift, nextCategory. rewrite Hs.
    rewrite matchBrackets_unfold.
    pose proof (length_tail_le s) as Hlen.
    pose proof (matchBrackets_while_spec (2 * String.length s + 1) s "("
                  (tail s) ltac:(lia)) as H.
    rewrite Hc in H. destruct H as [str' ->]. now exists str'.
Qed.

Lemma token_then_char name c rest :
  name <> "" -> all is_alpha name = true -> no_continuation c ->
  all is_dot rest = true ->
  let line := name +:+ String c rest in
  NEXTPRIM_RE_match line = Some (name, String c rest)
  /\ PRIM_RE_match name = Some (name, None)
  /\ startswith line "(" = false
  /\ startswith name "(" = false.
Proof.
  intros Hn Hna (Hc1 & Hc2 & Hc3 & Hc4 & Hc5) Hrest line. subst line.
  destruct (token_without_subscript name Hn Hna) as (_ & H2 & H3).
  split; [|split; [exact H2 | split; [|exact H3]]].
  - unfold NEXTPRIM_RE_match.
    rewrite (span_all is_alpha name (String c rest) Hna Hc1).
    destruct name as [|x name]; [contradiction|].
    unfold opt_subscript.
    destruct (Ascii.eqb_spec c "["); [contradiction|].
    cbn [default]. rewrite append_nil_r.
    rewrite span_all_whole; [reflexivity|].
    simpl. rewrite Hrest, andb_true_r. unfold is_dot.
    destruct (Ascii.eqb_spec c LF); [contradiction | reflexivity].
  - destruct name as [|x name]; [contradiction|].
    simpl in Hna. apply andb_prop in Hna as [Hx _].
    rewrite append_cons. now apply alpha_not_open.
Qed.

(** X18.  Only a slash may follow a term.  When [name] is a token that
    [parsePrimitiveCategory] accepts, the text [name] followed by a
    character that is no letter, no ["["], no slash and no newline, a
    blank or a [")"] for instance, is refused with the [AttributeError]
    of [APP_RE.match(...).groups()]. *)
Theorem term_must_be_followed_by_slash name c rest var n r n' :
  name <> "" -> all is_alpha name = true -> no_continuation c ->
  all is_dot rest = true ->
  parsePrimitiveCategory (name, None) prims fams var n = Return (r, n') ->
  augParseCategory (name +:+ String c rest) prims fams var n
  = Raise (AttributeError APP_RE).
Proof.
  intros Hn Hna Hc Hrest Hp.
  destruct (token_then_char name c rest Hn Hna Hc Hrest) as (H1 & H2 & H3 & H4).
  unfold augParseCategory.
  destruct name as [|x name]; [contradiction|].
  rewrite append_cons in *. cbn [String.length augParseCategory_fuel].
  unfold nextCategory. rewrite H3, H1.
  unfold bind at 1, lift. unfold parseTerm. rewrite H4, H2.
  unfold bind at 1. unfold bind at 1. unfold groups, ret.
  rewrite Hp. destruct r as [res var'].
  rewrite length_append. cbn [String.length].
  replace (String.length name + S (String.length rest))
    with (S (String.length name + String.length rest)) by lia.
  cbn [augParseCategory_while String.eqb negb].
  destruct Hc as (_ & _ & Hc3 & Hc4 & _).
  unfold APP_RE_match.
  destruct (Ascii.eqb_spec c "\"); [contradiction|].
  destruct (Ascii.eqb_spec c "/"); [contradiction|].
  reflexivity.
Qed.

End Refused.

Lemma category_head_refused_witness :
  augParseCategory "/NP" ["NP"] ∅ None 0 = Raise (AttributeError NEXTPRIM_RE)
  /\ exists str',
       augParseCategory "(S/NP" ["S"; "NP"] ∅ None 0
       = Raise (unmatched_bracket str').
Proof.
  split.
  - refine (proj1 (category_head_refused ["NP"] ∅ "/NP" None 0) _).
    split; [reflexivity | discriminate].
  - exact (proj2 (category_head_refused ["S"; "NP"] ∅ "(S/NP" None 0)
             eq_refl eq_refl).
Defined.

Lemma term_must_be_followed_by_slash_witness :
  augParseCategory "S)" ["S"] ∅ None 0 = Raise (AttributeError APP_RE).
Proof.
  assert (H1 : "S" <> "") by discriminate.
  assert (H3 : no_continuation ")").
  { repeat split; discriminate. }
  exact (term_must_be_followed_by_slash ["S"] ∅ "S" ")" "" None 0
           (prim "S", None) 0 H1 eq_refl H3 eq_refl eq_refl).
Defined.

(** ** Reading back a written category *)

Section ReadingBack.

Context (prims : list string) (fams : gmap string (Category * option nat)).

Lemma all_impl (p q : ascii -> bool) (s : string) :
  (forall c, p c = true -> q c = true) -> all p s = true -> all q s = true.
Proof.
  intros Hpq. induction s as [|c s IH]; [reflexivity|]. simpl.
  intros H. apply andb_prop in H as [Hc H]. now rewrite (Hpq _ Hc), IH.
Qed.

Lemma all_concat (p : ascii -> bool) (sep : string) (l : list string) :
  all p sep = true -> Forall (fun s => all p s = true) l ->
  all p (String.concat sep l) = true.
Proof.
  intros Hsep. induction 1 as [|x l Hx Hl IH]; [reflexivity|].
  destruct l as [|y l]; [exact Hx|].
  change (String.concat sep (x :: y :: l))
    with (x +:+ sep +:+ String.concat sep (y :: l)).
  rewrite !all_append, Hx, Hsep, IH. reflexivity.
Qed.

Lemma alpha_plain (c : ascii) : is_alpha c = true -> plain c = true.
Proof.
  intros H. unfold plain, is_dot, no_paren.
  destruct (Ascii.eqb_spec c LF) as [->|_]; [discriminate|].
  destruct (Ascii.eqb_spec c "(") as [->|_]; [discriminate|].
  destruct (Ascii.eqb_spec c ")") as [->|_]; [discriminate|].
  reflexivity.
Qed.

Lemma alpha_subscr (c : ascii) : is_alpha c = true -> is_subscr c = true.
Proof. intros H. unfold is_subscr. now rewrite H. Qed.

Lemma alpha_not_comma (c : ascii) : is_alpha c = true -> not_comma c = true.
Proof.
  intros H. unfold not_comma.
  destruct (Ascii.eqb_spec c ",") as [->|_]; [discriminate | reflexivity].
Qed.

Lemma plain_dot (c : ascii) : plain c = true -> is_dot c = true.
Proof. unfold plain. intros H. now apply andb_prop in H as [H _]. Qed.

Lemma plain_no_paren (c : ascii) : plain c = true -> no_paren c = true.
Proof. unfold plain. intros H. now apply andb_prop in H as [_ H]. Qed.

Lemma split_no_sep (sep : ascii) (x : string) :
  all (fun c => negb (Ascii.eqb c sep)) x = true -> split sep x = [x].
Proof.
  induction x as [|c x IH]; [reflexivity|]. simpl. intros H.
  apply andb_prop in H as [Hc H]. apply negb_true_iff in Hc.
  now rewrite Hc, (IH H).
Qed.

Lemma split_app (sep : ascii) (x rest : string) :
  all (fun c => negb (Ascii.eqb c sep)) x = true ->
  split sep (x +:+ String sep rest) = x :: split sep rest.
Proof.
  induction x as [|c x IH]; intros H.
  - rewrite append_nil_l. cbn [split]. now rewrite Ascii.eqb_refl.
  - simpl in H. apply andb_prop in H as [Hc H]. apply negb_true_iff in Hc.
    rewrite append_cons. cbn [split]. now rewrite Hc, (IH H).
Qed.

Lemma split_concat (subs : list string) :
  Forall (fun s => all not_comma s = true) subs -> subs <> [] ->
  split "," (String.concat "," subs) = subs.
Proof.
  induction 1 as [|x l Hx Hl IH]; [contradiction|]. intros _.
  destruct l as [|y l]; [now apply split_no_sep|].
  change (String.concat "," (x :: y :: l))
    with (x +:+ String "," (String.concat "," (y :: l))).
  rewrite (split_app "," x _ Hx), IH; [reflexivity | discriminate].
Qed.

Lemma balance_app (k : nat) (a b : string) :
  balance k (a +:+ b)
  = match balance k a with Some k' => balance k' b | None => None end.
Proof.
  revert k; induction a as [|c a IH]; intros k; [reflexivity|].
  rewrite append_cons. cbn [balance].
  destruct (Ascii.eqb c ")"); [destruct k; [reflexivity | apply IH]|].
  destruct (Ascii.eqb c "("); apply IH.
Qed.

Lemma balance_plain (k : nat) (s : string) :
  all no_paren s = true -> balance k s = Some k.
Proof.
  induction s as [|c s IH]; [reflexivity|]. simpl. intros H.
  apply andb_prop in H as [Hc H]. unfold no_paren in Hc.
  apply andb_prop in Hc as [H1 H2].
  apply negb_true_iff in H1, H2. now rewrite H1, H2, IH.
Qed.

Lemma closing_after_balance (u Z : string) :
  forall k k', balance k u = Some k' ->
  closing k (u +:+ Z) = (fun i => String.length u + i) <$> closing k' Z.
Proof.
  induction u as [|c u IH]; intros k k'.
  - intros [= <-]. rewrite append_nil_l. cbn [String.length Nat.add].
    destruct (closing k Z); reflexivity.
  - rewrite append_cons. cbn [balance closing String.length].
    destruct (Ascii.eqb c ")").
    + destruct k as [|d]; [discriminate|]. intros H.
      rewrite (IH _ _ H). destruct (closing k' Z); reflexivity.
    + destruct (Ascii.eqb c "("); intros H; rewrite (IH _ _ H);
        destruct (closing k' Z); reflexivity.
Qed.

Lemma take_append_exact (a b : string) (k : nat) :
  take (String.length a + k) (a +:+ b) = a +:+ take k b.
Proof.
  induction a as [|c a IH]; [reflexivity|].
  rewrite !append_cons. cbn [String.length Nat.add take]. now rewrite IH.
Qed.

Lemma drop_append_exact (a b : string) (k : nat) :
  drop (String.length a + k) (a +:+ b) = drop k b.
Proof.
  induction a as [|c a IH]; [reflexivity|].
  rewrite !append_cons. cbn [String.length Nat.add drop]. now rewrite IH.
Qed.

(** A bracketed balanced text is the token that [nextCategory] cuts. *)
Lemma nextCategory_bracket (u Y : string) :
  balanced u ->
  nextCategory ("(" +:+ u +:+ ")" +:+ Y) = Return ("(" +:+ u +:+ ")", Y).
Proof.
  intros Hu. unfold nextCategory.
  change ("(" +:+ u +:+ ")" +:+ Y) with (String "(" (u +:+ ")" +:+ Y)).
  rewrite startswith_cons, Ascii.eqb_refl, matchBrackets_unfold.
  set (s := String "(" (u +:+ ")" +:+ Y)).
  pose proof (matchBrackets_while_spec (2 * String.length s + 1) s "("
                (tail s) ltac:(subst s; simpl; lia)) as H.
  subst s. cbn [tail] in *.
  rewrite (closing_after_balance u (")" +:+ Y) 0 0 Hu) in H.
  change (closing 0 (")" +:+ Y)) with (Some 0) in H.
  cbn [fmap option_fmap option_map] in H. rewrite H.
  replace (String.length u + 0 + 1) with (String.length u + 1) by lia.
  rewrite take_append_exact, drop_append_exact. reflexivity.
Qed.

Lemma while_fuel f f' res var rest n :
  String.length rest < f -> String.length rest < f' ->
  augParseCategory_while f prims fams res var rest n
  = augParseCategory_while f' prims fams res var rest n.
Proof.
  intros Hf Hf'. destruct (le_ge_dec f f') as [Hle|Hge].
  - symmetry. apply (proj2 (augParseCategory_fuel_mono f)); [exact Hle|].
    now apply (proj2 (augParseCategory_fuel_total f)).
  - apply (proj2 (augParseCategory_fuel_mono f')); [exact Hge|].
    now apply (proj2 (augParseCategory_fuel_total f')).
Qed.

Lemma unparse_function res arg d :
  unparse (FunctionalCategory res arg d)
  = unparse res +:+ dir d +:+ String.concat "" (restrs d) +:+ term_text arg.
Proof. destruct arg; reflexivity. Qed.

Lemma subscripts_body (subs : list string) :
  Forall (fun s => all is_alpha s = true) subs ->
  subs <> [] -> subs <> [""] ->
  String.concat "," subs <> ""
  /\ all is_subscr (String.concat "," subs) = true
  /\ split "," (String.concat "," subs) = subs.
Proof.
  intros Hall Hne Hne'. split; [|split].
  - destruct subs as [|x [|y l]]; [contradiction| |].
    + simpl. intros ->. now apply Hne'.
    + change (String.concat "," (x :: y :: l))
        with (x +:+ String "," (String.concat "," (y :: l))).
      destruct x; discriminate.
  - apply all_concat; [reflexivity|].
    eapply Forall_impl; [exact Hall|]. intros s Hs.
    exact (all_impl _ _ s alpha_subscr Hs).
  - apply split_concat; [|exact Hne].
    eapply Forall_impl; [exact Hall|]. intros s Hs.
    exact (all_impl _ _ s alpha_not_comma Hs).
Qed.

Lemma direction_text (d : Direction) :
  written_direction d ->
  exists c m1 m2,
    (c = "/"%char \/ c = "\"%char)
    /\ d = mkDirection (String c "") [m1; m2]
    /\ is_modifier m1 /\ is_modifier m2 /\ (m1 = "" -> m2 = "")
    /\ dir d +:+ String.concat "" (restrs d) = String c (m1 +:+ m2).
Proof.
  destruct d as [sl rs]. intros [Hsl (m1 & m2 & Hrs & H1 & H2 & H12)].
  cbn [dir restrs] in *. subst rs.
  destruct Hsl as [-> | ->];
    [exists "/"%char, m1, m2 | exists "\"%char, m1, m2];
    (split; [auto|]); (split; [reflexivity|]); repeat (split; [assumption|]);
    reflexivity.
Qed.

Lemma modifier_plain (m : string) : is_modifier m -> all plain m = true.
Proof. intros [-> | [-> | ->]]; reflexivity. Qed.

Lemma leaf_plain (c : Category) (var : option nat) :
  expressible prims fams var c ->
  match c with
  | FunctionalCategory _ _ _ => True
  | _ => all plain (unparse c) = true
  end.
Proof.
  destruct c as [v|name subs|res arg d]; [reflexivity| |exact (fun _ => I)].
  intros ((_ & (_ & Hname) & Hsubs) & _ & _ & Hne'). cbn [fst snd] in *.
  cbn [unparse]. rewrite all_append.
  rewrite (all_impl _ _ name alpha_plain Hname). cbn [andb].
  destruct subs as [|x l]; [reflexivity|]. cbn [written_subscripts].
  change ("[" +:+ String.concat "," (x :: l) +:+ "]")
    with (String "[" (String.concat "," (x :: l) +:+ "]")).
  cbn [all]. rewrite all_append.
  rewrite all_concat; [reflexivity | reflexivity |].
  eapply Forall_impl; [exact Hsubs|]. intros s Hs.
  exact (all_impl _ _ s alpha_plain Hs).
Qed.

Lemma unparse_dot (c : Category) (var : option nat) :
  expressible prims fams var c -> all is_dot (unparse c) = true.
Proof.
  induction c as [v|name subs|res IHres arg IHarg d]; intros H.
  - reflexivity.
  - exact (all_impl _ _ _ plain_dot (leaf_plain _ _ H)).
  - destruct H as (Hres & Harg & Hd).
    rewrite unparse_function.
    destruct (direction_text d Hd) as (c & m1 & m2 & Hc & -> & H1 & H2 & _ & E).
    cbn [dir restrs] in *.
    rewrite <- append_assoc with (b := String.concat "" [m1; m2]).
    rewrite E. rewrite !all_append, (IHres Hres). cbn [all andb].
    rewrite all_append.
    rewrite (all_impl _ _ _ plain_dot (modifier_plain _ H1)).
    rewrite (all_impl _ _ _ plain_dot (modifier_plain _ H2)).
    assert (Hcd : is_dot c = true) by (destruct Hc as [-> | ->]; reflexivity).
    rewrite Hcd. cbn [andb].
    destruct arg as [v|name subs|res' arg' d']; cbn [term_text];
      try exact (IHarg Harg).
    change ("(" +:+ unparse (FunctionalCategory res' arg' d') +:+ ")")
      with (String "(" (unparse (FunctionalCategory res' arg' d') +:+ ")")).
    cbn [all]. rewrite all_append, (IHarg Harg). reflexivity.
Qed.

Lemma unparse_balance (c : Category) (var : option nat) :
  expressible prims fams var c -> forall k, balance k (unparse c) = Some k.
Proof.
  induction c as [v|name subs|res IHres arg IHarg d]; intros H k.
  - reflexivity.
  - apply balance_plain. exact (all_impl _ _ _ plain_no_paren (leaf_plain _ _ H)).
  - destruct H as (Hres & Harg & Hd).
    rewrite unparse_function.
    destruct (direction_text d Hd) as (c & m1 & m2 & Hc & -> & H1 & H2 & _ & E).
    cbn [dir restrs] in *.
    rewrite <- append_assoc with (b := String.concat "" [m1; m2]).
    rewrite E. rewrite balance_app, (IHres Hres), balance_app.
    rewrite (balance_plain k (String c (m1 +:+ m2))).
    2:{ cbn [all]. rewrite all_append.
        rewrite (all_impl _ _ _ plain_no_paren (modifier_plain _ H1)).
        rewrite (all_impl _ _ _ plain_no_paren (modifier_plain _ H2)).
        destruct Hc as [-> | ->]; reflexivity. }
    destruct arg as [v|name subs|res' arg' d']; cbn [term_text];
      try exact (IHarg Harg k).
    change ("(" +:+ unparse (FunctionalCategory res' arg' d') +:+ ")")
      with (String "(" (unparse (FunctionalCategory res' arg' d') +:+ ")")).
    cbn [balance]. change (Ascii.eqb "(" ")") with false.
    change (Ascii.eqb "(" "(") with true. cbn iota.
    rewrite balance_app, (IHarg Harg). reflexivity.
Qed.


Lemma opt_subscript_continuation (Y : string) :
  continuation Y -> opt_subscript Y = (None, Y).
Proof.
  intros [_ H]. destruct Y as [|c Y]; [reflexivity|].
  destruct H as [-> | ->]; reflexivity.
Qed.

Lemma token_next (name sub Y : string) :
  is_name name ->
  sub = "" \/ (exists body, sub = "[" +:+ body +:+ "]" /\ body <> ""
                            /\ all is_subscr body = true) ->
  continuation Y ->
  nextCategory ((name +:+ sub) +:+ Y) = Return (name +:+ sub, Y).
Proof.
  intros [Hne Hname] Hsub HY. unfold nextCategory.
  destruct name as [|x name]; [contradiction|].
  assert (Hx : is_alpha x = true).
  { simpl in Hname. now apply andb_prop in Hname as [Hx _]. }
  rewrite !append_cons, (alpha_not_open _ _ Hx), <- !append_cons.
  rewrite append_assoc. unfold NEXTPRIM_RE_match.
  pose proof (span_all_whole is_dot Y (proj1 HY)) as HdY.
  destruct Hsub as [-> | (body & -> & Hb & Hbody)].
  - rewrite append_nil_l, append_nil_r.
    rewrite (span_all is_alpha (String x name) Y Hname).
    + rewrite (opt_subscript_continuation Y HY), HdY. cbn [default fst].
      now rewrite append_nil_r.
    + destruct HY as [_ H]. destruct Y as [|c Y]; [exact I|].
      destruct H as [-> | ->]; reflexivity.
  - rewrite (span_all is_alpha (String x name)
               (("[" +:+ body +:+ "]") +:+ Y) Hname eq_refl).
    assert (Ho : opt_subscript (("[" +:+ body +:+ "]") +:+ Y)
                 = (Some ("[" +:+ body +:+ "]"), Y)).
    { change (("[" +:+ body +:+ "]") +:+ Y)
        with (String "[" ((body +:+ "]") +:+ Y)).
      rewrite append_assoc. unfold opt_subscript. rewrite Ascii.eqb_refl.
      change ("]" +:+ Y) with (String "]" Y).
      rewrite (span_all is_subscr body (String "]" Y) Hbody eq_refl).
      destruct body; [contradiction|]. now rewrite Ascii.eqb_refl. }
    rewrite Ho, HdY. reflexivity.
Qed.

Lemma leaf_token (c : Category) (var : option nat) (Y : string) (n : nat) :
  expressible prims fams var c ->
  match c with FunctionalCategory _ _ _ => False | _ => True end ->
  continuation Y ->
  nextCategory (unparse c +:+ Y) = Return (unparse c, Y)
  /\ forall recur,
       parseTerm recur (unparse c) prims fams var n = Return ((c, var), n).
Proof.
  destruct c as [v|name subs|res arg d]; [| |contradiction]; intros H _ HY.
  - cbn [expressible] in H. subst var. split.
    + assert (Hn : is_name "var") by (split; [discriminate | reflexivity]).
      exact (token_next "var" "" Y Hn (or_introl eq_refl) HY).
    + intros recur. reflexivity.
  - destruct H as ((Hin & Hname & Hsubs) & Hf & Hvar & Hne').
    cbn [fst snd] in *. cbn [unparse].
    destruct subs as [|s0 l].
    + cbn [written_subscripts]. split.
      * exact (token_next name "" Y Hname (or_introl eq_refl) HY).
      * intros recur. rewrite append_nil_r. unfold parseTerm.
        destruct (token_without_subscript name (proj1 Hname) (proj2 Hname))
          as (_ & H2 & H3).
        rewrite H3, H2. unfold bind, groups, ret.
        rewrite parsePrimitiveCategory_primitive; [reflexivity | | assumption..].
        left. intros ->. now apply Hvar.
    + destruct (subscripts_body (s0 :: l) Hsubs ltac:(discriminate) Hne')
        as (Hb1 & Hb2 & Hb3).
      cbn [written_subscripts]. split.
      * apply (token_next name _ Y Hname); [|exact HY]. right.
        exists (String.concat "," (s0 :: l)). auto.
      * intros recur. unfold parseTerm.
        destruct (token_with_subscript name _ (proj1 Hname) (proj2 Hname)
                    Hb1 Hb2) as (_ & H2 & H3).
        rewrite H3, H2. unfold bind, groups, ret.
        rewrite parsePrimitiveCategory_primitive;
          [ | right; discriminate | assumption..].
        now rewrite parseSubscripts_bracket, Hb3.
Qed.

Lemma term_text_next (arg : Category) (var : option nat) (Y : string) :
  expressible prims fams var arg -> continuation Y ->
  nextCategory (term_text arg +:+ Y) = Return (term_text arg, Y).
Proof.
  intros H HY.
  destruct arg as [v|name subs|res' arg' d'].
  - exact (proj1 (leaf_token _ var Y 0 H I HY)).
  - exact (proj1 (leaf_token _ var Y 0 H I HY)).
  - cbn [term_text]. rewrite !append_assoc.
    apply nextCategory_bracket. exact (unparse_balance _ _ H 0).
Qed.

Lemma term_text_no_modifier (arg : Category) (var : option nat) (Y : string) :
  expressible prims fams var arg ->
  opt_modifier (term_text arg +:+ Y) = ("", term_text arg +:+ Y).
Proof.
  intros H.
  assert (Hhead : forall x s, is_alpha x = true ->
            opt_modifier (String x s +:+ Y) = ("", String x s +:+ Y)).
  { intros x s Hx. rewrite append_cons. unfold opt_modifier.
    destruct (Ascii.eqb_spec x ".") as [->|_]; [discriminate|].
    destruct (Ascii.eqb_spec x ",") as [->|_]; [discriminate|]. reflexivity. }
  destruct arg as [v|name subs|res' arg' d']; [reflexivity| |reflexivity].
  destruct H as ((_ & (Hne & Hname) & _) & _). cbn [fst] in *.
  cbn [term_text unparse]. destruct name as [|x name]; [contradiction|].
  simpl in Hname. apply andb_prop in Hname as [Hx _].
  rewrite append_cons. now apply Hhead.
Qed.

Lemma APP_RE_match_written (sl : ascii) (m1 m2 T : string) :
  sl = "/"%char \/ sl = "\"%char ->
  is_modifier m1 -> is_modifier m2 -> (m1 = "" -> m2 = "") ->
  opt_modifier T = ("", T) -> all is_dot T = true ->
  APP_RE_match (String sl ((m1 +:+ m2) +:+ T))
  = Some (String sl "", m1, m2, T).
Proof.
  intros Hsl H1 H2 H12 HT Hdot. unfold APP_RE_match.
  assert (E : Ascii.eqb sl "\" || Ascii.eqb sl "/" = true)
    by (destruct Hsl as [-> | ->]; reflexivity).
  rewrite E. pose proof (span_all_whole is_dot T Hdot) as Hs.
  assert (Hmod : forall c X, c = "."%char \/ c = ","%char ->
            opt_modifier (String c X) = (String c "", X)).
  { intros c X [-> | ->]; reflexivity. }
  destruct H1 as [-> | [-> | ->]].
  - rewrite (H12 eq_refl), !append_nil_l, HT. cbn beta iota.
    rewrite HT. cbn beta iota. now rewrite Hs.
  - destruct H2 as [-> | [-> | ->]];
      rewrite ?append_cons, ?append_nil_l, (Hmod "."%char) by auto;
      cbn beta iota; rewrite ?append_cons, ?append_nil_l;
      rewrite ?HT, ?(Hmod "."%char), ?(Hmod ","%char) by auto;
      cbn beta iota; now rewrite Hs.
  - destruct H2 as [-> | [-> | ->]];
      rewrite ?append_cons, ?append_nil_l, (Hmod ","%char) by auto;
      cbn beta iota; rewrite ?append_cons, ?append_nil_l;
      rewrite ?HT, ?(Hmod "."%char), ?(Hmod ","%char) by auto;
      cbn beta iota; now rewrite Hs.
Qed.


Lemma slice_round (u : string) : slice_1_m1 ("(" +:+ u +:+ ")") = u.
Proof. unfold slice_1_m1. cbn [append tail]. apply init_append_char. Qed.

Lemma term_text_dot (arg : Category) (var : option nat) :
  expressible prims fams var arg -> all is_dot (term_text arg) = true.
Proof.
  intros H. pose proof (unparse_dot _ _ H) as Hd.
  destruct arg as [v|name subs|res' arg' d']; try exact Hd.
  cbn [term_text].
  change ("(" +:+ unparse (FunctionalCategory res' arg' d') +:+ ")")
    with (String "(" (unparse (FunctionalCategory res' arg' d') +:+ ")")).
  cbn [all]. now rewrite all_append, Hd.
Qed.

Lemma term_text_length (arg : Category) :
  String.length (unparse arg) <= String.length (term_text arg)
  /\ match arg with
     | FunctionalCategory _ _ _ =>
         String.length (unparse arg) + 2 = String.length (term_text arg)
     | _ => True
     end.
Proof.
  destruct arg as [v|name subs|res' arg' d']; cbn [term_text];
    [split; [lia | exact I].. |].
  change ("(" +:+ unparse (FunctionalCategory res' arg' d') +:+ ")")
    with (String "(" (unparse (FunctionalCategory res' arg' d') +:+ ")")).
  cbn [String.length]. rewrite length_append. cbn [String.length]. lia.
Qed.

(** The parser on a written category and what follows it: the loop is
    entered with the category and the continuation. *)
Lemma written_gen (c : Category) (var : option nat) :
  expressible prims fams var c ->
  forall Y n f, continuation Y -> String.length (unparse c +:+ Y) < f ->
  augParseCategory_fuel f (unparse c +:+ Y) prims fams var n
  = augParseCategory_while f prims fams c var Y n.
Proof.
  induction c as [v|name subs|res IHres arg IHarg d]; intros H Y n f HY Hf.
  1, 2: (destruct f as [|f']; [lia|];
         destruct (leaf_token _ var Y n H I HY) as [Hnext Hterm];
         cbn [augParseCategory_fuel]; rewrite Hnext; unfold bind at 1, lift;
         unfold bind at 1; rewrite Hterm;
         apply nextCategory_length in Hnext as [Hlen _];
         rewrite length_append in Hf; apply while_fuel; lia).
  destruct H as (Hres & Harg & Hd).
  destruct (direction_text d Hd)
    as (sl & m1 & m2 & Hsl & -> & H1 & H2 & H12 & _).
  pose proof (term_text_dot _ _ Harg) as HT.
  pose proof (term_text_length arg) as [HlenT HlenF].
  assert (Eline :
    unparse (FunctionalCategory res arg (mkDirection (String sl "") [m1; m2]))
    +:+ Y
    = unparse res +:+ String sl ((m1 +:+ m2) +:+ term_text arg +:+ Y)).
  { rewrite unparse_function. cbn [dir restrs String.concat].
    rewrite !append_assoc, ?append_cons, ?append_nil_l. reflexivity. }
  rewrite Eline in *. clear Eline.
  set (T := term_text arg) in *.
  assert (HY' : continuation (String sl ((m1 +:+ m2) +:+ T +:+ Y))).
  { split; [|exact Hsl]. cbn [all]. rewrite !all_append, HT, (proj1 HY).
    rewrite (all_impl _ _ _ plain_dot (modifier_plain _ H1)).
    rewrite (all_impl _ _ _ plain_dot (modifier_plain _ H2)).
    destruct Hsl as [-> | ->]; reflexivity. }
  rewrite (IHres Hres _ n f HY' Hf).
  rewrite length_append in Hf. cbn [String.length] in Hf.
  rewrite !length_append in Hf.
  destruct f as [|f']; [lia|].
  match goal with |- _ = ?r => set (R := r) end.
  cbn [augParseCategory_while String.eqb negb].
  rewrite (APP_RE_match_written sl m1 m2 (T +:+ Y) Hsl H1 H2 H12).
  2:{ subst T. now apply term_text_no_modifier with (var := var). }
  2:{ now rewrite all_append, HT, (proj1 HY). }
  unfold bind at 1, groups, ret. cbn [parseApplication].
  subst T. rewrite (term_text_next arg var Y Harg HY).
  unfold bind at 1, lift.
  assert (Hterm :
    parseTerm (fun s v => augParseCategory_fuel f' s prims fams v)
      (term_text arg) prims fams var n = Return ((arg, var), n)).
  { destruct arg as [v|name subs|res' arg' d'].
    - exact (proj2 (leaf_token _ var "" n Harg I (conj eq_refl I)) _).
    - exact (proj2 (leaf_token _ var "" n Harg I (conj eq_refl I)) _).
    - cbn [term_text]. unfold parseTerm.
      change ("(" +:+ unparse (FunctionalCategory res' arg' d') +:+ ")")
        with (String "(" (unparse (FunctionalCategory res' arg' d') +:+ ")"))
        at 1.
      rewrite startswith_cons, Ascii.eqb_refl, slice_round.
      pose proof (IHarg Harg "" n f' (conj eq_refl I)) as Hrec.
      rewrite append_nil_r in Hrec. rewrite Hrec by lia.
      destruct f' as [|f'']; [lia | reflexivity]. }
  unfold bind at 1. rewrite Hterm.
  subst R. apply while_fuel; lia.
Qed.

Lemma augParseCategory_unparse (c : Category) (var : option nat) (n : nat) :
  expressible prims fams var c ->
  augParseCategory (unparse c) prims fams var n = Return ((c, var), n).
Proof.
  intros H. unfold augParseCategory.
  pose proof (written_gen c var H "" n (S (String.length (unparse c)))
                (conj eq_refl I)) as E.
  rewrite append_nil_r in E. rewrite E by lia. reflexivity.
Qed.

(** X19.  Every category that the notation expresses is read back from
    its text: [augParseCategory] returns the category, leaves the bound
    variable as it is and draws no new one, and [parseCategory] returns
    the category.  Two such categories with the same text are therefore
    the same category. *)
Theorem written_category_is_read_back (c : Category) (var : option nat)
    (n : nat) :
  expressible prims fams var c ->
  augParseCategory (unparse c) prims fams var n = Return ((c, var), n)
  /\ (var = None -> parseCategory (unparse c) prims fams n = Return (c, n))
  /\ (forall c', expressible prims fams var c' ->
                 unparse c' = unparse c -> c' = c).
Proof.
  intros H. split; [now apply augParseCategory_unparse|]. split.
  - intros ->. unfold parseCategory, bind.
    now rewrite (augParseCategory_unparse c None n H).
  - intros c' H' E.
    pose proof (augParseCategory_unparse c' var n H') as P'.
    rewrite E, (augParseCategory_unparse c var n H) in P'. congruence.
Qed.

(** X20.  Brackets around a whole category text change nothing: when the
    brackets inside [s] are balanced, [(s)] is parsed as [s] is, to the
    same category or the same exception. *)
Theorem outer_brackets_are_redundant (s : string) (var : option nat)
    (n : nat) :
  balanced s ->
  augParseCategory ("(" +:+ s +:+ ")") prims fams var n
  = augParseCategory s prims fams var n.
Proof.
  intros Hs. unfold augParseCategory at 1.
  pose proof (nextCategory_bracket s "" Hs) as Hnext.
  rewrite append_nil_r in Hnext.
  assert (Hlen : String.length ("(" +:+ s +:+ ")") = S (S (String.length s)))
    by (rewrite append_cons, append_nil_l; cbn [String.length];
        rewrite length_append; cbn [String.length]; lia).
  rewrite Hlen. set (g := S (S (String.length s))).
  cbn [augParseCategory_fuel]. rewrite Hnext.
  unfold bind at 1, lift. unfold parseTerm.
  rewrite append_cons, startswith_cons, Ascii.eqb_refl, <- append_cons.
  rewrite slice_round. unfold bind.
  rewrite augParseCategory_fuel_enough by (subst g; lia).
  destruct (augParseCategory s prims fams var n) as [[[res var'] n']|e|];
    reflexivity.
Qed.


End ReadingBack.

Lemma written_category_is_read_back_witness :
  augParseCategory "S\NP[sg]/.(S/NP)" ["S"; "NP"] ∅ None 0
  = Return
      ((FunctionalCategory
          (FunctionalCategory (prim "S") (PrimitiveCategory "NP" ["sg"])
             (mkDirection "\" [""; ""]))
          (over (prim "S") (prim "NP"))
          (mkDirection "/" ["."; ""]), None), 0).
Proof.
  assert (HS : expressible ["S"; "NP"] ∅ None (prim "S")).
  { split; [|split; [apply lookup_empty | split; discriminate]].
    split; [simpl; tauto|]. split; [split; [discriminate | reflexivity]|].
    constructor. }
  assert (HNP : expressible ["S"; "NP"] ∅ None (prim "NP")).
  { split; [|split; [apply lookup_empty | split; discriminate]].
    split; [simpl; tauto|]. split; [split; [discriminate | reflexivity]|].
    constructor. }
  assert (HNPsg : expressible ["S"; "NP"] ∅ None
                    (PrimitiveCategory "NP" ["sg"])).
  { split; [|split; [apply lookup_empty | split; discriminate]].
    split; [simpl; tauto|]. split; [split; [discriminate | reflexivity]|].
    repeat constructor. }
  assert (Hb : written_direction (mkDirection "\" [""; ""])).
  { split; [now right|]. exists "", "".
    split; [reflexivity|]. split; [now left|]. split; [now left | auto]. }
  assert (Hf : written_direction fwd).
  { split; [now left|]. exists "", "".
    split; [reflexivity|]. split; [now left|]. split; [now left | auto]. }
  assert (Hd : written_direction (mkDirection "/" ["."; ""])).
  { split; [now left|]. exists ".", "".
    split; [reflexivity|]. split; [right; now left|].
    split; [now left | discriminate]. }
  refine (proj1 (written_category_is_read_back ["S"; "NP"] ∅
           (FunctionalCategory
              (FunctionalCategory (prim "S") (PrimitiveCategory "NP" ["sg"])
                 (mkDirection "\" [""; ""]))
              (over (prim "S") (prim "NP"))
              (mkDirection "/" ["."; ""])) None 0 _)).
  split; [split; [exact HS | split; [exact HNPsg | exact Hb]]|].
  split; [split; [exact HS | split; [exact HNP | exact Hf]] | exact Hd].
Defined.

Lemma outer_brackets_are_redundant_witness :
  augParseCategory "((S\NP)/NP)" ["S"; "NP"] ∅ None 0
  = augParseCategory "(S\NP)/NP" ["S"; "NP"] ∅ None 0.
Proof.
  exact (outer_brackets_are_redundant ["S"; "NP"] ∅ "(S\NP)/NP" None 0
           eq_refl).
Defined.

(** ** Names are looked up when the line is read *)

Section UseBeforeDeclaration.

Lemma fromstring_for_families lines st n st' n' name :
  fromstring_for lines st n = Return (st', n') ->
  ~ In name (family_idents lines) ->
  families st' !! name = families st !! name.
Proof.
  revert st n; induction lines as [|l ls IH]; intros st n.
  - now intros [= <- <-].
  - rewrite fromstring_for_cons, fromstring_body_classify.
    cbn [family_idents].
    destruct (classify l) as [|names|ident sep catstr|].
    + apply IH.
    + intros H Hn. now rewrite (IH _ _ H Hn).
    + destruct (augParseCategory catstr _ _ None n) as [[[cat var] n1]|e|];
        try discriminate.
      destruct (String.eqb sep "::"); intros H Hn.
      * rewrite (IH _ _ H); [|intros Hin; apply Hn; now right].
        cbn [families]. apply lookup_insert_ne.
        intros ->. apply Hn. now left.
      * now rewrite (IH _ _ H Hn).
    + discriminate.
Qed.

(** X21.  A name counts from the line that introduces it.  When the lines
    before a word or family line are read without error and neither
    declare the name [name] nor define a family of that name, the line
    with the category text [name] makes [fromstring] raise the
    neither-family-nor-primitive [AssertionError], whatever the lines
    after it declare. *)
Theorem name_used_before_its_line lex_str n pre l post w sep name st n1 :
  splitlines lex_str = pre ++ l :: post ->
  fromstring_for pre init_locals n = Return (st, n1) ->
  classify l = Entry w sep name ->
  is_name name -> name <> "var" ->
  ~ In name (declared pre) -> ~ In name (family_idents pre) ->
  fromstring lex_str n = Raise (neither_family_nor_primitive name).
Proof.
  intros Hsplit Hpre Hl [Hne Hall] Hvar Hd Hf.
  rewrite fromstring_unfold, Hsplit, fromstring_for_app, Hpre.
  rewrite fromstring_for_cons, fromstring_body_classify, Hl.
  destruct (token_without_subscript name Hne Hall) as (H1 & H2 & H3).
  rewrite (augParseCategory_atom _ _ _ _ _ _ H1 H2 H3).
  rewrite parsePrimitiveCategory_unknown; [reflexivity | now left | |].
  - rewrite (fromstring_for_families _ _ _ _ _ name Hpre Hf). apply lookup_empty.
  - rewrite (fromstring_for_primitives _ _ _ _ _ Hpre). exact Hd.
Qed.

Lemma name_used_before_its_line_witness :
  fromstring (text [":- S"; "dog => N"; ":- N"]) 0
  = Raise (neither_family_nor_primitive "N").
Proof.
  assert (Hn : is_name "N") by (split; [discriminate | reflexivity]).
  assert (Hv : "N" <> "var") by discriminate.
  assert (Hd : ~ In "N" (declared [":- S"])).
  { vm_compute. intros [H|[]]. discriminate. }
  assert (Hf : ~ In "N" (family_idents [":- S"])).
  { vm_compute. tauto. }
  exact (name_used_before_its_line (text [":- S"; "dog => N"; ":- N"]) 0
           [":- S"] "dog => N" [":- N"] "dog" "=>" "N"
           (mkLocals ["S"] ∅ []) 0 eq_refl eq_refl eq_refl Hn Hv Hd Hf).
Defined.

End UseBeforeDeclaration.

(** ** The flag shared by the two loops of the rendering *)

Section SharedFlag.

Variable str_cat : Category -> string.

Lemma str_outer_step (e : string * list Category) (s : string) (first : bool) :
  str_outer str_cat (s, first) e
  = (s +:+ (if first then "" else newline) +:+ render_entry str_cat e,
     match snd e with [] => true | _ :: _ => false end).
Proof.
  destruct e as [k [|c l]].
  - unfold str_outer, render_entry. cbn [fst snd fold_left String.concat map].
    destruct first; cbn [negb];
      now rewrite ?append_assoc, ?append_nil_l, ?append_nil_r.
  - rewrite str_outer_nonempty by discriminate. cbn [snd].
    destruct first; now rewrite ?append_assoc, ?append_nil_l.
Qed.

Lemma str_outer_fold (es : list (string * list Category)) :
  forall s first,
    fst (fold_left (str_outer str_cat) es (s, first))
    = s +:+ render_from str_cat first es.
Proof.
  induction es as [|e es IH]; intros s first.
  - simpl. now rewrite append_nil_r.
  - cbn [fold_left render_from]. rewrite str_outer_step, IH.
    now rewrite !append_assoc.
Qed.

(** X22.  [__str__] starts a new line for an entry only when the entry
    before it has a category.  The flag [first] is shared by the loop
    over the words and the loop over the categories of a word, so the
    line of a word without categories is not closed: what follows it is
    rendered as at the start of the table, without a newline in
    front. *)
Theorem str_newline_only_after_a_category (lex : CCGLexicon) :
  CCGLexicon_str str_cat lex = render_from str_cat true (_entries lex)
  /\ forall s p f w d,
       _entries lex = (w, []) :: d ->
       CCGLexicon_str str_cat lex
       = w +:+ " => " +:+ CCGLexicon_str str_cat (mkCCGLexicon s p f d).
Proof.
  assert (H : forall l, CCGLexicon_str str_cat l
                        = render_from str_cat true (_entries l)).
  { intros l. unfold CCGLexicon_str. now rewrite str_outer_fold, append_nil_l. }
  split; [apply H|]. intros s p f w d Hd.
  rewrite !H, Hd. cbn [_entries render_from snd].
  unfold render_entry. cbn [fst snd map String.concat].
  now rewrite append_nil_l, !append_assoc, append_nil_l.
Qed.

End SharedFlag.

Lemma str_newline_only_after_a_category_witness :
  CCGLexicon_str (fun _ => "C")
    (CCGLexicon_init "S" ["S"] ∅ [("zzz", []); ("dog", [prim "S"])])
  = "zzz => " +:+ "dog => C".
Proof.
  exact (proj2 (str_newline_only_after_a_category (fun _ => "C")
                  (CCGLexicon_init "S" ["S"] ∅
                     [("zzz", []); ("dog", [prim "S"])]))
           (prim "S") ["S"] ∅ "zzz" [("dog", [prim "S"])] eq_refl).
Defined.

(** ** Redefining a family *)

Section Redefinition.


End Redefinition.


